(** * trip_kinematics: Robot, forward kinematics and the simple
      inverse-kinematics solver

    A shallow embedding of [src/trip_kinematics/Robot.py].  Python objects
    live in a heap of kinematic groups; a [Robot] holds references into that
    heap through its name-indexed table, so aliasing between a robot and its
    deep copy is explicit.  Python code is written in a state-and-exception
    monad [Py] over the heap; a [while] loop takes an iteration budget and
    answers [Running] when the budget is used up with the loop condition
    still true.

    [trip_kinematics/KinematicGroup.py], [trip_kinematics/Utility.py] and the
    casadi/numpy substrate are not part of the sources at hand: the class
    [Collaborators] collects the operations of theirs that [Robot.py] calls. *)

From stdpp Require Import base option list strings pretty.

Open Scope string_scope.
Open Scope list_scope.
Open Scope nat_scope.

(** ** Python dictionaries

    A [dict] keeps its keys in insertion order, which is the order in which
    [for key in d.keys()] visits them; assigning to a key that is present
    keeps its position. *)

Abbreviation dict A := (list (string * A)) (only parsing).

Fixpoint dict_get {A} (d : dict A) (k : string) : option A :=
  match d with
  | [] => None
  | (k', v) :: d' => if decide (k' = k) then Some v else dict_get d' k
  end.

Fixpoint dict_set {A} (d : dict A) (k : string) (v : A) : dict A :=
  match d with
  | [] => [(k, v)]
  | (k', v') :: d' =>
      if decide (k' = k) then (k, v) :: d' else (k', v') :: dict_set d' k v
  end.

Definition dict_keys {A} (d : dict A) : list string := d.*1.

(** [k in d.keys()] *)
Definition dict_in {A} (k : string) (d : dict A) : bool :=
  bool_decide (k ∈ dict_keys d).

(** [d != {}] *)
Definition dict_nonempty {A} (d : dict A) : bool :=
  match d with [] => false | _ :: _ => true end.

(** ** The text Python prints for a string

    A character of a [string] stands for the character of that code, 0 to
    255.  [repr] writes a [str] between single quotes, or between double
    quotes when it holds a single quote and no double quote; it puts a
    backslash before the quote in use and before a backslash, writes tab,
    line feed and carriage return as [\t], [\n] and [\r], and every other
    character that is not printable (the control characters, 127 to 160,
    and the soft hyphen 173) as [\x] and two hexadecimal digits. *)

Definition single_quote : Ascii.ascii := Ascii.ascii_of_nat 39.
Definition double_quote : Ascii.ascii := Ascii.ascii_of_nat 34.
Definition backslash : Ascii.ascii := Ascii.ascii_of_nat 92.

Definition hex_digit (n : nat) : Ascii.ascii :=
  default Ascii.zero (String.get n "0123456789abcdef").

Definition printable (n : nat) : bool :=
  ((32 <=? n) && (n <? 127)) || ((161 <=? n) && negb (n =? 173)).

Definition repr_char (quote c : Ascii.ascii) : string :=
  let n := Ascii.nat_of_ascii c in
  if bool_decide (c = quote) || bool_decide (c = backslash) then
    String backslash (String c "")
  else if n =? 9 then String backslash "t"
  else if n =? 10 then String backslash "n"
  else if n =? 13 then String backslash "r"
  else if printable n then String c ""
  else
    String backslash
      ("x" +:+ String (hex_digit (n / 16)) (String (hex_digit (n mod 16)) "")).

Fixpoint holds_char (c : Ascii.ascii) (s : string) : bool :=
  match s with
  | EmptyString => false
  | String c' s' => bool_decide (c' = c) || holds_char c s'
  end.

Fixpoint repr_chars (quote : Ascii.ascii) (s : string) : string :=
  match s with
  | EmptyString => EmptyString
  | String c s' => repr_char quote c +:+ repr_chars quote s'
  end.

(** [repr(s)] *)
Definition py_repr (s : string) : string :=
  let quote :=
    if holds_char single_quote s && negb (holds_char double_quote s)
    then double_quote else single_quote in
  String quote (repr_chars quote s +:+ String quote "").

(** [str(d.keys())] *)
Definition str_dict_keys (ks : list string) : string :=
  "dict_keys([" +:+ String.concat ", " (py_repr <$> ks) +:+ "])".

(** ** Exceptions and outcomes *)

Inductive exn : Type :=
| KeyError (msg : string)
| RuntimeError (args : list string)
| IndexError (msg : string)
| AttributeError (msg : string)
| CollaboratorError (msg : string)
| BadReference.

Inductive outcome (A : Type) : Type :=
| Return (a : A)
| Raise (e : exn)
| Running.
Arguments Return {A} a.
Arguments Raise {A} e.
Arguments Running {A}.

Abbreviation loc := nat (only parsing).

(** ** The collaborators of [Robot.py] *)

Class Collaborators : Type := {
  (** numpy / casadi *)
  V : Type;
  zero : V;
  Matrix : Type;
  identity_transformation : Matrix;
  matmul : Matrix → Matrix → Matrix;
  SX : Type;
  sx_identity : SX;
  sx_matmul : SX → SX → SX;
  Target : Type;
  Nlp : Type;
  nlpsol_position : list string → SX → Nlp;
  nlp_call : Nlp → list V → Target → exn + list V;
  (** KinematicGroup.py: Transformation *)
  Transformation : Type;
  t_str : Transformation → string;
  t_get_state : Transformation → dict V;
  t_symbolic_matrix : Transformation → dict string → SX;
  (** KinematicGroup.py: KinematicGroup and OpenKinematicGroup *)
  Group : Type;
  Hint_arg : Type;
  OpenKinematicGroup :
    string → list Transformation → option Group → Group;
  g_str : Group → string;
  g_parent : Group → string;
  g_get_virtual_state : Group → dict (dict V);
  g_get_actuated_state : Group → dict V;
  g_get_virtual_transformations : Group → dict Transformation;
  g_get_transformation_matrix : Group → Matrix;
  g_set_virtual_state : Group → dict (dict V) → exn + Group;
  g_set_actuated_state : Group → dict V → exn + Group;
  g_pass_arg_v_to_a : Group → Hint_arg → Group;
  g_pass_arg_a_to_v : Group → Hint_arg → Group;
}.

(** Modelled from the spec: what the constructor OpenKinematicGroup of
    KinematicGroup.py, which is not among the sources, makes of its
    arguments: the group carries the given name; it refers to the given
    parent by that parent's name, and to itself, marking a root, when no
    parent is given. *)
Class OpenGroupLaws `{C : Collaborators} : Prop := {
  open_str n ts p : g_str (OpenKinematicGroup n ts p) = n;
  open_root n ts : g_parent (OpenKinematicGroup n ts None) = n;
  open_child n ts p : g_parent (OpenKinematicGroup n ts (Some p)) = g_str p;
}.

(** ** The world: heap, and a record of what was printed and called *)

Section World.
Context `{C : Collaborators}.

Inductive event : Type :=
| Printed (line : string)
| Called_set_actuated_state (l : loc) (state : dict V)
| Called_set_virtual_state (l : loc) (state : dict (dict V))
| Called_pass_arg_v_to_a (l : loc) (a : Hint_arg)
| Called_pass_arg_a_to_v (l : loc) (a : Hint_arg)
| Called_inv_kin_solver (x0 : list V) (p : Target).

Record World : Type := mkWorld {
  heap : list Group;
  trace : list event;
}.

Definition Py (A : Type) : Type := World → outcome A * World.

Definition py_ret {A} (a : A) : Py A := λ w, (Return a, w).

Definition py_bind {A B} (m : Py A) (f : A → Py B) : Py B :=
  λ w, match m w with
       | (Return a, w') => f a w'
       | (Raise e, w') => (Raise e, w')
       | (Running, w') => (Running, w')
       end.

Definition raise {A} (e : exn) : Py A := λ w, (Raise e, w).
Definition running {A} : Py A := λ w, (Running, w).

(** [d[k]] on a dictionary *)
Definition getitem {A} (d : dict A) (k : string) : Py A :=
  match dict_get d k with
  | Some v => py_ret v
  | None => raise (KeyError k)
  end.

(** following a reference *)
Definition deref (l : loc) : Py Group :=
  λ w, match heap w !! l with
       | Some g => (Return g, w)
       | None => (Raise BadReference, w)
       end.

(** a new object *)
Definition alloc (g : Group) : Py loc :=
  λ w, (Return (length (heap w)),
        {| heap := heap w ++ [g]; trace := trace w |}).

(** an object's method replaced the object's state *)
Definition store (l : loc) (g : Group) : Py unit :=
  λ w, (Return tt, {| heap := <[l := g]> (heap w); trace := trace w |}).

Definition emit (e : event) : Py unit :=
  λ w, (Return tt, {| heap := heap w; trace := trace w ++ [e] |}).

(** the outcome of a collaborator's method *)
Definition lift_result {A} (r : exn + A) : Py A :=
  match r with
  | inl e => raise e
  | inr a => py_ret a
  end.
End World.

#[export] Instance Py_ret `{C : Collaborators} : MRet Py := @py_ret C.
#[export] Instance Py_bind `{C : Collaborators} : MBind Py :=
  λ A B f m, py_bind m f.

Section Loops.
Context `{C : Collaborators}.

(** [for x in l: body], with the loop's local variables in [s] *)
Fixpoint for_each {A S} (l : list A) (s : S) (body : S → A → Py S) : Py S :=
  match l with
  | [] => mret s
  | x :: l' => s' ← body s x; for_each l' s' body
  end.
End Loops.

(** An element of the list given to [Robot]: a bare Transformation, or a
    reference to a group object. *)
Abbreviation element := (Transformation + loc)%type (only parsing).

(** ** class Robot *)

Module Robot.
Section Robot.
Context `{C : Collaborators}.

(** The three tables of a robot.  [_group_dict] maps a group's name to the
    group object. *)
Record t : Type := mk {
  _group_dict : dict loc;
  _actuator_group_mapping : dict string;
  _virtual_group_mapping : dict string;
}.

Definition actuator_conflict : string :=
  "More than one robot actuator has the same name! Please give each actuator a unique name".

Definition virtual_conflict : string :=
  "More than one robot virtual transformation has the same name! Please give each virtual transformation a unique name".

(** [str(kinematic_chain[j])] *)
Definition str_element (e : element) : Py string :=
  match e with
  | inl trafo => mret (t_str trafo)
  | inr l => g ← deref l; mret (g_str g)
  end.

(** [kinematic_chain[i-1]]; index [-1] is the last element *)
Definition previous_element (kinematic_chain : list element) (i : nat)
  : option element :=
  match i with
  | 0 => last kinematic_chain
  | S j => kinematic_chain !! j
  end.

(** lines 42-45 and 47-50: every key must be new in [mapping], and is then
    given to [owner] *)
Definition claim_keys (keys : list string) (mapping : dict string)
    (owner : string) (conflict : string) : Py (dict string) :=
  for_each keys mapping (λ mapping key,
    if dict_in key mapping then raise (KeyError conflict)
    else mret (dict_set mapping key owner)).

(** the notice of line 32 *)
Definition warning (trafo_name prev_name : string) : string :=
  "Warning: Transformation " +:+ trafo_name +:+
  " was converted to a OpenKinematicGroup with parent " +:+ prev_name.

(** lines 31-37 *)
Definition wrap_transformation (kinematic_chain : list element) (self : t)
    (i : nat) (trafo : Transformation) : Py loc :=
  match previous_element kinematic_chain i with
  | None => raise (IndexError "list index out of range")
  | Some prev =>
      prev_name ← str_element prev;
      emit (Printed (warning (t_str trafo) prev_name));;
      if decide (0 < i) then
        pl ← getitem (_group_dict self) prev_name;
        parent ← deref pl;
        alloc (OpenKinematicGroup (t_str trafo) [trafo] (Some parent))
      else
        alloc (OpenKinematicGroup (t_str trafo) [trafo] None)
  end.

(** one turn of the loop of lines 29-50 *)
Definition init_step (kinematic_chain : list element) (self : t) (i : nat)
  : Py t :=
  match kinematic_chain !! i with
  | None => raise (IndexError "list index out of range")
  | Some e =>
      l ← match e with
          | inr l => mret l
          | inl trafo => wrap_transformation kinematic_chain self i trafo
          end;
      group ← deref l;
      let gd := dict_set (_group_dict self) (g_str group) l in
      if dict_nonempty (g_get_virtual_state group) then
        am ← claim_keys (dict_keys (g_get_actuated_state group))
               (_actuator_group_mapping self) (g_str group)
               actuator_conflict;
        vm ← claim_keys (dict_keys (g_get_virtual_state group))
               (_virtual_group_mapping self) (g_str group)
               virtual_conflict;
        mret (mk gd am vm)
      else
        mret (mk gd (_actuator_group_mapping self)
                (_virtual_group_mapping self))
  end.

Definition __init__ (kinematic_chain : list element) : Py t :=
  for_each (seq 0 (length kinematic_chain)) (mk [] [] [])
    (init_step kinematic_chain).

Definition get_groups (self : t) : dict loc := _group_dict self.

(** [obj.method(...)] on the group at [l], recorded as [ev] *)
Definition call_method (l : loc) (ev : event) (method : Group → exn + Group)
  : Py unit :=
  g ← deref l;
  emit ev;;
  g' ← lift_result (method g);
  store l g'.

Definition pass_group_arg_v_to_a (self : t) (argv_dict : dict Hint_arg)
  : Py unit :=
  for_each (dict_keys argv_dict) tt (λ _ key,
    if dict_in key (_group_dict self) then
      l ← getitem (_group_dict self) key;
      a ← getitem argv_dict key;
      call_method l (Called_pass_arg_v_to_a l a)
        (λ g, inr (g_pass_arg_v_to_a g a))
    else
      raise (KeyError ("No group with name " +:+ key +:+ "in this robot"))).

Definition pass_group_arg_a_to_v (self : t) (argv_dict : dict Hint_arg)
  : Py unit :=
  for_each (dict_keys argv_dict) tt (λ _ key,
    if dict_in key (_group_dict self) then
      l ← getitem (_group_dict self) key;
      a ← getitem argv_dict key;
      call_method l (Called_pass_arg_a_to_v l a)
        (λ g, inr (g_pass_arg_a_to_v g a))
    else
      raise (KeyError ("No group with name " +:+ key +:+ "in this robot"))).

(** lines 81-82 *)
Definition virtual_step (self : t) (state : dict (dict V)) (key : string)
  : Py unit :=
  v ← getitem state key;
  let virtual_state := [(key, v)] in
  owner ← getitem (_virtual_group_mapping self) key;
  l ← getitem (_group_dict self) owner;
  call_method l (Called_set_virtual_state l virtual_state)
    (λ g, g_set_virtual_state g virtual_state).

Definition set_virtual_state (self : t) (state : dict (dict V)) : Py unit :=
  for_each (dict_keys state) tt (λ _ key, virtual_step self state key).

(** lines 92-94 *)
Definition group_step (self : t) (state : dict V) (grouping : dict (dict V))
    (key : string) : Py (dict (dict V)) :=
  owner ← getitem (_actuator_group_mapping self) key;
  let grouping :=
    if dict_in owner grouping then grouping
    else dict_set grouping owner [] in
  owner' ← getitem (_actuator_group_mapping self) key;
  inner ← getitem grouping owner';
  v ← getitem state key;
  mret (dict_set grouping owner' (dict_set inner key v)).

(** lines 90-94 *)
Definition group_by_owner (self : t) (state : dict V) : Py (dict (dict V)) :=
  for_each (dict_keys state) [] (group_step self state).

(** line 96 *)
Definition actuated_call (self : t) (grouping : dict (dict V)) (key : string)
  : Py unit :=
  l ← getitem (_group_dict self) key;
  part ← getitem grouping key;
  call_method l (Called_set_actuated_state l part)
    (λ g, g_set_actuated_state g part).

Definition set_actuated_state (self : t) (state : dict V) : Py unit :=
  grouping ← group_by_owner self state;
  for_each (dict_keys grouping) tt (λ _ key, actuated_call self grouping key).

(** The test [actuated_group != None] of line 108 holds of every
    dictionary. *)
Definition get_actuated_state (self : t) : Py (dict V) :=
  for_each (dict_keys (_group_dict self)) [] (λ actuated_state key,
    l ← getitem (_group_dict self) key;
    g ← deref l;
    let actuated_group := g_get_actuated_state g in
    for_each (dict_keys actuated_group) actuated_state
      (λ actuated_state actuated_key,
         v ← getitem actuated_group actuated_key;
         mret (dict_set actuated_state actuated_key v))).

Definition get_virtual_state (self : t) : Py (dict (dict V)) :=
  for_each (dict_keys (_group_dict self)) [] (λ virtual_state group_key,
    l ← getitem (_group_dict self) group_key;
    g ← deref l;
    let group_state := g_get_virtual_state g in
    if dict_nonempty group_state then
      for_each (dict_keys group_state) virtual_state
        (λ virtual_state key,
           v ← getitem group_state key;
           mret (dict_set virtual_state key v))
    else mret virtual_state).

(** The loop of lines 155-159, which lines 274-278 repeat word for word.
    [budget] bounds the number of turns. *)
Fixpoint parent_walk (budget : nat) (group_dict : dict loc)
    (current_parent current_key : string) (group_key_list : list string)
  : Py (list string) :=
  if decide (current_parent = current_key) then mret group_key_list
  else
    match budget with
    | 0 => running
    | S budget' =>
        nl ← getitem group_dict current_parent;
        next_group ← deref nl;
        parent_walk budget' group_dict (g_parent next_group)
          current_parent (group_key_list ++ [current_parent])
    end.

(** lines 146-161, and 267-280 *)
Definition ancestor_chain (budget : nat) (self : t) (endeffector : string)
    (what : string) : Py (list string) :=
  let group_dict := get_groups self in
  if dict_in endeffector group_dict then
    el ← getitem group_dict endeffector;
    endeff_group ← deref el;
    group_key_list ←
      parent_walk budget group_dict (g_parent endeff_group) endeffector
        [endeffector];
    mret (reverse group_key_list)
  else
    raise (KeyError (what +:+ str_dict_keys (dict_keys group_dict))).

(** lines 166-178 for one group: the state of every transformation becomes
    fresh symbols, the matrices are multiplied up.  The test [state != {}]
    of line 170 only skips a loop over no keys; the copy into [hom_matrix]
    of lines 180-183 keeps the sixteen entries as they are. *)
Definition symbolic_group (acc : SX * list string * list (string * string))
    (group : Group) : Py (SX * list string * list (string * string)) :=
  let virtual_trafo := g_get_virtual_transformations group in
  for_each (dict_keys virtual_trafo) acc
    (λ acc virtual_key,
       let '(matrix, symbolic_state, symbolic_keys) := acc in
       virtual_transformation ← getitem virtual_trafo virtual_key;
       let state := t_get_state virtual_transformation in
       let symbols : dict string :=
         map (λ key, (key, virtual_key +:+ "_" +:+ key)) (dict_keys state) in
       let hmt := t_symbolic_matrix virtual_transformation symbols in
       mret (sx_matmul matrix hmt,
             symbolic_state ++ symbols.*2,
             symbolic_keys ++ map (λ key, (virtual_key, key)) (dict_keys state))).

Definition get_symbolic_rep (budget : nat) (self : t) (endeffector : string)
  : Py (SX * list string * list (string * string)) :=
  group_key_list ←
    ancestor_chain budget self endeffector
      "The endeffector must be a valid group or transformation name. Valid names for this robot are: ";
  for_each group_key_list (sx_identity, [], []) (λ acc group_key,
    l ← getitem (get_groups self) group_key;
    group ← deref l;
    symbolic_group acc group).
End Robot.
End Robot.

(** ** copy.deepcopy on a robot

    Every group object the robot refers to is copied into a new object; two
    names that refer to one object refer to one copy ([memo]). *)

Section Deepcopy.
Context `{C : Collaborators}.

Fixpoint memo_get (memo : list (loc * loc)) (l : loc) : option loc :=
  match memo with
  | [] => None
  | (old, new) :: memo' =>
      if decide (old = l) then Some new else memo_get memo' l
  end.

Definition deepcopy_entry (acc : list (loc * loc) * dict loc)
    (entry : string * loc) : Py (list (loc * loc) * dict loc) :=
  let '(memo, group_dict) := acc in
  let '(name, l) := entry in
  match memo_get memo l with
  | Some l' => mret (memo, group_dict ++ [(name, l')])
  | None =>
      g ← deref l;
      l' ← alloc g;
      mret ((l, l') :: memo, group_dict ++ [(name, l')])
  end.

Definition deepcopy (robot : Robot.t) : Py Robot.t :=
  acc ← for_each (Robot._group_dict robot) ([], []) deepcopy_entry;
  mret (Robot.mk acc.2 (Robot._actuator_group_mapping robot)
          (Robot._virtual_group_mapping robot)).
End Deepcopy.

(** ** class SimpleInvKinSolver *)

Module SimpleInvKinSolver.
Section SimpleInvKinSolver.
Context `{C : Collaborators}.

(** [inv_kin_solver] exists only when the solver was built with
    [orientation == False]. *)
Record t : Type := mk {
  _symbolic_keys : list (string * string);
  endeffector : string;
  _robot : Robot.t;
  inv_kin_solver : option Nlp;
}.

Definition __init__ (budget : nat) (robot : Robot.t) (endeffector : string)
    (orientation update_robot : bool) : Py t :=
  '(matrix, symboles, symbolic_keys) ←
    Robot.get_symbolic_rep budget robot endeffector;
  _robot ← (if update_robot then mret robot else deepcopy robot);
  mret (mk symbolic_keys endeffector _robot
          (if orientation then None
           else Some (nlpsol_position symboles matrix))).

Definition _solver_to_virtual_state (self : t) (solver_state : list V)
  : Py (dict (dict V)) :=
  for_each (seq 0 (length solver_state)) []
    (λ virtual_state i,
       match _symbolic_keys self !! i, solver_state !! i with
       | Some (outer_key, inner_key), Some x =>
           let virtual_state :=
             if dict_in outer_key virtual_state then virtual_state
             else dict_set virtual_state outer_key [] in
           inner ← getitem virtual_state outer_key;
           mret (dict_set virtual_state outer_key
                   (dict_set inner inner_key x))
       | _, _ => raise (IndexError "list index out of range")
       end).

Definition _virtual_to_solver_state (self : t) (virtual_state : dict (dict V))
  : Py (list V) :=
  for_each (seq 0 (length (_symbolic_keys self))) []
    (λ solver_state i,
       match _symbolic_keys self !! i with
       | Some (outer_key, inner_key) =>
           inner ← getitem virtual_state outer_key;
           x ← getitem inner inner_key;
           mret (solver_state ++ [x])
       | None => raise (IndexError "list index out of range")
       end).

(** lines 217-220: [solve_virtual] from the start vector [x0] on *)
Definition solve_virtual_from (self : t) (target : Target) (x0 : list V)
  : Py (dict (dict V)) :=
  if decide (length x0 ≠ length (_symbolic_keys self)) then
    raise (RuntimeError
             ["The initial state has " +:+ pretty (length x0) +:+
              " values, while the solver expected ";
              pretty (length (_symbolic_keys self))])
  else
    match inv_kin_solver self with
    | None =>
        raise (AttributeError
                 "'SimpleInvKinSolver' object has no attribute 'inv_kin_solver'")
    | Some solver =>
        emit (Called_inv_kin_solver x0 target);;
        solution ← lift_result (nlp_call solver x0 target);
        _solver_to_virtual_state self solution
    end.

(** lines 212-220 *)
Definition solve_virtual (self : t) (target : Target)
    (initial_tip : option (dict (dict V))) : Py (dict (dict V)) :=
  x0 ← match initial_tip with
       | None => mret (replicate (length (_symbolic_keys self)) zero)
       | Some tip => _virtual_to_solver_state self tip
       end;
  solve_virtual_from self target x0.

Definition solve_actuated (self : t) (target : Target)
    (initial_tip : option (dict (dict V)))
    (mapping_argument : option (dict Hint_arg)) : Py (dict V) :=
  virtual_state ← solve_virtual self target initial_tip;
  match mapping_argument with
  | Some m => Robot.pass_group_arg_v_to_a (_robot self) m
  | None => mret tt
  end;;
  Robot.set_virtual_state (_robot self) virtual_state;;
  Robot.get_actuated_state (_robot self).
End SimpleInvKinSolver.
End SimpleInvKinSolver.

(** ** forward_kinematics *)

Section ForwardKinematics.
Context `{C : Collaborators}.

Definition forward_kinematics (budget : nat) (robot : Robot.t)
    (endeffector : string) : Py Matrix :=
  group_key_list ←
    Robot.ancestor_chain budget robot endeffector
      "The endeffector must be a valid group name. Valid group names for this robot are: ";
  for_each group_key_list identity_transformation
    (λ transformation group_key,
       l ← getitem (Robot.get_groups robot) group_key;
       group ← deref l;
       let hmt := g_get_transformation_matrix group in
       mret (matmul transformation hmt)).
End ForwardKinematics.

(** ** A model of the collaborators

    Concrete robots need concrete groups.  [Model] gives the classes of
    [KinematicGroup.py] as the specification describes them, over integer
    joint values, with matrices kept as the word of the transformations that
    were multiplied (so that the order of a product stays visible). *)

Module Model.

(** Modelled from the spec: class Transformation of KinematicGroup.py, which
    is not among the sources: a named pose operator; [t_values] are the
    current values of its declared state variables. *)
Record transformation : Type := Trafo {
  t_name : string;
  t_values : dict Z;
}.

Definition matrix : Type := list (string * dict Z).
Definition sx : Type := list (string * dict string).

(** Modelled from the spec: the two variants of KinematicGroup of
    KinematicGroup.py, which is not among the sources.  An Open group's
    actuated state is its virtual state; a Closed group has an actuated
    state of its own and two mapping functions, each given the previous
    state of the other space and the auxiliary argument passed to it. *)
Inductive variant : Type :=
| Open
| Closed (actuated_state : dict Z)
    (actuated_to_virtual :
       dict Z → dict (dict Z) → option Z → exn + dict (dict Z))
    (virtual_to_actuated :
       dict (dict Z) → dict Z → option Z → exn + dict Z).

Record group : Type := Grp {
  name : string;
  parent : string;
  virtual_transformations : list transformation;
  kind : variant;
  arg_v_to_a : option Z;
  arg_a_to_v : option Z;
}.

(** Modelled from the spec: OpenKinematicGroup(name, transformations,
    parent) of KinematicGroup.py; without a parent the group refers to
    itself, which marks the root. *)
Definition open_group (n : string) (ts : list transformation)
    (p : option group) : group :=
  Grp n (match p with Some g => name g | None => n end) ts Open None None.

(** Modelled from the spec: get_virtual_state of KinematicGroup.py; only
    transformations with declared state variables take part. *)
Definition get_virtual_state (g : group) : dict (dict Z) :=
  (λ t, (t_name t, t_values t)) <$>
  filter (λ t, dict_nonempty (t_values t) = true) (virtual_transformations g).

(** Modelled from the spec: the composite keys of an Open group's actuated
    state. *)
Definition composite (outer : string) (inner : dict Z) : dict Z :=
  (λ kv, (outer +:+ "_" +:+ kv.1, kv.2)) <$> inner.

Definition get_actuated_state (g : group) : dict Z :=
  match kind g with
  | Open => concat ((λ e, composite e.1 e.2) <$> get_virtual_state g)
  | Closed a _ _ => a
  end.

Definition merge {A} (old new : dict A) : dict A :=
  fold_left (λ d kv, dict_set d kv.1 kv.2) new old.

Definition declared {A B} (new : dict A) (old : dict B) : bool :=
  forallb (λ k, dict_in k old) (dict_keys new).

(** the values of the transformations after a (partial) virtual state *)
Definition apply_virtual (st : dict (dict Z)) (t : transformation)
  : transformation :=
  match dict_get st (t_name t) with
  | Some inner => Trafo (t_name t) (merge (t_values t) inner)
  | None => t
  end.

Definition virtual_declared (g : group) (st : dict (dict Z)) : bool :=
  forallb (λ e, match dict_get (get_virtual_state g) e.1 with
                | Some old => declared e.2 old
                | None => false
                end) st.

Definition with_kind (g : group) (ts : list transformation) (k : variant)
  : group :=
  Grp (name g) (parent g) ts k (arg_v_to_a g) (arg_a_to_v g).

(** Modelled from the spec: set_virtual_state of KinematicGroup.py. *)
Definition set_virtual_state (g : group) (st : dict (dict Z)) : exn + group :=
  if virtual_declared g st then
    let ts := apply_virtual st <$> virtual_transformations g in
    match kind g with
    | Open => inr (with_kind g ts Open)
    | Closed a a2v v2a =>
        match v2a (get_virtual_state (with_kind g ts (kind g))) a
                (arg_v_to_a g) with
        | inl e => inl e
        | inr a' => inr (with_kind g ts (Closed (merge a a') a2v v2a))
        end
    end
  else inl (CollaboratorError "undeclared virtual state").

(** the virtual state an Open group reads out of composite keys *)
Definition uncomposite (g : group) (st : dict Z) : dict (dict Z) :=
  (λ e : string * dict Z,
     (e.1,
      (λ kv : string * Z,
         (kv.1, default kv.2 (dict_get st (e.1 +:+ "_" +:+ kv.1)))) <$>
      filter (λ kv : string * Z, dict_in (e.1 +:+ "_" +:+ kv.1) st = true)
        e.2))
  <$> get_virtual_state g.

(** Modelled from the spec: set_actuated_state of KinematicGroup.py. *)
Definition set_actuated_state (g : group) (st : dict Z) : exn + group :=
  if declared st (get_actuated_state g) then
    match kind g with
    | Open =>
        inr (with_kind g
               (apply_virtual (uncomposite g st) <$> virtual_transformations g)
               Open)
    | Closed a a2v v2a =>
        let a' := merge a st in
        match a2v a' (get_virtual_state g) (arg_a_to_v g) with
        | inl e => inl e
        | inr v =>
            inr (with_kind g (apply_virtual v <$> virtual_transformations g)
                   (Closed a' a2v v2a))
        end
    end
  else inl (CollaboratorError "undeclared actuated state").

Definition get_transformation_matrix (g : group) : matrix :=
  (λ t, (t_name t, t_values t)) <$> virtual_transformations g.

#[export] Instance collaborators : Collaborators := {|
  V := Z;
  zero := 0%Z;
  Matrix := matrix;
  identity_transformation := [];
  matmul := app;
  SX := sx;
  sx_identity := [];
  sx_matmul := app;
  Target := Z;
  Nlp := list string;
  nlpsol_position := λ symbols _, symbols;
  nlp_call := λ _ x0 _, inr x0;
  Transformation := transformation;
  t_str := t_name;
  t_get_state := t_values;
  t_symbolic_matrix := λ t symbols, [(t_name t, symbols)];
  Group := group;
  Hint_arg := Z;
  OpenKinematicGroup := open_group;
  g_str := name;
  g_parent := parent;
  g_get_virtual_state := get_virtual_state;
  g_get_actuated_state := get_actuated_state;
  g_get_virtual_transformations :=
    λ g, (λ t, (t_name t, t)) <$> virtual_transformations g;
  g_get_transformation_matrix := get_transformation_matrix;
  g_set_virtual_state := set_virtual_state;
  g_set_actuated_state := set_actuated_state;
  g_pass_arg_v_to_a :=
    λ g a, Grp (name g) (parent g) (virtual_transformations g) (kind g)
             (Some a) (arg_a_to_v g);
  g_pass_arg_a_to_v :=
    λ g a, Grp (name g) (parent g) (virtual_transformations g) (kind g)
             (arg_v_to_a g) (Some a);
|}.

Definition empty_world : World := mkWorld [] [].
End Model.

(** ** Notions used to state the properties *)

Section Notions.
Context `{C : Collaborators}.

(** The group objects a [kinematic_chain] stands for, in list order: a
    reference stands for the object it refers to, a bare Transformation for
    the Open group it is wrapped into, whose parent is the group of the
    element before it. *)
Fixpoint elaborate (h : list Group) (prev : option Group)
    (kinematic_chain : list element) : option (list Group) :=
  match kinematic_chain with
  | [] => Some []
  | inr l :: rest =>
      g ← h !! l; gs ← elaborate h (Some g) rest; Some (g :: gs)
  | inl trafo :: rest =>
      let g := OpenKinematicGroup (t_str trafo) [trafo] prev in
      gs ← elaborate h (Some g) rest; Some (g :: gs)
  end.

(** [str] of a list element, in a given heap *)
Definition element_name (h : list Group) (e : element) : option string :=
  match e with
  | inl trafo => Some (t_str trafo)
  | inr l => g_str <$> h !! l
  end.

(** [ancestry group_dict h n path]: following parent links from the group
    registered as [n] reaches a root, and [path] lists the names and groups
    met, root first and [n] with its group last. *)
Inductive ancestry (group_dict : dict loc) (h : list Group)
  : string → list (string * Group) → Prop :=
| ancestry_root n l g :
    dict_get group_dict n = Some l → h !! l = Some g →
    g_parent g = n →
    ancestry group_dict h n [(n, g)]
| ancestry_step n l g path :
    dict_get group_dict n = Some l → h !! l = Some g →
    g_parent g ≠ n →
    ancestry group_dict h (g_parent g) path →
    ancestry group_dict h n (path ++ [(n, g)]).

(** identity · M(G1) · ... · M(Gn) *)
Definition chain_product (path : list Group) : Matrix :=
  foldl (λ m g, matmul m (g_get_transformation_matrix g))
    identity_transformation path.

(** [rootless group_dict h names]: every name in [names] is registered,
    its group is not a root, and its parent is again in [names]. *)
Definition stays_inside (group_dict : dict loc) (h : list Group)
    (names : list string) (n : string) : bool :=
  match dict_get group_dict n with
  | Some l =>
      match h !! l with
      | Some g =>
          bool_decide (g_parent g ≠ n) && bool_decide (g_parent g ∈ names)
      | None => false
      end
  | None => false
  end.

Definition rootless (group_dict : dict loc) (h : list Group)
    (names : list string) : bool :=
  forallb (stays_inside group_dict h names) names.

(** whether a computation has come to an end *)
Definition finished {A} (o : outcome A) : Prop :=
  match o with
  | Running => False
  | _ => True
  end.

(** the part of [state] whose keys [mapping] gives to [owner] *)
Definition owned_by {A} (mapping : dict string) (owner : string)
    (state : dict A) : dict A :=
  filter (λ kv, dict_get mapping kv.1 = Some owner) state.

(** a computation that leaves the world as it found it *)
Definition readonly {A} (m : Py A) : Prop := ∀ w, (m w).2 = w.

(** lines 92-94 for one key *)
Definition group_add {A} (grouping : dict (dict A)) (owner key : string)
    (v : A) : dict (dict A) :=
  let grouping :=
    if dict_in owner grouping then grouping
    else dict_set grouping owner [] in
  dict_set grouping owner
    (dict_set (default [] (dict_get grouping owner)) key v).

(** the group of the element before position [i] *)
Definition prev_group (prev : option Group) (gs : list Group) (i : nat)
  : option Group :=
  match i with
  | 0 => prev
  | S j => gs !! j
  end.

(** What holds of the robot under construction when the loop of
    [Robot.__init__] is about to take turn [i]: the heap has only grown;
    the keys of every earlier group with a non-empty virtual state are
    taken; and the group of the element before is registered under its
    name. *)
Definition init_inv (gs : list Group) (w0 : World) (i : nat)
    (self : Robot.t) (w : World) : Prop :=
  heap w0 `prefix_of` heap w
  ∧ (∀ k g, k < i → gs !! k = Some g →
       dict_nonempty (g_get_virtual_state g) = true →
       dict_keys (g_get_actuated_state g) ⊆
         dict_keys (Robot._actuator_group_mapping self)
       ∧ dict_keys (g_get_virtual_state g) ⊆
         dict_keys (Robot._virtual_group_mapping self))
  ∧ (∀ j g, i = S j → gs !! j = Some g →
       ∃ l, dict_get (Robot._group_dict self) (g_str g) = Some l
            ∧ heap w !! l = Some g).

(** lines 40-50, once the group of the turn is known *)
Definition claim_state (self : Robot.t) (g : Group) (l : loc)
  : Py Robot.t :=
  let gd := dict_set (Robot._group_dict self) (g_str g) l in
  if dict_nonempty (g_get_virtual_state g) then
    am ← Robot.claim_keys (dict_keys (g_get_actuated_state g))
           (Robot._actuator_group_mapping self) (g_str g)
           Robot.actuator_conflict;
    vm ← Robot.claim_keys (dict_keys (g_get_virtual_state g))
           (Robot._virtual_group_mapping self) (g_str g)
           Robot.virtual_conflict;
    mret (Robot.mk gd am vm)
  else
    mret (Robot.mk gd (Robot._actuator_group_mapping self)
            (Robot._virtual_group_mapping self)).

(** [grouping_of mapping done grouping]: [grouping] has one entry for every
    owner of a key of [done], holding the part of [done] that owner owns. *)
Definition grouping_of {A} (mapping : dict string) (done : dict A)
    (grouping : dict (dict A)) : Prop :=
  NoDup (dict_keys grouping)
  ∧ (∀ o, o ∈ dict_keys grouping ↔
          ∃ k, k ∈ dict_keys done ∧ dict_get mapping k = Some o)
  ∧ (∀ o part, dict_get grouping o = Some part →
               part = owned_by mapping o done).

(** a computation that changes no object outside [P], and makes none *)
Definition modifies_only {A} (P : loc → Prop) (m : Py A) : Prop :=
  ∀ w, length (heap (m w).2) = length (heap w)
       ∧ ∀ l, ¬ P l → heap (m w).2 !! l = heap w !! l.


(** the objects a robot refers to *)
Definition refers_to (robot : Robot.t) (l : loc) : Prop :=
  ∃ n, (n, l) ∈ Robot._group_dict robot.

(** the objects a robot refers to are alive *)
Definition alive (h : list Group) (robot : Robot.t) : Prop :=
  ∀ n l, (n, l) ∈ Robot._group_dict robot → l < length h.
End Notions.

(** ** Concrete robots *)

Module Examples.
Import Model.

(** A chain of three bare transformations, A the root, B and C each with
    state variables; and the robot [Robot.__init__] makes of them. *)
Definition trafo_A : transformation := Trafo "A" [].
Definition trafo_B : transformation := Trafo "B" [("ry", 0%Z)].
Definition trafo_C : transformation := Trafo "C" [("rz", 3%Z); ("rx", 1%Z)].

Definition chain_abc : list element := [inl trafo_A; inl trafo_B; inl trafo_C].

Definition group_A : group := open_group "A" [trafo_A] None.
Definition group_B : group := open_group "B" [trafo_B] (Some group_A).
Definition group_C : group := open_group "C" [trafo_C] (Some group_B).

Definition robot_abc : Robot.t :=
  Robot.mk [("A", 0); ("B", 1); ("C", 2)]
    [("B_ry", "B"); ("C_rz", "C"); ("C_rx", "C")]
    [("B", "B"); ("C", "C")].

Definition world_abc : World := mkWorld [group_A; group_B; group_C] [].

(** the solver built for C on [robot_abc] without update_robot, and the
    world it leaves *)
Definition solver_abc : SimpleInvKinSolver.t :=
  SimpleInvKinSolver.mk [("B", "ry"); ("C", "rz"); ("C", "rx")] "C"
    (Robot.mk [("A", 3); ("B", 4); ("C", 5)]
       [("B_ry", "B"); ("C_rz", "C"); ("C_rx", "C")]
       [("B", "B"); ("C", "C")])
    (Some ["B_ry"; "C_rz"; "C_rx"]).

Definition world_abc_copied : World :=
  mkWorld [group_A; group_B; group_C; group_A; group_B; group_C] [].

(** A root named A, a group B below it, and a second group named A below
    B: registered last, the second A takes the first one's place in the
    table, and the parent links of the table go round in a circle. *)
Definition cycle_root : group := Grp "A" "A" [] Open None None.
Definition cycle_B : group := Grp "B" "A" [] Open None None.
Definition cycle_A : group := Grp "A" "B" [] Open None None.

Definition world_cycle : World := mkWorld [cycle_root; cycle_B; cycle_A] [].
Definition chain_cycle : list element := [inr 0; inr 1; inr 2].
Definition robot_cycle : Robot.t := Robot.mk [("A", 2); ("B", 1)] [] [].

(** Two Closed groups over fixed transformations, so with an empty virtual
    state, that both declare the actuator m. *)
Definition keep_virtual
    (a : dict Z) (v : dict (dict Z)) (hint : option Z) : exn + dict (dict Z) :=
  inr v.
Definition keep_actuated
    (v : dict (dict Z)) (a : dict Z) (hint : option Z) : exn + dict Z :=
  inr a.

Definition closed_1 : group :=
  Grp "c1" "c1" [Trafo "f1" []]
    (Closed [("m", 0%Z)] keep_virtual keep_actuated) None None.
Definition closed_2 : group :=
  Grp "c2" "c1" [Trafo "f2" []]
    (Closed [("m", 0%Z)] keep_virtual keep_actuated) None None.

Definition world_closed : World := mkWorld [closed_1; closed_2] [].
Definition chain_closed : list element := [inr 0; inr 1].

(** the same transformation given twice *)
Definition chain_twice : list element := [inl trafo_B; inl trafo_B].

(** One Open group that owns two virtual keys. *)
Definition arm : group :=
  Grp "arm" "arm" [Trafo "j1" [("ry", 0%Z)]; Trafo "j2" [("ry", 0%Z)]]
    Open None None.

Definition world_arm : World := mkWorld [arm] [].

Definition robot_arm : Robot.t :=
  Robot.mk [("arm", 0)] [("j1_ry", "arm"); ("j2_ry", "arm")]
    [("j1", "arm"); ("j2", "arm")].

(** A solver with the single unknown ry of j. *)
Definition solver_j : SimpleInvKinSolver.t :=
  SimpleInvKinSolver.mk [("j", "ry")] "j" (Robot.mk [] [] []) (Some ["j_ry"]).
End Examples.

(** ** Further notions *)

Section MoreNotions.
Context `{C : Collaborators}.

(** [d[outer][inner]] *)
Definition nested_get {A} (d : dict (dict A)) (outer inner : string)
  : option A :=
  inner_dict ← dict_get d outer; dict_get inner_dict inner.

(** the virtual state that lists the values of a solver vector under their
    keys, first to last *)
Definition decode {A} (keys : list (string * string)) (xs : list A)
  : dict (dict A) :=
  foldl (λ vs kx, group_add vs kx.1.1 kx.1.2 kx.2) [] (zip keys xs).

(** the name of the symbol made for a key, line 172 *)
Definition symbol_name (key : string * string) : string :=
  key.1 +:+ "_" +:+ key.2.

(** [registered robot h]: every name of the table leads to a live group of
    that name, and every owner named by the two maps is in the table. *)
Definition registered (h : list Group) (robot : Robot.t) : Prop :=
  (∀ n l, dict_get (Robot._group_dict robot) n = Some l →
          ∃ g, h !! l = Some g ∧ g_str g = n)
  ∧ (∀ k o, dict_get (Robot._actuator_group_mapping robot) k = Some o →
            o ∈ dict_keys (Robot._group_dict robot))
  ∧ (∀ k o, dict_get (Robot._virtual_group_mapping robot) k = Some o →
            o ∈ dict_keys (Robot._group_dict robot)).

(** [orphan group_dict h d n missing]: following parent links from the group
    registered as [n], the [d]-th link names [missing], which is not
    registered; the groups before it are registered and none is a root. *)
Inductive orphan (group_dict : dict loc) (h : list Group)
  : nat → string → string → Prop :=
| orphan_parent n l g :
    dict_get group_dict n = Some l → h !! l = Some g →
    g_parent g ≠ n → dict_get group_dict (g_parent g) = None →
    orphan group_dict h 1 n (g_parent g)
| orphan_step d n l g missing :
    dict_get group_dict n = Some l → h !! l = Some g →
    g_parent g ≠ n →
    orphan group_dict h d (g_parent g) missing →
    orphan group_dict h (S d) n missing.

(** the group a robot has under a name *)
Definition group_at (robot : Robot.t) (h : list Group) (n : string)
  : option Group :=
  l ← dict_get (Robot._group_dict robot) n; h !! l.

(** the bare Transformations of a list *)
Definition bare (kinematic_chain : list element) : list Transformation :=
  omap (λ e, match e with inl trafo => Some trafo | inr _ => None end)
    kinematic_chain.

(** [if d:] on an optional dictionary: neither None nor empty *)
Definition truthy {A} (d : option (dict A)) : bool :=
  match d with
  | Some (_ :: _) => true
  | _ => false
  end.
End MoreNotions.

(** ** Functions without state: exceptions alone *)

(** [r] then [k], an exception of [r] passing through *)
Definition try {A B} (r : exn + A) (k : A → exn + B) : exn + B :=
  match r with
  | inl e => inl e
  | inr a => k a
  end.

(** [d[k]] *)
Definition lookup_key {A} (d : dict A) (k : string) : exn + A :=
  match dict_get d k with
  | Some v => inr v
  | None => inl (KeyError k)
  end.

Fixpoint dict_remove {A} (d : dict A) (k : string) : dict A :=
  match d with
  | [] => []
  | (k', v) :: d' =>
      if decide (k' = k) then d' else (k', v) :: dict_remove d' k
  end.

(** [del d[k]] *)
Definition dict_del {A} (d : dict A) (k : string) : exn + dict A :=
  if dict_in k d then inr (dict_remove d k) else inl (KeyError k).

(** [l[i][0]] on the column a solver returns *)
Definition column_at {A} (l : list A) (i : nat) : exn + A :=
  match l !! i with
  | Some x => inr x
  | None => inl (IndexError "index out of bounds")
  end.

(** ** trip_robots/triped.py: the two mapping functions of a leg

    [swing_to_gimbal] and [gimbal_to_swing] come from trip_robots.triped_leg,
    which is not among the sources: they are taken as arguments. *)

Module Triped.
Section Triped.
Context {A B T : Type}.

(** line 40 *)
Definition leg_name (leg_number : nat) : string :=
  "leg" +:+ pretty leg_number +:+ "_".

(** lines 11-23; the copy of line 12 is the value [swing] itself *)
Definition rename_swing_to_gimbal (leg_name : string)
    (swing_to_gimbal : dict A → option T → exn + dict B)
    (swing : dict A) (tips : option T) : exn + dict B :=
  try (lookup_key swing (leg_name +:+ "swing_left")) (λ left,
  let swing := dict_set swing "swing_left" left in
  try (lookup_key swing (leg_name +:+ "swing_right")) (λ right,
  let swing := dict_set swing "swing_right" right in
  try (dict_del swing (leg_name +:+ "swing_left")) (λ swing,
  try (dict_del swing (leg_name +:+ "swing_right")) (λ swing,
  try (swing_to_gimbal swing tips) (λ gimbal,
  try (lookup_key gimbal "gimbal_joint") (λ joint,
  let gimbal := dict_set gimbal (leg_name +:+ "gimbal_joint") joint in
  dict_del gimbal "gimbal_joint")))))).

(** lines 25-37 *)
Definition rename_gimbal_to_swing (leg_name : string)
    (gimbal_to_swing : dict B → option T → exn + dict A)
    (gimbal : dict B) (tips : option T) : exn + dict A :=
  try (lookup_key gimbal (leg_name +:+ "gimbal_joint")) (λ joint,
  let gimbal := dict_set gimbal "gimbal_joint" joint in
  try (dict_del gimbal (leg_name +:+ "gimbal_joint")) (λ gimbal,
  try (gimbal_to_swing gimbal tips) (λ swing,
  try (lookup_key swing "swing_left") (λ left,
  let swing := dict_set swing (leg_name +:+ "swing_left") left in
  try (lookup_key swing "swing_right") (λ right,
  let swing := dict_set swing (leg_name +:+ "swing_right") right in
  try (dict_del swing "swing_left") (λ swing,
  dict_del swing "swing_right")))))).
End Triped.
End Triped.

(** ** examples/triped.py: the two mapping functions of the example leg

    [run_solver name constraint x0] stands for compiling the problem of
    lines 105-106 (120-121), whose constraint is made of the given values
    of the state, and calling it with the start vector [x0]. *)

Module TripedExample.
Section TripedExample.
Context `{C : Collaborators}.
Variable run_solver : string → list V → list V → exn + list V.

(** lines 96-109 *)
Definition swing_to_gimbal (state : dict V) (tips : option (dict V))
  : exn + dict (dict V) :=
  try (lookup_key state "swing_left") (λ left,
  try (lookup_key state "swing_right") (λ right,
  let x_0 := [left; right; zero; zero; zero] in
  try (if truthy tips then
         let tips := default [] tips in
         try (lookup_key tips "rx") (λ rx,
         try (lookup_key tips "ry") (λ ry,
         try (lookup_key tips "rz") (λ rz,
         inr [left; right; rx; ry; rz])))
       else inr x_0) (λ x_0,
  try (run_solver "swing_to_gimbal" [right; left] x_0) (λ sol_vector,
  try (column_at sol_vector 2) (λ rx,
  try (column_at sol_vector 3) (λ ry,
  try (column_at sol_vector 4) (λ rz,
  inr [("gimbal_joint", [("rx", rx); ("ry", ry); ("rz", rz)])]))))))).

(** lines 112-124: the start vector [x_0] is put together, with the tips
    when there are any, and the solver is then called with zeros *)
Definition gimbal_to_swing (state : dict (dict V)) (tips : option (dict V))
  : exn + dict V :=
  try (lookup_key state "gimbal_joint") (λ joint,
  try (lookup_key joint "rx") (λ rx,
  try (lookup_key joint "ry") (λ ry,
  try (lookup_key joint "rz") (λ rz,
  let x_0 := [zero; zero; rx; ry; rz] in
  try (if truthy tips then
         let tips := default [] tips in
         try (lookup_key tips "swing_left") (λ left,
         try (lookup_key tips "swing_right") (λ right,
         inr [left; right; rx; ry; rz]))
       else inr x_0) (λ x_0,
  try (run_solver "gimbal_to_swing" [rx; ry; rz]
         [zero; zero; zero; zero; zero]) (λ sol_vector,
  try (column_at sol_vector 0) (λ left,
  try (column_at sol_vector 1) (λ right,
  inr [("swing_left", left); ("swing_right", right)])))))))).
End TripedExample.
End TripedExample.

(** ** Further concrete values *)

Module MoreExamples.
Import Model Examples.

(** the solver built for C on [robot_abc] with orientation=True and
    update_robot=True *)
Definition solver_oriented : SimpleInvKinSolver.t :=
  SimpleInvKinSolver.mk [("B", "ry"); ("C", "rz"); ("C", "rx")] "C" robot_abc
    None.

(** The group B alone: its parent A is not in the table. *)
Definition robot_orphan : Robot.t :=
  Robot.mk [("B", 0)] [("B_ry", "B")] [("B", "B")].
Definition world_orphan : World := mkWorld [group_B] [].

(** The collaborators of [Model], with a compiled solver that raises
    whatever it is called with. *)
Definition failing_collaborators : Collaborators := {|
  V := Z;
  zero := 0%Z;
  Matrix := matrix;
  identity_transformation := [];
  matmul := app;
  SX := sx;
  sx_identity := [];
  sx_matmul := app;
  Target := Z;
  Nlp := list string;
  nlpsol_position := λ symbols _, symbols;
  nlp_call := λ _ _ _, inl (RuntimeError ["Infeasible_Problem_Detected"]);
  Transformation := transformation;
  t_str := t_name;
  t_get_state := t_values;
  t_symbolic_matrix := λ t symbols, [(t_name t, symbols)];
  Group := group;
  Hint_arg := Z;
  OpenKinematicGroup := open_group;
  g_str := name;
  g_parent := parent;
  g_get_virtual_state := get_virtual_state;
  g_get_actuated_state := get_actuated_state;
  g_get_virtual_transformations :=
    λ g, (λ t, (t_name t, t)) <$> virtual_transformations g;
  g_get_transformation_matrix := get_transformation_matrix;
  g_set_virtual_state := set_virtual_state;
  g_set_actuated_state := set_actuated_state;
  g_pass_arg_v_to_a :=
    λ g a, Grp (name g) (parent g) (virtual_transformations g) (kind g)
             (Some a) (arg_a_to_v g);
  g_pass_arg_a_to_v :=
    λ g a, Grp (name g) (parent g) (virtual_transformations g) (kind g)
             (arg_v_to_a g) (Some a);
|}.

Definition solver_j_failing : @SimpleInvKinSolver.t failing_collaborators :=
  @SimpleInvKinSolver.mk failing_collaborators [("j", "ry")] "j"
    (Robot.mk [] [] []) (Some ["j_ry"]).

Definition world_failing : @World failing_collaborators :=
  @mkWorld failing_collaborators [] [].





(** the states of leg 0 of the triped, and a solver that returns the
    vector it is started from *)
Definition swing_leg0 : dict Z :=
  [("leg0_swing_left", 1%Z); ("leg0_swing_right", 2%Z)].
Definition gimbal_leg0 : dict (dict Z) :=
  [("leg0_gimbal_joint", [("rx", 4%Z); ("ry", 5%Z); ("rz", 6%Z)])].
Definition gimbal_state : dict (dict Z) :=
  [("gimbal_joint", [("rx", 4%Z); ("ry", 5%Z); ("rz", 6%Z)])].
Definition echo_solver (name : string) (constraint x0 : list Z)
  : exn + list Z := inr x0.
End MoreExamples.

(** * Properties *)

(** ** Dictionaries *)

Section DictFacts.
Context {A : Type}.
Implicit Types (d : dict A) (k : string) (v : A).

Lemma dict_get_Some_elem d k v : dict_get d k = Some v → (k, v) ∈ d.
Proof.
  induction d as [|[k' v'] d IH]; simpl; [done|].
  case_decide; [intros [= <-]; subst; left | right; auto].
Qed.

Lemma dict_get_None d k : dict_get d k = None ↔ k ∉ dict_keys d.
Proof.
  unfold dict_keys. induction d as [|[k' v'] d IH]; simpl.
  - split; [intros _; apply not_elem_of_nil | done].
  - rewrite not_elem_of_cons. case_decide; subst.
    + split; [done | intros []; done].
    + rewrite IH. naive_solver.
Qed.

Lemma dict_get_is_Some d k : is_Some (dict_get d k) ↔ k ∈ dict_keys d.
Proof.
  rewrite <- not_eq_None_Some, dict_get_None.
  destruct (decide (k ∈ dict_keys d)); naive_solver.
Qed.

Lemma dict_in_true d k : dict_in k d = true ↔ k ∈ dict_keys d.
Proof. unfold dict_in. by rewrite bool_decide_eq_true. Qed.

Lemma dict_in_false d k : dict_in k d = false ↔ k ∉ dict_keys d.
Proof. unfold dict_in. by rewrite bool_decide_eq_false. Qed.

Lemma dict_get_set_eq d k v : dict_get (dict_set d k v) k = Some v.
Proof.
  induction d as [|[k' v'] d IH]; simpl.
  - by rewrite decide_True.
  - case_decide; simpl; [by rewrite decide_True | by rewrite decide_False].
Qed.

Lemma dict_get_set_ne d k k' v :
  k ≠ k' → dict_get (dict_set d k v) k' = dict_get d k'.
Proof.
  intros Hne. induction d as [|[k0 v0] d IH]; simpl.
  - by rewrite decide_False.
  - case_decide; simpl; subst.
    + by rewrite !decide_False.
    + case_decide; done.
Qed.

Lemma dict_keys_set_in d k v :
  k ∈ dict_keys d → dict_keys (dict_set d k v) = dict_keys d.
Proof.
  unfold dict_keys. induction d as [|[k0 v0] d IH]; simpl.
  - by intros ?%elem_of_nil.
  - intros Hin. case_decide; subst; simpl; [done|].
    f_equal. apply IH. by apply elem_of_cons in Hin as [?|?].
Qed.

Lemma dict_keys_set_new d k v :
  k ∉ dict_keys d → dict_keys (dict_set d k v) = dict_keys d ++ [k].
Proof.
  unfold dict_keys. induction d as [|[k0 v0] d IH]; simpl; [done|].
  rewrite not_elem_of_cons. intros [Hne Hni].
  rewrite decide_False by done. simpl. f_equal. by apply IH.
Qed.

Lemma dict_set_new d k v : k ∉ dict_keys d → dict_set d k v = d ++ [(k, v)].
Proof.
  unfold dict_keys. induction d as [|[k0 v0] d IH]; simpl; [done|].
  rewrite not_elem_of_cons. intros [Hne Hni].
  rewrite decide_False by done. f_equal. by apply IH.
Qed.

Lemma dict_keys_set_elem d k k' v :
  k' ∈ dict_keys (dict_set d k v) ↔ k' = k ∨ k' ∈ dict_keys d.
Proof.
  destruct (decide (k ∈ dict_keys d)) as [Hin|Hni].
  - rewrite dict_keys_set_in by done. naive_solver.
  - rewrite dict_keys_set_new by done. rewrite elem_of_app, list_elem_of_singleton.
    naive_solver.
Qed.
End DictFacts.

(** ** The monad *)

Section MonadFacts.
Context `{C : Collaborators}.

Lemma bind_run {A B} (m : Py A) (f : A → Py B) w :
  (m ≫= f) w =
  match m w with
  | (Return a, w') => f a w'
  | (Raise e, w') => (Raise e, w')
  | (Running, w') => (Running, w')
  end.
Proof. reflexivity. Qed.

Lemma bind_Return {A B} (m : Py A) (f : A → Py B) w a w' :
  m w = (Return a, w') → (m ≫= f) w = f a w'.
Proof. intros H. by rewrite bind_run, H. Qed.

Lemma bind_Raise {A B} (m : Py A) (f : A → Py B) w e w' :
  m w = (Raise e, w') → (m ≫= f) w = (Raise e, w').
Proof. intros H. by rewrite bind_run, H. Qed.

Lemma bind_Running {A B} (m : Py A) (f : A → Py B) w w' :
  m w = (Running, w') → (m ≫= f) w = (Running, w').
Proof. intros H. by rewrite bind_run, H. Qed.

Lemma getitem_Some {A} (d : dict A) k v w :
  dict_get d k = Some v → getitem d k w = (Return v, w).
Proof. unfold getitem. by intros ->. Qed.

Lemma getitem_None {A} (d : dict A) k w :
  dict_get d k = None → getitem d k w = (Raise (KeyError k), w).
Proof. unfold getitem. by intros ->. Qed.

Lemma deref_Some l g w : heap w !! l = Some g → deref l w = (Return g, w).
Proof. unfold deref. by intros ->. Qed.

Lemma for_each_app {A S} (l1 l2 : list A) (s : S) body w :
  for_each (l1 ++ l2) s body w =
  (s' ← for_each l1 s body; for_each l2 s' body) w.
Proof.
  revert s w. induction l1 as [|x l1 IH]; intros s w; simpl; [done|].
  rewrite !bind_run. destruct (body s x w) as [[s'| |] w']; [|done..].
  by rewrite IH.
Qed.

(** *** Computations that only read *)

Lemma readonly_ret {A} (a : A) : readonly (mret a).
Proof. done. Qed.

Lemma readonly_raise {A} e : readonly (@raise _ A e).
Proof. done. Qed.

Lemma readonly_running {A} : readonly (@running _ A).
Proof. done. Qed.

Lemma readonly_getitem {A} (d : dict A) k : readonly (getitem d k).
Proof. intros w. unfold getitem. by destruct (dict_get d k). Qed.

Lemma readonly_deref l : readonly (deref l).
Proof. intros w. unfold deref. by destruct (heap w !! l). Qed.

Lemma readonly_bind {A B} (m : Py A) (f : A → Py B) :
  readonly m → (∀ a, readonly (f a)) → readonly (m ≫= f).
Proof.
  intros Hm Hf w. rewrite bind_run. specialize (Hm w).
  destruct (m w) as [[a| |] w']; simpl in *; subst; [apply Hf|done..].
Qed.

Lemma readonly_for_each {A S} (l : list A) (s : S) body :
  (∀ s x, readonly (body s x)) → readonly (for_each l s body).
Proof.
  intros Hb. revert s. induction l as [|x l IH]; intros s; simpl.
  - apply readonly_ret.
  - apply readonly_bind; [apply Hb | intros; apply IH].
Qed.

Lemma readonly_if {A} (b : bool) (m1 m2 : Py A) :
  readonly m1 → readonly m2 → readonly (if b then m1 else m2).
Proof. by destruct b. Qed.
End MonadFacts.

Create HintDb readonly discriminated.

Ltac readonly_step :=
  first
    [ solve [auto 1 with readonly nocore]
    | apply readonly_ret | apply readonly_raise | apply readonly_running
    | apply readonly_getitem | apply readonly_deref
    | apply readonly_for_each; intros ? ?; cbv beta
    | apply readonly_bind; [|intros ?; cbv beta]
    | apply readonly_if
    | match goal with
      | |- readonly (match ?x with _ => _ end) => destruct x
      | |- readonly (let '(_, _) := ?x in _) => destruct x
      end ].

Ltac solve_readonly := repeat readonly_step.

(** ** Reading a robot *)

Section ReadFacts.
Context `{C : Collaborators}.

Lemma parent_walk_readonly budget group_dict p k acc :
  readonly (Robot.parent_walk budget group_dict p k acc).
Proof.
  revert p k acc. induction budget as [|b IH]; intros p k acc; simpl;
    case_decide; solve_readonly.
Qed.
#[local] Hint Resolve parent_walk_readonly : readonly.

Lemma ancestor_chain_readonly budget robot endeffector what :
  readonly (Robot.ancestor_chain budget robot endeffector what).
Proof.
  unfold Robot.ancestor_chain. solve_readonly.
Qed.
#[local] Hint Resolve ancestor_chain_readonly : readonly.

Lemma forward_kinematics_readonly budget robot endeffector :
  readonly (forward_kinematics budget robot endeffector).
Proof.
  unfold forward_kinematics. solve_readonly.
Qed.


Lemma get_actuated_state_readonly robot :
  readonly (Robot.get_actuated_state robot).
Proof. unfold Robot.get_actuated_state. solve_readonly. Qed.

Lemma get_virtual_state_readonly robot :
  readonly (Robot.get_virtual_state robot).
Proof. unfold Robot.get_virtual_state. solve_readonly. Qed.

Lemma group_by_owner_readonly robot (state : dict V) :
  readonly (Robot.group_by_owner robot state).
Proof. unfold Robot.group_by_owner, Robot.group_step. solve_readonly. Qed.
End ReadFacts.

(** ** Setting the actuated state: the grouping phase *)

Section GroupingFacts.
Context `{C : Collaborators}.
Implicit Types (robot : Robot.t) (state : dict V).

Lemma group_add_get {A} (grouping : dict (dict A)) owner :
  is_Some (dict_get (if dict_in owner grouping then grouping
                     else dict_set grouping owner []) owner).
Proof.
  destruct (dict_in owner grouping) eqn:E.
  - by apply dict_get_is_Some, dict_in_true.
  - rewrite dict_get_set_eq. by eexists.
Qed.

Lemma group_step_known robot state grouping k owner v w :
  dict_get (Robot._actuator_group_mapping robot) k = Some owner →
  dict_get state k = Some v →
  Robot.group_step robot state grouping k w =
  (Return (group_add grouping owner k v), w).
Proof.
  intros Ho Hv. unfold Robot.group_step, group_add.
  rewrite bind_run, (getitem_Some _ _ _ _ Ho). cbv zeta.
  rewrite bind_run, (getitem_Some _ _ _ _ Ho).
  destruct (group_add_get grouping owner) as [inner Hi].
  rewrite bind_run, (getitem_Some _ _ _ _ Hi).
  rewrite bind_run, (getitem_Some _ _ _ _ Hv).
  by rewrite Hi.
Qed.

Lemma group_step_unknown robot state grouping k w :
  dict_get (Robot._actuator_group_mapping robot) k = None →
  Robot.group_step robot state grouping k w = (Raise (KeyError k), w).
Proof.
  intros Ho. unfold Robot.group_step.
  by rewrite bind_run, (getitem_None _ _ _ Ho).
Qed.

Lemma group_loop_unknown robot state ks grouping w :
  ks ⊆ dict_keys state →
  (∃ k, k ∈ ks ∧ dict_get (Robot._actuator_group_mapping robot) k = None) →
  ∃ k', k' ∈ ks ∧
        dict_get (Robot._actuator_group_mapping robot) k' = None ∧
        for_each ks grouping (Robot.group_step robot state) w =
        (Raise (KeyError k'), w).
Proof.
  revert grouping. induction ks as [|k ks IH]; intros grouping Hsub Hex.
  - destruct Hex as (k & Hk%elem_of_nil & _). done.
  - destruct (dict_get (Robot._actuator_group_mapping robot) k) as [owner|] eqn:Ho.
    + assert (is_Some (dict_get state k)) as [v Hv].
      { apply dict_get_is_Some, Hsub. by left. }
      destruct (IH (group_add grouping owner k v)) as (k' & Hin & Hnone & Hrun).
      { intros x Hx. apply Hsub. by right. }
      { destruct Hex as (k0 & [->|Hin]%elem_of_cons & Hnone); [congruence|eauto]. }
      exists k'. split; [by right|]. split; [done|].
      simpl. by rewrite bind_run, (group_step_known _ _ _ _ _ _ _ Ho Hv).
    + exists k. split; [by left|]. split; [done|].
      simpl. by rewrite bind_run, group_step_unknown.
Qed.
End GroupingFacts.

(** C10. Robot.set_actuated_state is atomic with respect to unknown keys: if
    some key of the argument is not a registered actuator name, a KeyError
    for such a key is raised in the grouping phase, and the world is left
    exactly as it was: no setter of any group has been called and no group
    object has changed. *)
Theorem set_actuated_state_unknown_key `{C : Collaborators}
    (robot : Robot.t) (state : dict V) (w : World) (k : string) :
  k ∈ dict_keys state →
  dict_get (Robot._actuator_group_mapping robot) k = None →
  ∃ k', k' ∈ dict_keys state ∧
        dict_get (Robot._actuator_group_mapping robot) k' = None ∧
        Robot.set_actuated_state robot state w = (Raise (KeyError k'), w).
Proof.
  intros Hin Hnone.
  destruct (group_loop_unknown robot state (dict_keys state) [] w)
    as (k' & Hin' & Hnone' & Hrun); [done|eauto|].
  exists k'. split; [done|]. split; [done|].
  unfold Robot.set_actuated_state, Robot.group_by_owner.
  by rewrite bind_run, Hrun.
Qed.

(** C9. forward_kinematics performs no mutation: whatever its outcome, the
    world after the call is the world before it, so the robot's actuated
    and virtual state read the same before and after; a second call, or a
    call after an interleaved read of the actuated state, gives what the
    first call gave. *)
Theorem forward_kinematics_pure `{C : Collaborators}
    (budget : nat) (robot : Robot.t) (endeffector : string) (w : World) :
  let fk := forward_kinematics budget robot endeffector in
  (fk w).2 = w
  ∧ Robot.get_actuated_state robot (fk w).2 = Robot.get_actuated_state robot w
  ∧ Robot.get_virtual_state robot (fk w).2 = Robot.get_virtual_state robot w
  ∧ fk (fk w).2 = fk w
  ∧ fk (Robot.get_actuated_state robot w).2 = fk w.
Proof.
  intros fk.
  assert ((fk w).2 = w) as Hfk by apply forward_kinematics_readonly.
  rewrite Hfk, (get_actuated_state_readonly robot w). done.
Qed.

(** ** Ancestor-chain resolution *)

Section WalkFacts.
Context `{C : Collaborators}.
Implicit Types (group_dict : dict loc) (w : World).

Lemma stays_inside_spec group_dict h names n :
  stays_inside group_dict h names n = true →
  ∃ l g, dict_get group_dict n = Some l ∧ h !! l = Some g ∧
         g_parent g ≠ n ∧ g_parent g ∈ names.
Proof.
  unfold stays_inside.
  destruct (dict_get group_dict n) as [l|]; [|done].
  destruct (h !! l) as [g|] eqn:Hg; [|done].
  rewrite andb_true_iff, !bool_decide_eq_true. intros [??]. by exists l, g.
Qed.

Lemma rootless_spec group_dict h names n :
  rootless group_dict h names = true → n ∈ names →
  ∃ l g, dict_get group_dict n = Some l ∧ h !! l = Some g ∧
         g_parent g ≠ n ∧ g_parent g ∈ names.
Proof.
  unfold rootless. rewrite forallb_forall. intros Hall Hin.
  apply stays_inside_spec, Hall. by apply list_elem_of_In.
Qed.

(** Inside a rootless set of names the loop condition never fails. *)
Lemma parent_walk_rootless group_dict names w budget p k acc :
  rootless group_dict (heap w) names = true →
  p ∈ names → p ≠ k →
  Robot.parent_walk budget group_dict p k acc w = (Running, w).
Proof.
  intros Hroot. revert p k acc.
  induction budget as [|b IH]; intros p k acc Hin Hne; simpl;
    rewrite decide_False by done; [done|].
  destruct (rootless_spec _ _ _ _ Hroot Hin) as (l & g & Hl & Hg & Hgp & Hgin).
  rewrite bind_run, (getitem_Some _ _ _ _ Hl).
  rewrite bind_run, (deref_Some _ _ _ Hg).
  by apply IH.
Qed.

Lemma ancestor_chain_rootless (robot : Robot.t) names w budget n what :
  rootless (Robot._group_dict robot) (heap w) names = true →
  n ∈ names →
  Robot.ancestor_chain budget robot n what w = (Running, w).
Proof.
  intros Hroot Hin.
  destruct (rootless_spec _ _ _ _ Hroot Hin) as (l & g & Hl & Hg & Hgp & Hgin).
  unfold Robot.ancestor_chain, Robot.get_groups.
  assert (dict_in n (Robot._group_dict robot) = true) as ->.
  { apply dict_in_true, dict_get_is_Some. by eexists. }
  rewrite bind_run, (getitem_Some _ _ _ _ Hl).
  rewrite bind_run, (deref_Some _ _ _ Hg).
  by rewrite bind_run, (parent_walk_rootless _ names).
Qed.

(** The group registered under the last name of a path. *)
Lemma ancestry_last group_dict h n path :
  ancestry group_dict h n path →
  ∃ path' l g, path = path' ++ [(n, g)] ∧
               dict_get group_dict n = Some l ∧ h !! l = Some g.
Proof. destruct 1; [exists []|exists path]; eauto. Qed.

Lemma ancestry_registered group_dict h n path :
  ancestry group_dict h n path →
  Forall (λ e, ∃ l, dict_get group_dict e.1 = Some l ∧ h !! l = Some e.2) path.
Proof.
  induction 1 as [n l g|n l g path Hl Hg Hne Hanc IH].
  - repeat constructor. eauto.
  - apply Forall_app. split; [done|]. repeat constructor. eauto.
Qed.

(** On a chain that reaches a root the walk collects the names of the proper
    ancestors, nearest first, within as many turns as there are of them. *)
Lemma parent_walk_ancestry group_dict w n path :
  ancestry group_dict (heap w) n path →
  ∃ (path' : list (string * Group)) g, path = path' ++ [(n, g)] ∧
    ∀ (budget : nat) acc, (length path' ≤ budget)%nat →
      Robot.parent_walk budget group_dict (g_parent g) n acc w =
      (Return (acc ++ reverse path'.*1), w).
Proof.
  induction 1 as [n l g Hl Hg Hp|n l g path Hl Hg Hne Hanc IH].
  - exists [], g. split; [done|]. intros budget acc _.
    destruct budget; simpl; rewrite decide_True by done;
      by rewrite app_nil_r.
  - exists path, g. split; [done|]. intros budget acc Hlen.
    destruct IH as (path0 & g0 & -> & IH).
    destruct (ancestry_last _ _ _ _ Hanc) as (p1 & l0 & g0' & Heq & Hl0 & Hg0).
    apply app_inj_tail in Heq as [-> [= <-]].
    rewrite length_app in Hlen. simpl in Hlen.
    destruct budget as [|b]; [lia|]. simpl.
    rewrite decide_False by done.
    rewrite bind_run, (getitem_Some _ _ _ _ Hl0).
    rewrite bind_run, (deref_Some _ _ _ Hg0).
    rewrite IH by lia.
    by rewrite fmap_app, reverse_app, <-(assoc_L (++)).
Qed.

Lemma ancestor_chain_ancestry (robot : Robot.t) w n path (budget : nat)
    (what : string) :
  ancestry (Robot._group_dict robot) (heap w) n path →
  (length path ≤ S budget)%nat →
  Robot.ancestor_chain budget robot n what w = (Return path.*1, w).
Proof.
  intros Hanc Hlen.
  destruct (parent_walk_ancestry _ _ _ _ Hanc) as (path' & g & -> & Hwalk).
  destruct (ancestry_last _ _ _ _ Hanc) as (p1 & l & g' & Heq & Hl & Hg).
  apply app_inj_tail in Heq as [_ [= <-]].
  rewrite length_app in Hlen. simpl in Hlen.
  unfold Robot.ancestor_chain, Robot.get_groups.
  assert (dict_in n (Robot._group_dict robot) = true) as ->.
  { apply dict_in_true, dict_get_is_Some. by eexists. }
  rewrite bind_run, (getitem_Some _ _ _ _ Hl).
  rewrite bind_run, (deref_Some _ _ _ Hg).
  rewrite bind_run, Hwalk by lia.
  by rewrite reverse_app, reverse_involutive, fmap_app.
Qed.

(** The second loop of forward_kinematics over registered names. *)
Lemma multiply_registered (robot : Robot.t) w (path : list (string * Group)) m :
  Forall (λ e, ∃ l, dict_get (Robot._group_dict robot) e.1 = Some l ∧
                    heap w !! l = Some e.2) path →
  for_each path.*1 m
    (λ transformation group_key,
       l ← getitem (Robot.get_groups robot) group_key;
       group ← deref l;
       mret (matmul transformation (g_get_transformation_matrix group))) w =
  (Return (foldl (λ m g, matmul m (g_get_transformation_matrix g)) m path.*2),
   w).
Proof.
  intros Hall. revert m.
  induction Hall as [|[n g] path (l & Hl & Hg) _ IH]; intros m; simpl; [done|].
  rewrite bind_run. unfold Robot.get_groups.
  rewrite bind_run, (getitem_Some _ _ _ _ Hl).
  rewrite bind_run, (deref_Some _ _ _ Hg). apply IH.
Qed.
End WalkFacts.

(** C1 (as amended). Ancestor-chain resolution has no depth guard.  When the
    parent links followed from the target stay among registered groups and
    never reach a root, the resolution done by forward_kinematics and by
    Robot.get_symbolic_rep does not come to an end: with any number of loop
    turns allowed the walk is still running, no error has been raised, and
    the world is as it was. *)
Theorem ancestor_resolution_unguarded `{C : Collaborators}
    (robot : Robot.t) (names : list string) (target : string) (w : World) :
  rootless (Robot._group_dict robot) (heap w) names = true →
  target ∈ names →
  ∀ budget,
    forward_kinematics budget robot target w = (Running, w)
    ∧ Robot.get_symbolic_rep budget robot target w = (Running, w).
Proof.
  intros Hroot Hin budget.
  unfold forward_kinematics, Robot.get_symbolic_rep.
  by rewrite !bind_run, !(ancestor_chain_rootless _ names).
Qed.

(** C3. When the ancestor chain of the target resolves to G1 (root), ...,
    Gn (target), forward_kinematics returns identity · M(G1) · ... · M(Gn),
    the groups' transformation matrices multiplied in base-to-target order,
    as soon as the walk is allowed n - 1 turns; the world is unchanged. *)
Theorem forward_kinematics_chain_product `{C : Collaborators}
    (robot : Robot.t) (target : string) (path : list (string * Group))
    (w : World) (budget : nat) :
  ancestry (Robot._group_dict robot) (heap w) target path →
  (length path ≤ S budget)%nat →
  forward_kinematics budget robot target w =
  (Return (chain_product path.*2), w).
Proof.
  intros Hanc Hlen. unfold forward_kinematics, chain_product.
  rewrite bind_run, (ancestor_chain_ancestry _ _ _ path) by done.
  apply multiply_registered. by eapply ancestry_registered.
Qed.

(** ** Construction of a robot *)

Section InitFacts.
Context `{C : Collaborators}.
Implicit Types (self : Robot.t) (w : World) (g : Group).

Lemma emit_run ev w :
  emit ev w = (Return tt, mkWorld (heap w) (trace w ++ [ev])).
Proof. done. Qed.

Lemma alloc_run g w :
  alloc g w = (Return (length (heap w)), mkWorld (heap w ++ [g]) (trace w)).
Proof. done. Qed.

Lemma ret_run {A} (a : A) w : (mret a : Py A) w = (Return a, w).
Proof. done. Qed.

Lemma claim_keys_cases keys mapping owner msg w :
  Robot.claim_keys keys mapping owner msg w = (Raise (KeyError msg), w)
  ∨ ∃ m', Robot.claim_keys keys mapping owner msg w = (Return m', w)
          ∧ (∀ k, k ∈ dict_keys mapping ∨ k ∈ keys → k ∈ dict_keys m')
          ∧ (∀ k, k ∈ keys → k ∉ dict_keys mapping).
Proof.
  unfold Robot.claim_keys. revert mapping.
  induction keys as [|k keys IH]; intros mapping; simpl.
  - right. exists mapping. split; [done|]. split.
    + by intros k [?|?%elem_of_nil].
    + by intros k ?%elem_of_nil.
  - rewrite bind_run. destruct (dict_in k mapping) eqn:E; [by left|].
    apply dict_in_false in E. rewrite ret_run.
    destruct (IH (dict_set mapping k owner)) as [Hr|(m' & Hr & Hin & Hni)];
      [by left|].
    right. exists m'. split; [done|]. split.
    + intros k0 [Hk0|[->|Hk0]%elem_of_cons].
      * apply Hin. left. apply dict_keys_set_elem. by right.
      * apply Hin. left. apply dict_keys_set_elem. by left.
      * apply Hin. by right.
    + intros k0 [->|Hk0]%elem_of_cons; [done|].
      intros Hk. apply (Hni k0 Hk0). apply dict_keys_set_elem. by right.
Qed.

(** What the claiming of keys comes to, for the group [g] of a turn. *)
Lemma claim_state_cases self g l w :
  (∃ msg, claim_state self g l w = (Raise (KeyError msg), w)
          ∧ (msg = Robot.actuator_conflict ∨ msg = Robot.virtual_conflict))
  ∨ (∃ self', claim_state self g l w = (Return self', w)
       ∧ Robot._group_dict self' =
           dict_set (Robot._group_dict self) (g_str g) l
       ∧ dict_keys (Robot._actuator_group_mapping self) ⊆
           dict_keys (Robot._actuator_group_mapping self')
       ∧ dict_keys (Robot._virtual_group_mapping self) ⊆
           dict_keys (Robot._virtual_group_mapping self')
       ∧ (dict_nonempty (g_get_virtual_state g) = true →
            dict_keys (g_get_actuated_state g) ⊆
              dict_keys (Robot._actuator_group_mapping self')
            ∧ dict_keys (g_get_virtual_state g) ⊆
              dict_keys (Robot._virtual_group_mapping self')
            ∧ (∀ k, k ∈ dict_keys (g_get_actuated_state g) →
                 k ∉ dict_keys (Robot._actuator_group_mapping self))
            ∧ (∀ k, k ∈ dict_keys (g_get_virtual_state g) →
                 k ∉ dict_keys (Robot._virtual_group_mapping self)))).
Proof.
  unfold claim_state. destruct (dict_nonempty (g_get_virtual_state g)).
  - destruct (claim_keys_cases (dict_keys (g_get_actuated_state g))
                (Robot._actuator_group_mapping self) (g_str g)
                Robot.actuator_conflict w) as [Ha|(am & Ha & Hain & Hani)].
    { left. eexists. rewrite bind_run, Ha. eauto. }
    destruct (claim_keys_cases (dict_keys (g_get_virtual_state g))
                (Robot._virtual_group_mapping self) (g_str g)
                Robot.virtual_conflict w) as [Hv|(vm & Hv & Hvin & Hvni)].
    { left. eexists. rewrite bind_run, Ha, bind_run, Hv. eauto. }
    right. eexists. rewrite bind_run, Ha, bind_run, Hv, ret_run.
    split; [done|]. simpl. split; [done|].
    split; [intros k ?; apply Hain; by left|].
    split; [intros k ?; apply Hvin; by left|].
    intros _. split; [intros k ?; apply Hain; by right|].
    split; [intros k ?; apply Hvin; by right|]. done.
  - right. eexists. rewrite ret_run. split; [done|]. simpl. done.
Qed.

Lemma elaborate_length h prev chain gs :
  elaborate h prev chain = Some gs → length gs = length chain.
Proof.
  revert prev gs. induction chain as [|[t|l] chain IH]; intros prev gs; simpl.
  - by intros [= <-].
  - destruct (elaborate h _ chain) as [gs'|] eqn:E; simpl; [|done].
    intros [= <-]. simpl. f_equal. by eapply IH.
  - destruct (h !! l) as [g|]; simpl; [|done].
    destruct (elaborate h _ chain) as [gs'|] eqn:E; simpl; [|done].
    intros [= <-]. simpl. f_equal. by eapply IH.
Qed.

Lemma elaborate_lookup h prev chain gs i e :
  elaborate h prev chain = Some gs → chain !! i = Some e →
  ∃ g, gs !! i = Some g ∧
       match e with
       | inr l => h !! l = Some g
       | inl t => g = OpenKinematicGroup (t_str t) [t] (prev_group prev gs i)
       end.
Proof.
  revert prev gs i.
  induction chain as [|e0 chain IH]; intros prev gs i; [done|].
  assert (∀ g0 gs', elaborate h (Some g0) chain = Some gs' →
            (e0 :: chain) !! i = Some e →
            match e0 with
            | inr l => h !! l = Some g0
            | inl t => g0 = OpenKinematicGroup (t_str t) [t] prev
            end →
            ∃ g, (g0 :: gs') !! i = Some g ∧
              match e with
              | inr l => h !! l = Some g
              | inl t =>
                  g = OpenKinematicGroup (t_str t) [t]
                        (prev_group prev (g0 :: gs') i)
              end) as Hcons.
  { intros g0 gs' E Hi H0. destruct i as [|i]; simpl in *.
    - injection Hi as <-. exists g0. by destruct e0.
    - destruct (IH _ _ _ E Hi) as (g & Hg & Hm). exists g. split; [done|].
      destruct e; [|done]. rewrite Hm. by destruct i. }
  simpl. destruct e0 as [t0|l0].
  - destruct (elaborate h _ chain) as [gs'|] eqn:E; simpl; [|done].
    intros [= <-] Hi. by eapply Hcons.
  - destruct (h !! l0) as [g0|] eqn:E0; simpl; [|done].
    destruct (elaborate h _ chain) as [gs'|] eqn:E; simpl; [|done].
    intros [= <-] Hi. by eapply Hcons.
Qed.
End InitFacts.

Section InitLoop.
Context `{C : Collaborators} `{!OpenGroupLaws}.
Implicit Types (self : Robot.t) (w : World) (g : Group).

(** [str] of the element at position [j] is the name of its group. *)
Lemma str_element_group chain gs w0 w j e g :
  elaborate (heap w0) None chain = Some gs →
  heap w0 `prefix_of` heap w →
  chain !! j = Some e → gs !! j = Some g →
  Robot.str_element e w = (Return (g_str g), w).
Proof.
  intros Hel Hpre Hj Hg.
  destruct (elaborate_lookup _ _ _ _ _ _ Hel Hj) as (g' & Hg' & Hm).
  assert (g' = g) as -> by congruence.
  destruct e as [t|l]; simpl.
  - by rewrite Hm, open_str.
  - rewrite bind_run, (deref_Some l g); [done|].
    by eapply prefix_lookup_Some.
Qed.

(** One turn of the loop: the element is resolved to its group, which is
    registered, and then the keys are claimed. *)
Lemma init_step_spec chain gs w0 self w i e g :
  elaborate (heap w0) None chain = Some gs →
  init_inv gs w0 i self w →
  chain !! i = Some e → gs !! i = Some g →
  ∃ l w1,
    heap w `prefix_of` heap w1 ∧ heap w1 !! l = Some g
    ∧ match e with
      | inr l' => l = l' ∧ w1 = w
      | inl t =>
          l = length (heap w) ∧
          ∃ prev_name,
            w1 = mkWorld (heap w ++ [g])
                   (trace w ++ [Printed (Robot.warning (t_str t) prev_name)])
      end
    ∧ Robot.init_step chain self i w = claim_state self g l w1.
Proof.
  intros Hel (Hpre & Hkeys & Hreg) Hi Hg.
  destruct (elaborate_lookup _ _ _ _ _ _ Hel Hi) as (g' & Hg' & Hm).
  assert (g' = g) as -> by congruence. clear Hg'.
  assert (length gs = length chain) as Hlen by (by eapply elaborate_length).
  pose proof (lookup_lt_Some _ _ _ Hi) as Hilen.
  destruct e as [t|l].
  - assert (∃ prev_name,
              Robot.wrap_transformation chain self i t w =
              (Return (length (heap w)),
               mkWorld (heap w ++ [g])
                 (trace w ++ [Printed (Robot.warning (t_str t) prev_name)])))
      as [pn Hwrap].
    { unfold Robot.wrap_transformation.
      destruct i as [|j];
        [change (Robot.previous_element chain 0) with (last chain)
        |change (Robot.previous_element chain (S j)) with (chain !! j)].
      - destruct (lookup_lt_is_Some_2 chain (pred (length chain)))
          as [pe Hk]; [lia|].
        destruct (lookup_lt_is_Some_2 gs (pred (length chain)))
          as [pg Hpg]; [lia|].
        exists (g_str pg). rewrite last_lookup, Hk.
        rewrite bind_run, (str_element_group _ _ _ w _ _ _ Hel Hpre Hk Hpg).
        rewrite bind_run, emit_run. rewrite decide_False by lia.
        rewrite alloc_run. simpl in Hm. by rewrite Hm.
      - destruct (lookup_lt_is_Some_2 chain j) as [pe Hk]; [lia|].
        destruct (lookup_lt_is_Some_2 gs j) as [pg Hpg]; [lia|].
        exists (g_str pg). rewrite Hk.
        rewrite bind_run, (str_element_group _ _ _ w _ _ _ Hel Hpre Hk Hpg).
        rewrite bind_run, emit_run. rewrite decide_True by lia.
        destruct (Hreg j pg eq_refl Hpg) as (lp & Hlp & Hhp).
        rewrite bind_run, (getitem_Some _ _ _ _ Hlp).
        rewrite bind_run, (deref_Some lp pg) by done.
        rewrite alloc_run. simpl in Hm. rewrite Hpg in Hm. by rewrite Hm. }
    eexists _, _. split; [|split; [|split; [split; [done|by exists pn]|]]].
    + simpl. by apply prefix_app_r.
    + simpl. by rewrite lookup_app_r, Nat.sub_diag.
    + unfold Robot.init_step. rewrite Hi, bind_run, Hwrap.
      rewrite bind_run, (deref_Some _ g); [done|].
      simpl. by rewrite lookup_app_r, Nat.sub_diag.
  - exists l, w. split; [done|]. split; [by eapply prefix_lookup_Some|].
    split; [done|].
    unfold Robot.init_step.
    rewrite Hi, bind_run, ret_run, bind_run, (deref_Some l g); [done|].
    by eapply prefix_lookup_Some.
Qed.

(** The invariant after a turn that returned. *)
Lemma init_inv_step gs w0 self self' w w1 i g l :
  init_inv gs w0 i self w → gs !! i = Some g →
  heap w `prefix_of` heap w1 → heap w1 !! l = Some g →
  Robot._group_dict self' = dict_set (Robot._group_dict self) (g_str g) l →
  dict_keys (Robot._actuator_group_mapping self) ⊆
    dict_keys (Robot._actuator_group_mapping self') →
  dict_keys (Robot._virtual_group_mapping self) ⊆
    dict_keys (Robot._virtual_group_mapping self') →
  (dict_nonempty (g_get_virtual_state g) = true →
     dict_keys (g_get_actuated_state g) ⊆
       dict_keys (Robot._actuator_group_mapping self')
     ∧ dict_keys (g_get_virtual_state g) ⊆
       dict_keys (Robot._virtual_group_mapping self')) →
  init_inv gs w0 (S i) self' w1.
Proof.
  intros (Hpre & Hkeys & Hreg) Hg Hpre1 Hl Hgd Ham Hvm Hnew.
  split; [by etrans|]. split.
  - intros k g' Hk Hg' Hne.
    destruct (decide (k = i)) as [->|Hki].
    + assert (g' = g) as -> by congruence. by apply Hnew.
    + destruct (Hkeys k g') as [Ha Hv]; [lia|done|done|].
      split; by etrans.
  - intros j g' [= <-] Hg'. assert (g' = g) as -> by congruence.
    exists l. by rewrite Hgd, dict_get_set_eq.
Qed.

(** The loop of [Robot.__init__] from turn [i] on, for [n] turns: it stops
    with one of the two naming conflicts, or returns with the invariant. *)
Lemma init_loop_spec chain gs w0 n i self w :
  elaborate (heap w0) None chain = Some gs →
  init_inv gs w0 i self w →
  i + n ≤ length chain →
  (∃ msg w',
     for_each (seq i n) self (Robot.init_step chain) w =
     (Raise (KeyError msg), w')
     ∧ (msg = Robot.actuator_conflict ∨ msg = Robot.virtual_conflict)
     ∧ heap w0 `prefix_of` heap w')
  ∨ (∃ self' w',
       for_each (seq i n) self (Robot.init_step chain) w = (Return self', w')
       ∧ init_inv gs w0 (i + n) self' w').
Proof.
  intros Hel. revert i self w.
  induction n as [|n IH]; intros i self w Hinv Hlen.
  - right. exists self, w. by rewrite Nat.add_0_r.
  - assert (length gs = length chain) as Hgl by (by eapply elaborate_length).
    destruct (lookup_lt_is_Some_2 chain i) as [e Hi]; [lia|].
    destruct (lookup_lt_is_Some_2 gs i) as [g Hg]; [lia|].
    destruct (init_step_spec _ _ _ _ _ _ _ _ Hel Hinv Hi Hg)
      as (l & w1 & Hpre1 & Hl & _ & Hstep).
    simpl. rewrite bind_run, Hstep.
    destruct (claim_state_cases self g l w1)
      as [(msg & -> & Hmsg)|(self' & -> & Hgd & Ham & Hvm & Hnew)].
    + left. exists msg, w1. split; [done|]. split; [done|].
      destruct Hinv as (Hpre & _). by etrans.
    + destruct (IH (S i) self' w1) as [Hraise|Hret]; [|lia|by left|].
      { eapply init_inv_step; try done. intros Hne. by destruct (Hnew Hne) as (?&?&_). }
      right. by rewrite <- Nat.add_succ_comm.
Qed.

Lemma init_inv_start gs w0 : init_inv gs w0 0 (Robot.mk [] [] []) w0.
Proof. split; [done|]. split; [intros; lia|]. intros; lia. Qed.
End InitLoop.

(** X19.  Robot.__init__ checks the keys of a group only when
    the group's virtual state is not empty.  When two groups of the list,
    both with a non-empty virtual state, declare an actuated-state key of
    the same name, or a virtual-state key of the same name, construction
    stops with one of the two naming-conflict KeyErrors; and the group
    objects that existed before are as they were, construction having at
    most added new ones. *)
Theorem init_naming_conflict `{C : Collaborators} `{!OpenGroupLaws}
    (kinematic_chain : list element) (w : World) (gs : list Group)
    (i j : nat) (gi gj : Group) (k : string) :
  elaborate (heap w) None kinematic_chain = Some gs →
  i < j → gs !! i = Some gi → gs !! j = Some gj →
  dict_nonempty (g_get_virtual_state gi) = true →
  dict_nonempty (g_get_virtual_state gj) = true →
  (k ∈ dict_keys (g_get_actuated_state gi)
   ∧ k ∈ dict_keys (g_get_actuated_state gj))
  ∨ (k ∈ dict_keys (g_get_virtual_state gi)
     ∧ k ∈ dict_keys (g_get_virtual_state gj)) →
  ∃ msg w',
    Robot.__init__ kinematic_chain w = (Raise (KeyError msg), w')
    ∧ (msg = Robot.actuator_conflict ∨ msg = Robot.virtual_conflict)
    ∧ heap w `prefix_of` heap w'.
Proof.
  intros Hel Hij Hgi Hgj Hnei Hnej Hshare.
  assert (length gs = length kinematic_chain) as Hgl
    by (by eapply elaborate_length).
  pose proof (lookup_lt_Some _ _ _ Hgj) as Hjlen.
  unfold Robot.__init__.
  replace (length kinematic_chain)
    with (j + S (length kinematic_chain - S j)) by lia.
  rewrite seq_app, for_each_app, bind_run.
  destruct (init_loop_spec kinematic_chain gs w j 0 (Robot.mk [] [] []) w)
    as [(msg & w' & -> & Hmsg & Hpre)|(self & w1 & -> & Hinv)];
    [done|apply init_inv_start|lia|by eauto|].
  change (0 + j) with j in *.
  destruct (lookup_lt_is_Some_2 kinematic_chain j) as [e Hj]; [lia|].
  destruct (init_step_spec _ _ _ _ _ _ _ _ Hel Hinv Hj Hgj)
    as (l & w2 & Hpre2 & Hl & _ & Hstep).
  simpl. rewrite bind_run, Hstep.
  destruct (claim_state_cases self gj l w2)
    as [(msg & -> & Hmsg)|(self' & _ & _ & _ & _ & Hnew)].
  - exists msg, w2. split; [done|]. split; [done|].
    destruct Hinv as (Hpre & _). by etrans.
  - exfalso. destruct (Hnew Hnej) as (_ & _ & Hafresh & Hvfresh).
    destruct Hinv as (_ & Hkeys & _).
    destruct (Hkeys i gi Hij Hgi Hnei) as [Ha Hv].
    destruct Hshare as [[Hki Hkj]|[Hki Hkj]].
    + by apply (Hafresh k Hkj), Ha.
    + by apply (Hvfresh k Hkj), Hv.
Qed.


(** ** The calls made by the two setters *)

Section CallFacts.
Context `{C : Collaborators}.
Implicit Types (robot : Robot.t) (w : World).

Lemma dict_get_elem {A} (d : dict A) k v :
  NoDup (dict_keys d) → (k, v) ∈ d → dict_get d k = Some v.
Proof.
  unfold dict_keys. induction d as [|[k0 v0] d IH]; simpl.
  - by intros _ ?%elem_of_nil.
  - rewrite NoDup_cons. intros [Hni Hnd] [[= -> ->]|Hin]%elem_of_cons.
    + by rewrite decide_True.
    + rewrite decide_False; [by apply IH|].
      intros ->. apply Hni. apply list_elem_of_fmap. by exists (k, v).
Qed.

Lemma call_method_trace l ev (m : Group → exn + Group) w w' :
  Robot.call_method l ev m w = (Return tt, w') → trace w' = trace w ++ [ev].
Proof.
  unfold Robot.call_method. rewrite bind_run. unfold deref.
  destruct (heap w !! l) as [g|]; [|done].
  rewrite bind_run, emit_run, bind_run.
  destruct (m g) as [e|g']; simpl; [done|]. by intros [= <-].
Qed.

(** A loop whose every turn records one event records them in turn. *)
Lemma for_each_trace {A} (items : list A) (body : A → Py unit)
    (R : A → event → Prop) w w' :
  (∀ x w1 w2, x ∈ items → body x w1 = (Return tt, w2) →
     ∃ ev, R x ev ∧ trace w2 = trace w1 ++ [ev]) →
  for_each items tt (λ _, body) w = (Return tt, w') →
  ∃ evs, Forall2 R items evs ∧ trace w' = trace w ++ evs.
Proof.
  revert w. induction items as [|x items IH]; intros w Hbody; simpl.
  - intros [= <-]. exists []. split; [constructor|by rewrite app_nil_r].
  - rewrite bind_run. destruct (body x w) as [[[]| |] w1] eqn:Hx; [|done..].
    intros Hrest.
    destruct (Hbody x w w1) as (ev & HR & Ht); [by left|done|].
    destruct (IH w1) as (evs & Hall & Hts); [|done|].
    { intros y wa wb Hy. apply Hbody. by right. }
    exists (ev :: evs). split; [by constructor|].
    by rewrite Hts, Ht, <- (assoc_L (++)).
Qed.

Lemma grouping_of_nil {A} (mapping : dict string) :
  grouping_of mapping ([] : dict A) [].
Proof.
  split; [constructor|]. split; [|done].
  intros o. split; [by intros ?%elem_of_nil|].
  by intros (k & ?%elem_of_nil & _).
Qed.

Lemma owned_by_keys {A} (mapping : dict string) o (done : dict A) k :
  k ∈ dict_keys (owned_by mapping o done) → k ∈ dict_keys done.
Proof.
  unfold dict_keys, owned_by. rewrite !list_elem_of_fmap.
  intros (kv & -> & Hin%list_elem_of_filter). exists kv. naive_solver.
Qed.

Lemma owned_by_none {A} (mapping : dict string) o (done : dict A) :
  (∀ k, k ∈ dict_keys done → dict_get mapping k ≠ Some o) →
  owned_by mapping o done = [].
Proof.
  intros Hno. unfold owned_by. induction done as [|[k v] done IH]; [done|].
  rewrite filter_cons_False.
  - apply IH. intros k' Hk'. apply Hno. unfold dict_keys in *.
    rewrite fmap_cons. by right.
  - simpl. apply Hno. unfold dict_keys. rewrite fmap_cons. by left.
Qed.

Lemma grouping_of_add {A} (mapping : dict string) (done : dict A)
    grouping k v o :
  grouping_of mapping done grouping →
  k ∉ dict_keys done → dict_get mapping k = Some o →
  grouping_of mapping (done ++ [(k, v)]) (group_add grouping o k v).
Proof.
  intros (Hnd & Hdom & Hpart) Hk Ho. unfold group_add.
  set (g0 := if dict_in o grouping then grouping else dict_set grouping o []).
  assert (NoDup (dict_keys g0)
          ∧ (∀ o', o' ∈ dict_keys g0 ↔ o' = o ∨ o' ∈ dict_keys grouping)
          ∧ dict_get g0 o = Some (owned_by mapping o done)
          ∧ ∀ o', o' ≠ o → dict_get g0 o' = dict_get grouping o')
    as (Hnd0 & Hdom0 & Hget0 & Hother0).
  { subst g0. destruct (dict_in o grouping) eqn:E.
    - apply dict_in_true in E. split; [done|]. split; [naive_solver|].
      split; [|done].
      apply dict_get_is_Some in E as [part Hp]. rewrite Hp. f_equal.
      by apply Hpart.
    - apply dict_in_false in E. split.
      { rewrite dict_keys_set_new by done. apply NoDup_app.
        split; [done|]. split; [|apply NoDup_singleton].
        intros x Hx ->%list_elem_of_singleton. done. }
      split; [intros o'; apply dict_keys_set_elem|].
      split; [|intros o' Hne; by apply dict_get_set_ne].
      rewrite dict_get_set_eq. f_equal. symmetry. apply owned_by_none.
      intros k' Hk' Hk'o. apply E, Hdom. eauto. }
  rewrite Hget0. simpl.
  assert (dict_set (owned_by mapping o done) k v =
          owned_by mapping o (done ++ [(k, v)])) as Hinner.
  { rewrite dict_set_new.
    - unfold owned_by. rewrite filter_app, filter_cons_True by done.
      by rewrite filter_nil.
    - intros Hin. by apply Hk, (owned_by_keys mapping o). }
  rewrite Hinner.
  assert (o ∈ dict_keys g0) as Hin0 by (apply Hdom0; by left).
  split; [by rewrite dict_keys_set_in|]. split.
  - intros o'. rewrite dict_keys_set_in, Hdom0, Hdom by done.
    unfold dict_keys at 2. rewrite fmap_app. simpl. split.
    + intros [->|(k' & Hk' & Ho')].
      * exists k. split; [|done]. apply elem_of_app. right. by left.
      * exists k'. split; [|done]. apply elem_of_app. by left.
    + intros (k' & [Hk'|Hk']%elem_of_app & Ho').
      * right. eauto.
      * apply list_elem_of_singleton in Hk' as ->. left. congruence.
  - intros o' part. destruct (decide (o' = o)) as [->|Hne].
    + rewrite dict_get_set_eq. by intros [= <-].
    + rewrite dict_get_set_ne, Hother0 by done. intros Hp.
      rewrite (Hpart _ _ Hp). unfold owned_by.
      rewrite filter_app, filter_cons_False, filter_nil, app_nil_r; [done|].
      simpl. congruence.
Qed.

Lemma group_loop_spec robot (state done rest : dict V) grouping w grouping' w' :
  state = done ++ rest → NoDup (dict_keys state) →
  grouping_of (Robot._actuator_group_mapping robot) done grouping →
  for_each (dict_keys rest) grouping (Robot.group_step robot state) w =
    (Return grouping', w') →
  grouping_of (Robot._actuator_group_mapping robot) state grouping'.
Proof.
  revert done grouping.
  induction rest as [|[k v] rest IH]; intros done grouping Hst Hnd Hg; simpl.
  - intros [= <- _]. by rewrite Hst, app_nil_r.
  - assert (dict_get state k = Some v) as Hv.
    { apply dict_get_elem; [done|]. rewrite Hst. apply elem_of_app. right.
      by left. }
    assert (k ∉ dict_keys done) as Hk.
    { intros Hin. rewrite Hst in Hnd. unfold dict_keys in *.
      rewrite fmap_app in Hnd. apply NoDup_app in Hnd as (_ & Hdisj & _).
      apply (Hdisj k Hin). simpl. by left. }
    rewrite bind_run.
    destruct (dict_get (Robot._actuator_group_mapping robot) k) as [o|] eqn:Ho.
    + rewrite (group_step_known _ _ _ _ _ _ _ Ho Hv). intros Hrest.
      eapply (IH (done ++ [(k, v)])); [|done| |exact Hrest].
      * by rewrite <- (assoc_L (++)).
      * by apply grouping_of_add.
    + by rewrite group_step_unknown.
Qed.

Lemma actuated_call_trace robot (state : dict V) grouping key w w' :
  grouping_of (Robot._actuator_group_mapping robot) state grouping →
  Robot.actuated_call robot grouping key w = (Return tt, w') →
  ∃ ev, (∃ l, dict_get (Robot._group_dict robot) key = Some l
              ∧ ev = Called_set_actuated_state l
                       (owned_by (Robot._actuator_group_mapping robot) key
                          state))
        ∧ trace w' = trace w ++ [ev].
Proof.
  intros (_ & _ & Hpart). unfold Robot.actuated_call.
  rewrite bind_run. unfold getitem at 1.
  destruct (dict_get (Robot._group_dict robot) key) as [l|] eqn:Hl; [|done].
  simpl. rewrite bind_run. unfold getitem at 1.
  destruct (dict_get grouping key) as [part|] eqn:Hp; [|done].
  simpl. intros Hcall%call_method_trace.
  eexists. split; [|done]. exists l. split; [done|].
  by rewrite (Hpart _ _ Hp).
Qed.

Lemma virtual_step_trace robot (state : dict (dict V)) key w w' :
  Robot.virtual_step robot state key w = (Return tt, w') →
  ∃ ev, (∃ v o l, dict_get state key = Some v
                  ∧ dict_get (Robot._virtual_group_mapping robot) key = Some o
                  ∧ dict_get (Robot._group_dict robot) o = Some l
                  ∧ ev = Called_set_virtual_state l [(key, v)])
        ∧ trace w' = trace w ++ [ev].
Proof.
  unfold Robot.virtual_step.
  rewrite bind_run. unfold getitem at 1.
  destruct (dict_get state key) as [v|] eqn:Hv; [|done].
  simpl. rewrite bind_run. unfold getitem at 1.
  destruct (dict_get (Robot._virtual_group_mapping robot) key)
    as [o|] eqn:Ho; [|done].
  simpl. rewrite bind_run. unfold getitem at 1.
  destruct (dict_get (Robot._group_dict robot) o) as [l|] eqn:Hl; [|done].
  simpl. intros Hcall%call_method_trace.
  eexists. split; [|done]. by exists v, o, l.
Qed.
End CallFacts.

(** C6 (as amended).  Robot.set_actuated_state routes the keys through the
    actuator map and batches them per owning group: when the call returns,
    it has invoked the setter of every group that owns a key of the state
    exactly once, with exactly the keys that group owns.
    Robot.set_virtual_state does not batch: when it returns, it has invoked
    the setter of the owning group once for every key of the state, with
    that key alone. *)
Theorem setters_calls `{C : Collaborators} (robot : Robot.t) :
  (∀ (state : dict V) (w w' : World),
     NoDup (dict_keys state) →
     Robot.set_actuated_state robot state w = (Return tt, w') →
     ∃ (owners : list string) (calls : list event),
       NoDup owners
       ∧ (∀ o, o ∈ owners ↔
               ∃ k, k ∈ dict_keys state ∧
                    dict_get (Robot._actuator_group_mapping robot) k = Some o)
       ∧ trace w' = trace w ++ calls
       ∧ Forall2
           (λ o ev, ∃ l, dict_get (Robot._group_dict robot) o = Some l
                         ∧ ev = Called_set_actuated_state l
                                  (owned_by
                                     (Robot._actuator_group_mapping robot) o
                                     state))
           owners calls)
  ∧ (∀ (state : dict (dict V)) (w w' : World),
       Robot.set_virtual_state robot state w = (Return tt, w') →
       ∃ calls : list event,
         trace w' = trace w ++ calls
         ∧ Forall2
             (λ key ev,
                ∃ v o l,
                  dict_get state key = Some v
                  ∧ dict_get (Robot._virtual_group_mapping robot) key = Some o
                  ∧ dict_get (Robot._group_dict robot) o = Some l
                  ∧ ev = Called_set_virtual_state l [(key, v)])
             (dict_keys state) calls).
Proof.
  split.
  - intros state w w' Hnd. unfold Robot.set_actuated_state.
    rewrite bind_run.
    pose proof (group_by_owner_readonly robot state w) as Hro.
    destruct (Robot.group_by_owner robot state w) as [[grouping| |] w0] eqn:Hg;
      [|done..].
    simpl in Hro. subst w0. intros Hcalls.
    assert (grouping_of (Robot._actuator_group_mapping robot) state grouping)
      as Hgo.
    { eapply (group_loop_spec robot state [] state); [done|done| |exact Hg].
      apply grouping_of_nil. }
    destruct (for_each_trace (dict_keys grouping)
                (Robot.actuated_call robot grouping) _ w w'
                (λ x w1 w2 _, actuated_call_trace robot state grouping x w1 w2 Hgo)
                Hcalls) as (evs & Hall & Ht).
    exists (dict_keys grouping), evs.
    destruct Hgo as (Hnd' & Hdom & _). done.
  - intros state w w' Hcalls. unfold Robot.set_virtual_state in Hcalls.
    destruct (for_each_trace (dict_keys state)
                (Robot.virtual_step robot state) _ w w'
                (λ x w1 w2 _, virtual_step_trace robot state x w1 w2) Hcalls)
      as (evs & Hall & Ht).
    by exists evs.
Qed.

(** ** The arity test of solve_virtual *)

Section SolverFacts.
Context `{C : Collaborators}.

Lemma for_each_length {A B} (l : list A) (acc : list B)
    (body : list B → A → Py (list B)) w r w' :
  (∀ s x w1 s' w2, body s x w1 = (Return s', w2) → length s' = S (length s)) →
  for_each l acc body w = (Return r, w') →
  length r = length acc + length l.
Proof.
  intros Hbody. revert acc w.
  induction l as [|x l IH]; intros acc w; simpl.
  - intros [= <- _]. lia.
  - rewrite bind_run. destruct (body acc x w) as [[s'| |] w1] eqn:Hx; [|done..].
    intros Hrest%IH. rewrite Hrest, (Hbody _ _ _ _ _ Hx). lia.
Qed.

(** The vector made of an initial guess has one entry for every unknown of
    the solver, whatever the guess holds: the test of line 217 cannot
    fail. *)
Lemma virtual_to_solver_state_length (self : SimpleInvKinSolver.t)
    (virtual_state : dict (dict V)) w x0 w' :
  SimpleInvKinSolver._virtual_to_solver_state self virtual_state w =
    (Return x0, w') →
  length x0 = length (SimpleInvKinSolver._symbolic_keys self).
Proof.
  unfold SimpleInvKinSolver._virtual_to_solver_state.
  intros Hrun%for_each_length.
  - by rewrite Hrun, length_seq.
  - intros s i w1 s' w2.
    destruct (SimpleInvKinSolver._symbolic_keys self !! i) as [[o k]|]; [|done].
    rewrite bind_run. unfold getitem at 1.
    destruct (dict_get virtual_state o) as [inner|]; [|done].
    simpl. rewrite bind_run. unfold getitem at 1.
    destruct (dict_get inner k) as [x|]; [|done].
    simpl. intros [= <- _]. rewrite length_app. simpl. lia.
Qed.
End SolverFacts.


(** ** Frames: what a call can change, and what a read depends on *)

Section FrameFacts.
Context `{C : Collaborators}.
Implicit Types (P : loc → Prop) (w : World).

Lemma modifies_only_readonly {A} P (m : Py A) : readonly m → modifies_only P m.
Proof. intros Hro w. rewrite (Hro w). by split. Qed.


Lemma modifies_only_bind {A B} P (m : Py A) (f : A → Py B) :
  modifies_only P m → (∀ a, modifies_only P (f a)) →
  modifies_only P (m ≫= f).
Proof.
  intros Hm Hf w. rewrite bind_run. specialize (Hm w).
  destruct (m w) as [[a| |] w1]; simpl in *; [|done..].
  destruct (Hf a w1) as [Hlen Hl]. destruct Hm as [Hlen1 Hl1].
  split; [congruence|]. intros l HP. by rewrite Hl, Hl1.
Qed.

Lemma modifies_only_getitem_bind {A B} P (d : dict A) k (f : A → Py B) :
  (∀ v, dict_get d k = Some v → modifies_only P (f v)) →
  modifies_only P (getitem d k ≫= f).
Proof.
  intros Hf w. rewrite bind_run. unfold getitem.
  destruct (dict_get d k) as [v|] eqn:E; simpl; [by apply Hf|done].
Qed.

Lemma modifies_only_call_method P l ev (m : Group → exn + Group) :
  P l → modifies_only P (Robot.call_method l ev m).
Proof.
  intros HP w. unfold Robot.call_method. rewrite bind_run. unfold deref.
  destruct (heap w !! l) as [g|]; [|done].
  rewrite bind_run, emit_run, bind_run.
  destruct (m g) as [e|g']; simpl; [done|].
  split; [apply length_insert|]. intros l' HP'.
  apply list_lookup_insert_ne. by intros ->.
Qed.

Lemma modifies_only_for_each {A S} P (l : list A) (s : S) body :
  (∀ s x, modifies_only P (body s x)) → modifies_only P (for_each l s body).
Proof.
  intros Hb. revert s. induction l as [|x l IH]; intros s; simpl.
  - by apply modifies_only_readonly.
  - apply modifies_only_bind; [apply Hb|intros; apply IH].
Qed.

Lemma set_virtual_state_modifies (robot : Robot.t) (state : dict (dict V)) :
  modifies_only (refers_to robot) (Robot.set_virtual_state robot state).
Proof.
  unfold Robot.set_virtual_state, Robot.virtual_step.
  apply modifies_only_for_each. intros _ key.
  apply modifies_only_getitem_bind. intros v _.
  apply modifies_only_getitem_bind. intros o _.
  apply modifies_only_getitem_bind. intros l Hl.
  apply modifies_only_call_method. exists o. by apply dict_get_Some_elem.
Qed.

Lemma pass_group_arg_v_to_a_modifies (robot : Robot.t)
    (argv_dict : dict Hint_arg) :
  modifies_only (refers_to robot) (Robot.pass_group_arg_v_to_a robot argv_dict).
Proof.
  unfold Robot.pass_group_arg_v_to_a.
  apply modifies_only_for_each. intros _ key.
  destruct (dict_in key (Robot._group_dict robot));
    [|by apply modifies_only_readonly].
  apply modifies_only_getitem_bind. intros l Hl.
  apply modifies_only_getitem_bind. intros a _.
  apply modifies_only_call_method. exists key. by apply dict_get_Some_elem.
Qed.

Lemma solver_to_virtual_state_readonly (self : SimpleInvKinSolver.t)
    (solver_state : list V) :
  readonly (SimpleInvKinSolver._solver_to_virtual_state self solver_state).
Proof.
  unfold SimpleInvKinSolver._solver_to_virtual_state. solve_readonly.
Qed.

Lemma virtual_to_solver_state_readonly (self : SimpleInvKinSolver.t)
    (virtual_state : dict (dict V)) :
  readonly (SimpleInvKinSolver._virtual_to_solver_state self virtual_state).
Proof.
  unfold SimpleInvKinSolver._virtual_to_solver_state. solve_readonly.
Qed.



(** *** Reads *)






(** a loop that copies a dictionary reads no object *)
Lemma merge_loop_const {A} (d : dict A) (acc : dict A) w1 w2 :
  (for_each (dict_keys d) acc
     (λ acc key, v ← getitem d key; mret (dict_set acc key v)) w1).1 =
  (for_each (dict_keys d) acc
     (λ acc key, v ← getitem d key; mret (dict_set acc key v)) w2).1.
Proof.
  generalize (dict_keys d) as keys. intros keys. revert acc w1 w2.
  induction keys as [|k keys IH]; intros acc w1 w2; simpl; [done|].
  rewrite !bind_run. unfold getitem at 1 3.
  destruct (dict_get d k) as [v|]; simpl; [apply IH|done].
Qed.

Lemma merge_loop_readonly {A} (d : dict A) (acc : dict A) :
  readonly (for_each (dict_keys d) acc
              (λ acc key, v ← getitem d key; mret (dict_set acc key v))).
Proof. solve_readonly. Qed.


End FrameFacts.

(** ** copy.deepcopy *)

Section DeepcopyFacts.
Context `{C : Collaborators}.
Implicit Types (w : World) (memo : list (loc * loc)).

Lemma memo_get_elem memo l l' : memo_get memo l = Some l' → (l, l') ∈ memo.
Proof.
  induction memo as [|[old new] memo IH]; simpl; [done|].
  case_decide; [intros [= <-]; subst; by left|right; auto].
Qed.

Lemma deepcopy_loop (h0 : list Group) (rest done : dict loc) memo
    (gd : dict loc) w acc' w' :
  (∀ n l, (n, l) ∈ rest → l < length h0) →
  (∃ news, heap w = h0 ++ news) →
  (∀ old new, (old, new) ∈ memo →
     old < length h0 ∧ length h0 ≤ new < length (heap w)
     ∧ heap w !! new = h0 !! old) →
  Forall2 (λ e e', e.1 = e'.1 ∧ (e.2, e'.2) ∈ memo) done gd →
  for_each rest (memo, gd) deepcopy_entry w = (Return acc', w') →
  (∃ news, heap w' = h0 ++ news)
  ∧ trace w' = trace w
  ∧ (∀ old new, (old, new) ∈ acc'.1 →
       old < length h0 ∧ length h0 ≤ new < length (heap w')
       ∧ heap w' !! new = h0 !! old)
  ∧ Forall2 (λ e e', e.1 = e'.1 ∧ (e.2, e'.2) ∈ acc'.1) (done ++ rest) acc'.2.
Proof.
  revert done memo gd w.
  induction rest as [|[n l] rest IH]; intros done memo gd w Hlive Hh Hmemo Hall;
    simpl.
  - intros [= <- <-]. by rewrite app_nil_r.
  - rewrite bind_run. destruct (memo_get memo l) as [l'|] eqn:Hm.
    + rewrite ret_run. intros Hrest.
      replace (done ++ (n, l) :: rest) with ((done ++ [(n, l)]) ++ rest)
        by by rewrite <- (assoc_L (++)).
      eapply IH; [|done|done| |exact Hrest].
      * intros n0 l0 Hin. apply (Hlive n0). by right.
      * apply Forall2_app; [done|]. constructor; [|constructor].
        split; [done|]. by apply memo_get_elem.
    + assert (l < length h0) as Hl by (apply (Hlive n); by left).
      destruct Hh as [news Hh].
      destruct (lookup_lt_is_Some_2 h0 l Hl) as [g Hg].
      rewrite bind_run, (deref_Some l g)
        by (by rewrite Hh, lookup_app_l).
      rewrite bind_run, alloc_run, ret_run. intros Hrest.
      replace (done ++ (n, l) :: rest) with ((done ++ [(n, l)]) ++ rest)
        by by rewrite <- (assoc_L (++)).
      destruct (IH (done ++ [(n, l)]) ((l, length (heap w)) :: memo)
                  (gd ++ [(n, length (heap w))])
                  (mkWorld (heap w ++ [g]) (trace w)))
        as (Hh' & Ht' & Hmemo' & Hall'); [| | | |exact Hrest|done].
      * intros n0 l0 Hin. apply (Hlive n0). by right.
      * exists (news ++ [g]). simpl. by rewrite Hh, <- (assoc_L (++)).
      * simpl. intros old new [[= -> ->]|Hin]%elem_of_cons.
        -- split; [done|]. rewrite length_app. simpl.
           split; [rewrite Hh, length_app; lia|].
           by rewrite lookup_app_r, Nat.sub_diag.
        -- destruct (Hmemo old new Hin) as (Ho & Hn & Hc).
           split; [done|]. rewrite length_app. split; [lia|].
           by rewrite lookup_app_l by lia.
      * apply Forall2_app.
        -- eapply Forall2_impl; [done|]. intros e e' [? ?]. split; [done|].
           by right.
        -- constructor; [|constructor]. split; [done|]. by left.
Qed.

Lemma dict_get_copy (memo : list (loc * loc)) (gd gd' : dict loc) n l' :
  Forall2 (λ e e', e.1 = e'.1 ∧ (e.2, e'.2) ∈ memo) gd gd' →
  dict_get gd' n = Some l' →
  ∃ l, dict_get gd n = Some l ∧ (l, l') ∈ memo.
Proof.
  induction 1 as [|[k l] [k' l0] gd gd' [Hk Hin] _ IH]; simpl; [done|].
  simpl in Hk. subst k'. case_decide; [intros [= <-]; eauto|done].
Qed.

(** What [deepcopy] gives: a robot with the same names, whose every object
    is new and holds what the object of the same name held. *)
Lemma deepcopy_spec (robot robot' : Robot.t) w w' :
  alive (heap w) robot →
  deepcopy robot w = (Return robot', w') →
  (∃ news, heap w' = heap w ++ news)
  ∧ trace w' = trace w
  ∧ (∀ l', refers_to robot' l' → length (heap w) ≤ l' < length (heap w'))
  ∧ (∀ n l', dict_get (Robot._group_dict robot') n = Some l' →
       ∃ l, dict_get (Robot._group_dict robot) n = Some l
            ∧ heap w' !! l' = heap w !! l).
Proof.
  intros Halive. unfold deepcopy. rewrite bind_run.
  destruct (for_each (Robot._group_dict robot) ([], []) deepcopy_entry w)
    as [[acc| |] w1] eqn:Hloop; [|done..].
  rewrite ret_run. intros [= <- <-].
  destruct (deepcopy_loop (heap w) (Robot._group_dict robot) [] [] [] w acc w1)
    as (Hh & Ht & Hmemo & Hall); [done|by exists []; rewrite app_nil_r| |
                                  constructor|done|].
  { by intros old new ?%elem_of_nil. }
  split; [done|]. split; [done|]. simpl. split.
  - intros l' [n Hin].
    apply list_elem_of_lookup in Hin as [i Hi].
    destruct (Forall2_lookup_r _ _ _ _ _ Hall Hi) as ([n0 l0] & _ & _ & Hm).
    by destruct (Hmemo _ _ Hm) as (_ & ? & _).
  - intros n l' Hget.
    destruct (dict_get_copy _ _ _ _ _ Hall Hget) as (l & Hl & Hm).
    exists l. split; [done|]. by destruct (Hmemo _ _ Hm) as (_ & _ & ?).
Qed.
End DeepcopyFacts.


(** ** The properties on concrete robots *)

#[export] Instance model_laws : @OpenGroupLaws Model.collaborators.
Proof. by split. Qed.

Section Concrete.
Import Model Examples.

(** [Robot.__init__] makes [robot_abc] of the three transformations. *)
Example init_chain_abc :
  Robot.__init__ chain_abc empty_world =
  (Return robot_abc,
   mkWorld [group_A; group_B; group_C]
     [Printed (Robot.warning "A" "C"); Printed (Robot.warning "B" "A");
      Printed (Robot.warning "C" "B")]).
Proof. reflexivity. Qed.

(** [Robot.__init__] accepts the three groups of the circle. *)
Example init_chain_cycle :
  Robot.__init__ chain_cycle world_cycle = (Return robot_cycle, world_cycle).
Proof. reflexivity. Qed.

Lemma alive_abc : alive (heap world_abc) robot_abc.
Proof.
  intros n l Hin. simpl in *.
  repeat (apply elem_of_cons in Hin as [[= -> ->]|Hin]; [lia|]).
  by apply elem_of_nil in Hin.
Defined.

Lemma ancestry_abc :
  ancestry (Robot._group_dict robot_abc) (heap world_abc) "C"
    [("A", group_A); ("B", group_B); ("C", group_C)].
Proof.
  apply (ancestry_step (C:=collaborators) _ _ "C" 2 group_C [("A", group_A); ("B", group_B)]);
    [reflexivity|reflexivity|discriminate|].
  apply (ancestry_step (C:=collaborators) _ _ "B" 1 group_B [("A", group_A)]);
    [reflexivity|reflexivity|discriminate|].
  by apply (ancestry_root (C:=collaborators) _ _ "A" 0 group_A).
Defined.

(** C1, the claim as stated fails: on the robot of the circle no number of
    loop turns brings the resolution to an end, in forward_kinematics or in
    Robot.get_symbolic_rep; no topology error is ever raised. *)
Lemma cycle_never_detected :
  ¬ ∃ budget,
      finished (forward_kinematics budget robot_cycle "A" world_cycle).1
      ∨ finished (Robot.get_symbolic_rep budget robot_cycle "A" world_cycle).1.
Proof.
  intros [budget H].
  unfold forward_kinematics, Robot.get_symbolic_rep in H.
  rewrite !bind_run in H.
  rewrite !(ancestor_chain_rootless robot_cycle ["A"; "B"]) in H;
    [by destruct H|reflexivity|by left|reflexivity|by left].
Qed.

(** C1, witness: the circle of A and B, after seven turns. *)
Lemma ancestor_resolution_unguarded_witness :
  forward_kinematics 7 robot_cycle "A" world_cycle = (Running, world_cycle)
  ∧ Robot.get_symbolic_rep 7 robot_cycle "A" world_cycle =
    (Running, world_cycle).
Proof.
  apply (ancestor_resolution_unguarded (C:=collaborators) robot_cycle ["A"; "B"] "A" world_cycle);
    [reflexivity|by left].
Defined.

(** C2, on a concrete list: two Closed groups over fixed transformations,
    so with an empty virtual state, both declare the actuator m.  The test
    of line 40 leaves out the key checks for both, and the robot is
    constructed, m being registered for neither, where the docstring of the
    class (lines 17-21) announces a KeyError for actuated states of the
    same name. *)
Lemma shared_actuator_accepted :
  dict_keys (g_get_actuated_state closed_1) = ["m"]
  ∧ dict_keys (g_get_actuated_state closed_2) = ["m"]
  ∧ Robot.__init__ chain_closed world_closed =
    (Return (Robot.mk [("c1", 0); ("c2", 1)] [] []), world_closed).
Proof. by repeat split. Qed.

(** X19, witness: the transformation B given twice. *)
Lemma init_naming_conflict_witness :
  ∃ msg w',
    Robot.__init__ chain_twice empty_world = (Raise (KeyError msg), w')
    ∧ (msg = Robot.actuator_conflict ∨ msg = Robot.virtual_conflict)
    ∧ heap empty_world `prefix_of` heap w'.
Proof.
  apply (init_naming_conflict (C:=collaborators) chain_twice empty_world
           [open_group "B" [trafo_B] None;
            open_group "B" [trafo_B] (Some (open_group "B" [trafo_B] None))]
           0 1 (open_group "B" [trafo_B] None)
           (open_group "B" [trafo_B] (Some (open_group "B" [trafo_B] None)))
           "B_ry");
    [reflexivity|lia|reflexivity|reflexivity|reflexivity|reflexivity|].
  left. split; by left.
Defined.

(** C3, witness: the chain A, B, C gives the word of A, B and C. *)
Lemma forward_kinematics_chain_product_witness :
  forward_kinematics 2 robot_abc "C" world_abc =
  (Return (chain_product [group_A; group_B; group_C]), world_abc).
Proof.
  apply (forward_kinematics_chain_product (C:=collaborators) robot_abc "C"
           [("A", group_A); ("B", group_B); ("C", group_C)] world_abc 2);
    [exact ancestry_abc|simpl; lia].
Defined.


(** C6, the claim as stated fails for Robot.set_virtual_state: the group arm
    owns both keys of the state, and its setter is invoked twice, each time
    with one key. *)
Lemma set_virtual_state_not_batched :
  trace (Robot.set_virtual_state robot_arm
           [("j1", [("ry", 1%Z)]); ("j2", [("ry", 2%Z)])] world_arm).2 =
  [Called_set_virtual_state 0 [("j1", [("ry", 1%Z)])];
   Called_set_virtual_state 0 [("j2", [("ry", 2%Z)])]]
  ∧ ¬ ∃ state,
        trace (Robot.set_virtual_state robot_arm
                 [("j1", [("ry", 1%Z)]); ("j2", [("ry", 2%Z)])] world_arm).2 =
        [Called_set_virtual_state 0 state].
Proof. split; [reflexivity|]. by intros [state [=]]. Qed.

(** C6, witness: three actuators of two groups set in one call. *)
Lemma setters_calls_witness :
  ∃ (owners : list string) (calls : list event),
    NoDup owners
    ∧ (∀ o, o ∈ owners ↔
            ∃ k, k ∈ dict_keys [("C_rx", 7%Z); ("B_ry", 2%Z); ("C_rz", 9%Z)] ∧
                 dict_get (Robot._actuator_group_mapping robot_abc) k = Some o)
    ∧ trace (Robot.set_actuated_state robot_abc
               [("C_rx", 7%Z); ("B_ry", 2%Z); ("C_rz", 9%Z)] world_abc).2 =
      trace world_abc ++ calls
    ∧ Forall2
        (λ o ev, ∃ l, dict_get (Robot._group_dict robot_abc) o = Some l
                      ∧ ev = Called_set_actuated_state l
                               (owned_by
                                  (Robot._actuator_group_mapping robot_abc) o
                                  [("C_rx", 7%Z); ("B_ry", 2%Z); ("C_rz", 9%Z)]))
        owners calls.
Proof.
  apply (proj1 (setters_calls (C:=collaborators) robot_abc)
           [("C_rx", 7%Z); ("B_ry", 2%Z); ("C_rz", 9%Z)] world_abc);
    [|reflexivity].
  apply NoDup_ListNoDup. repeat constructor; simpl; intuition discriminate.
Defined.



(** C10, witness: a state with the unknown key nope. *)
Lemma set_actuated_state_unknown_key_witness :
  ∃ k', k' ∈ dict_keys [("B_ry", 1%Z); ("nope", 2%Z)] ∧
        dict_get (Robot._actuator_group_mapping robot_abc) k' = None ∧
        Robot.set_actuated_state robot_abc [("B_ry", 1%Z); ("nope", 2%Z)]
          world_abc = (Raise (KeyError k'), world_abc).
Proof.
  apply (set_actuated_state_unknown_key (C:=collaborators) robot_abc
           [("B_ry", 1%Z); ("nope", 2%Z)] world_abc "nope");
    [right; by left|reflexivity].
Defined.
End Concrete.

(** * Further properties *)

(** ** Solver vectors and virtual states *)

Section CodecFacts.
Context `{C : Collaborators}.
Implicit Types (self : SimpleInvKinSolver.t) (w : World).

Lemma nested_get_group_add_eq {A} (vs : dict (dict A)) o k v :
  nested_get (group_add vs o k v) o k = Some v.
Proof.
  unfold nested_get, group_add. rewrite dict_get_set_eq. simpl.
  apply dict_get_set_eq.
Qed.

Lemma nested_get_group_add_ne {A} (vs : dict (dict A)) o k v o' k' :
  (o, k) ≠ (o', k') →
  nested_get (group_add vs o k v) o' k' = nested_get vs o' k'.
Proof.
  intros Hne. unfold nested_get, group_add.
  destruct (decide (o = o')) as [<-|Ho].
  - rewrite dict_get_set_eq. simpl.
    rewrite dict_get_set_ne by congruence.
    destruct (dict_in o vs) eqn:E.
    + apply dict_in_true, dict_get_is_Some in E as [inner ->]. done.
    + rewrite dict_get_set_eq. apply dict_in_false, dict_get_None in E.
      by rewrite E.
  - rewrite dict_get_set_ne by done.
    destruct (dict_in o vs); [done|]. by rewrite dict_get_set_ne.
Qed.

Lemma decode_snoc {A} ks (xs : list A) key v :
  length ks = length xs →
  decode (ks ++ [key]) (xs ++ [v]) = group_add (decode ks xs) key.1 key.2 v.
Proof.
  intros Hlen. unfold decode.
  rewrite (zip_with_app pair) by done. by rewrite foldl_app.
Qed.

Lemma decode_get {A} ks (xs : list A) i key v :
  NoDup ks → length ks = length xs →
  ks !! i = Some key → xs !! i = Some v →
  nested_get (decode ks xs) key.1 key.2 = Some v.
Proof.
  revert xs i. induction ks as [|k0 ks IH] using rev_ind; intros xs i Hnd Hlen;
    [done|].
  destruct xs as [|x0 xs _] using rev_ind.
  { rewrite length_app in Hlen. simpl in Hlen. lia. }
  rewrite !length_app in Hlen. simpl in Hlen.
  assert (length ks = length xs) as Hlen' by lia.
  apply NoDup_app in Hnd as (Hnd & Hdisj & _).
  rewrite decode_snoc by done.
  destruct (decide (i < length ks)) as [Hi|Hi].
  - rewrite lookup_app_l by done. rewrite lookup_app_l by lia.
    intros Hk Hx. rewrite nested_get_group_add_ne; [by eapply IH|].
    intros Heq. apply (Hdisj key).
    + by eapply list_elem_of_lookup_2.
    + apply list_elem_of_singleton. destruct k0, key. simpl in *. congruence.
  - intros Hk Hx.
    assert (i = length ks) as ->.
    { apply lookup_lt_Some in Hk. rewrite length_app in Hk. simpl in Hk. lia. }
    rewrite lookup_app_r, Nat.sub_diag in Hk by done. injection Hk as <-.
    rewrite Hlen', lookup_app_r, Nat.sub_diag in Hx by done.
    injection Hx as <-. apply nested_get_group_add_eq.
Qed.

(** Turn after turn, the loop of _solver_to_virtual_state files the values
    it is given under their keys. *)
Lemma solver_to_virtual_loop self (solver_state : list V) ks xs i vs w :
  (∀ j, j < length xs →
        SimpleInvKinSolver._symbolic_keys self !! (i + j) = ks !! j
        ∧ solver_state !! (i + j) = xs !! j) →
  length xs ≤ length ks →
  for_each (seq i (length xs)) vs
    (λ virtual_state i,
       match SimpleInvKinSolver._symbolic_keys self !! i, solver_state !! i with
       | Some (outer_key, inner_key), Some x =>
           let virtual_state :=
             if dict_in outer_key virtual_state then virtual_state
             else dict_set virtual_state outer_key [] in
           inner ← getitem virtual_state outer_key;
           mret (dict_set virtual_state outer_key (dict_set inner inner_key x))
       | _, _ => raise (IndexError "list index out of range")
       end) w =
  (Return (foldl (λ vs kx, group_add vs kx.1.1 kx.1.2 kx.2) vs (zip ks xs)), w).
Proof.
  revert ks i vs.
  induction xs as [|x xs IH]; intros ks i vs Hat Hlen; [by destruct ks|].
  destruct ks as [|[o k] ks]; [simpl in Hlen; lia|].
  simpl. rewrite bind_run.
  destruct (Hat 0) as [Hk Hx]; [simpl; lia|].
  rewrite Nat.add_0_r in Hk, Hx. rewrite Hk, Hx. simpl.
  destruct (group_add_get vs o) as [inner Hi].
  rewrite bind_run, (getitem_Some _ _ _ _ Hi), ret_run.
  replace (dict_set _ o (dict_set inner k x)) with (group_add vs o k x)
    by (unfold group_add; by rewrite Hi).
  apply IH; [|simpl in Hlen; lia].
  intros j Hj. replace (S i + j) with (i + S j) by lia.
  apply (Hat (S j)). simpl. lia.
Qed.

Lemma solver_to_virtual_state_decode self (solver_state : list V) w :
  length solver_state ≤ length (SimpleInvKinSolver._symbolic_keys self) →
  SimpleInvKinSolver._solver_to_virtual_state self solver_state w =
  (Return (decode (SimpleInvKinSolver._symbolic_keys self) solver_state), w).
Proof.
  intros Hlen. unfold SimpleInvKinSolver._solver_to_virtual_state, decode.
  by apply solver_to_virtual_loop.
Qed.

(** The loop of _virtual_to_solver_state reads the values back. *)
Lemma virtual_to_solver_loop self (virtual_state : dict (dict V)) ks ys i acc w :
  (∀ j, j < length ks →
        SimpleInvKinSolver._symbolic_keys self !! (i + j) = ks !! j) →
  Forall2 (λ key y, nested_get virtual_state key.1 key.2 = Some y) ks ys →
  for_each (seq i (length ks)) acc
    (λ solver_state i,
       match SimpleInvKinSolver._symbolic_keys self !! i with
       | Some (outer_key, inner_key) =>
           inner ← getitem virtual_state outer_key;
           x ← getitem inner inner_key;
           mret (solver_state ++ [x])
       | None => raise (IndexError "list index out of range")
       end) w =
  (Return (acc ++ ys), w).
Proof.
  intros Hat Hall. revert i acc Hat.
  induction Hall as [|[o k] y ks ys Hget _ IH]; intros i acc Hat; simpl.
  { by rewrite app_nil_r. }
  rewrite bind_run.
  assert (SimpleInvKinSolver._symbolic_keys self !! i = Some (o, k)) as Hk.
  { rewrite <- (Nat.add_0_r i). apply (Hat 0). simpl. lia. }
  rewrite Hk. simpl.
  unfold nested_get in Hget. simpl in Hget.
  destruct (dict_get virtual_state o) as [inner|] eqn:Ho; [|done].
  simpl in Hget.
  rewrite bind_run, (getitem_Some _ _ _ _ Ho).
  rewrite bind_run, (getitem_Some _ _ _ _ Hget), ret_run.
  rewrite IH; [by rewrite <- (assoc_L (++))|].
  intros j Hj. replace (S i + j) with (i + S j) by lia.
  apply (Hat (S j)). simpl. lia.
Qed.

Lemma virtual_to_solver_state_read self (virtual_state : dict (dict V)) ys w :
  Forall2 (λ key y, nested_get virtual_state key.1 key.2 = Some y)
    (SimpleInvKinSolver._symbolic_keys self) ys →
  SimpleInvKinSolver._virtual_to_solver_state self virtual_state w =
  (Return ys, w).
Proof.
  intros Hall. unfold SimpleInvKinSolver._virtual_to_solver_state.
  by apply (virtual_to_solver_loop self virtual_state _ ys 0 []).
Qed.

Lemma decode_read self (xs : list V) :
  NoDup (SimpleInvKinSolver._symbolic_keys self) →
  length xs = length (SimpleInvKinSolver._symbolic_keys self) →
  Forall2
    (λ key y,
       nested_get (decode (SimpleInvKinSolver._symbolic_keys self) xs)
         key.1 key.2 = Some y)
    (SimpleInvKinSolver._symbolic_keys self) xs.
Proof.
  intros Hnd Hlen. apply Forall2_same_length_lookup_2; [done|].
  intros i key y Hk Hy. by eapply decode_get.
Qed.
End CodecFacts.

(** X1.  A solver vector with one value for every unknown, filed under the
    solver's keys by _solver_to_virtual_state and read back by
    _virtual_to_solver_state, comes back as it was, when no key occurs
    twice. *)
Theorem solver_state_round_trip `{C : Collaborators}
    (self : SimpleInvKinSolver.t) (solver_state : list V) (w : World) :
  NoDup (SimpleInvKinSolver._symbolic_keys self) →
  length solver_state = length (SimpleInvKinSolver._symbolic_keys self) →
  ∃ virtual_state,
    SimpleInvKinSolver._solver_to_virtual_state self solver_state w =
      (Return virtual_state, w)
    ∧ SimpleInvKinSolver._virtual_to_solver_state self virtual_state w =
      (Return solver_state, w).
Proof.
  intros Hnd Hlen. eexists. split.
  - apply solver_to_virtual_state_decode. lia.
  - apply virtual_to_solver_state_read. by apply decode_read.
Qed.

(** X2.  _solver_to_virtual_state raises IndexError on a vector that is
    longer than the list of the solver's keys, and leaves the world as it
    was. *)
Theorem solver_to_virtual_state_too_long `{C : Collaborators}
    (self : SimpleInvKinSolver.t) (solver_state : list V) (w : World) :
  length (SimpleInvKinSolver._symbolic_keys self) < length solver_state →
  SimpleInvKinSolver._solver_to_virtual_state self solver_state w =
  (Raise (IndexError "list index out of range"), w).
Proof.
  intros Hlen. unfold SimpleInvKinSolver._solver_to_virtual_state.
  set (n := length (SimpleInvKinSolver._symbolic_keys self)) in *.
  replace (length solver_state) with (n + S (length solver_state - S n))
    by lia.
  rewrite seq_app, for_each_app, bind_run.
  pose proof (solver_to_virtual_loop self solver_state
                (SimpleInvKinSolver._symbolic_keys self)
                (take n solver_state) 0 [] w) as Hloop.
  rewrite length_take, Nat.min_l in Hloop by lia. cbv zeta in Hloop.
  rewrite Hloop; [|intros j Hj; split; [done|by rewrite lookup_take_lt]|done].
  simpl. rewrite bind_run.
  by rewrite (lookup_ge_None_2 (SimpleInvKinSolver._symbolic_keys self) n).
Qed.

(** ** solve_virtual and the compiled solver *)

Section SolveFacts.
Context `{C : Collaborators}.
Implicit Types (self : SimpleInvKinSolver.t) (w : World).

(** the start vector of a call of solve_virtual *)
Lemma solve_virtual_start self target tip x0 w :
  match tip with
  | None => x0 = replicate (length (SimpleInvKinSolver._symbolic_keys self)) zero
  | Some vs =>
      SimpleInvKinSolver._virtual_to_solver_state self vs w = (Return x0, w)
  end →
  SimpleInvKinSolver.solve_virtual self target tip w =
  match SimpleInvKinSolver.inv_kin_solver self with
  | None =>
      (Raise (AttributeError
                "'SimpleInvKinSolver' object has no attribute 'inv_kin_solver'"),
       w)
  | Some solver =>
      (solution ← lift_result (nlp_call solver x0 target);
       SimpleInvKinSolver._solver_to_virtual_state self solution)
        (mkWorld (heap w) (trace w ++ [Called_inv_kin_solver x0 target]))
  end.
Proof.
  intros Hx0.
  unfold SimpleInvKinSolver.solve_virtual, SimpleInvKinSolver.solve_virtual_from.
  rewrite bind_run.
  assert (length x0 = length (SimpleInvKinSolver._symbolic_keys self)
          ∧ match tip with
            | Some tip => SimpleInvKinSolver._virtual_to_solver_state self tip
            | None =>
                mret (replicate
                        (length (SimpleInvKinSolver._symbolic_keys self)) zero)
            end w = (Return x0, w)) as [Hlen ->].
  { destruct tip as [vs|].
    - split; [by eapply virtual_to_solver_state_length|done].
    - subst x0. by rewrite length_replicate. }
  rewrite decide_False by (intros ?; done).
  destruct (SimpleInvKinSolver.inv_kin_solver self); [|done].
  by rewrite bind_run, emit_run.
Qed.

Lemma for_each_not_running {A S} (l : list A) (s : S)
    (body : S → A → Py S) w :
  (∀ s x w, (body s x w).1 ≠ Running) → (for_each l s body w).1 ≠ Running.
Proof.
  intros Hbody. revert s w. induction l as [|x l IH]; intros s w; simpl.
  - done.
  - rewrite bind_run. specialize (Hbody s x w).
    destruct (body s x w) as [[s'| |] w1]; [apply IH|done..].
Qed.

Lemma for_each_invariant {A S} (I : S → Prop) (l : list A) (s : S) body
    w r w' :
  I s →
  (∀ s x w1 s' w2, I s → body s x w1 = (Return s', w2) → I s') →
  for_each l s body w = (Return r, w') → I r.
Proof.
  intros Hs Hbody. revert s w Hs.
  induction l as [|x l IH]; intros s w Hs; simpl.
  - by intros [= <- _].
  - rewrite bind_run. destruct (body s x w) as [[s'| |] w1] eqn:Hx; [|done..].
    apply IH. by eapply Hbody.
Qed.
End SolveFacts.


(** X3.  A solver built with orientation=True has no compiled problem:
    whatever the target and the initial guess, solve_virtual and
    solve_actuated on it end in an exception, which is the AttributeError
    for the missing attribute when no initial guess is given; no solver is
    invoked and no group is touched. *)
Theorem solve_without_compiled_solver `{C : Collaborators}
    (budget : nat) (robot : Robot.t) (endeffector : string)
    (update_robot : bool) (w w1 : World) (self : SimpleInvKinSolver.t) :
  SimpleInvKinSolver.__init__ budget robot endeffector true update_robot w =
    (Return self, w1) →
  ∀ target initial_tip mapping_argument w2,
    ∃ e,
      SimpleInvKinSolver.solve_virtual self target initial_tip w2 =
        (Raise e, w2)
      ∧ SimpleInvKinSolver.solve_actuated self target initial_tip
          mapping_argument w2 = (Raise e, w2)
      ∧ (initial_tip = None →
         e = AttributeError
               "'SimpleInvKinSolver' object has no attribute 'inv_kin_solver'").
Proof.
  unfold SimpleInvKinSolver.__init__. rewrite bind_run.
  destruct (Robot.get_symbolic_rep budget robot endeffector w)
    as [[[[matrix symboles] keys]| |] w0]; [|done..].
  rewrite bind_run.
  destruct ((if update_robot then mret robot else deepcopy robot) w0)
    as [[robot'| |] w0']; [|done..].
  rewrite ret_run. intros [= <- _] target tip marg w2.
  assert (∃ e, SimpleInvKinSolver.solve_virtual
                 (SimpleInvKinSolver.mk keys endeffector robot' None)
                 target tip w2 = (Raise e, w2)
               ∧ (tip = None →
                  e = AttributeError
                        "'SimpleInvKinSolver' object has no attribute 'inv_kin_solver'"))
    as (e & Hsv & He).
  { destruct tip as [vs|].
    - pose proof (virtual_to_solver_state_readonly
                    (SimpleInvKinSolver.mk keys endeffector robot' None)
                    vs w2) as Hro.
      destruct (SimpleInvKinSolver._virtual_to_solver_state
                  (SimpleInvKinSolver.mk keys endeffector robot' None) vs w2)
        as [[x0|e|] w3] eqn:Hconv; simpl in Hro; subst w3.
      + eexists. split; [|done].
        by rewrite (solve_virtual_start _ target (Some vs) x0 w2).
      + exists e. split; [|done].
        unfold SimpleInvKinSolver.solve_virtual, SimpleInvKinSolver.solve_virtual_from. by rewrite bind_run, Hconv.
      + exfalso. revert Hconv.
        unfold SimpleInvKinSolver._virtual_to_solver_state.
        intros Hconv.
        match type of Hconv with
        | ?t = _ => assert (t.1 ≠ Running) as Hnr; [|by rewrite Hconv in Hnr]
        end.
        apply for_each_not_running.
        clear. intros acc i w. simpl.
        destruct (keys !! i) as [[o k]|]; [|done].
        rewrite bind_run. unfold getitem at 1.
        destruct (dict_get vs o) as [inner|]; [|done]. simpl.
        rewrite bind_run. unfold getitem at 1.
        by destruct (dict_get inner k) as [x|].
    - eexists. split; [|done].
      by rewrite (solve_virtual_start _ target None _ w2 eq_refl). }
  exists e. split; [done|]. split; [|done].
  unfold SimpleInvKinSolver.solve_actuated. by rewrite bind_run, Hsv.
Qed.

(** X4.  An exception raised by the compiled solver passes through
    solve_virtual and solve_actuated unchanged: the call of the solver is
    the only thing that has happened, no setter of a group has been called
    and the heap is as it was. *)
Theorem solver_exception_propagates `{C : Collaborators}
    (self : SimpleInvKinSolver.t) (solver : Nlp) (target : Target)
    (initial_tip : option (dict (dict V)))
    (mapping_argument : option (dict Hint_arg))
    (x0 : list V) (e : exn) (w : World) :
  SimpleInvKinSolver.inv_kin_solver self = Some solver →
  match initial_tip with
  | None => x0 = replicate (length (SimpleInvKinSolver._symbolic_keys self)) zero
  | Some vs =>
      SimpleInvKinSolver._virtual_to_solver_state self vs w = (Return x0, w)
  end →
  nlp_call solver x0 target = inl e →
  SimpleInvKinSolver.solve_virtual self target initial_tip w =
    (Raise e, mkWorld (heap w) (trace w ++ [Called_inv_kin_solver x0 target]))
  ∧ SimpleInvKinSolver.solve_actuated self target initial_tip
      mapping_argument w =
    (Raise e, mkWorld (heap w) (trace w ++ [Called_inv_kin_solver x0 target])).
Proof.
  intros Hs Hx0 Hcall.
  assert (SimpleInvKinSolver.solve_virtual self target initial_tip w =
          (Raise e,
           mkWorld (heap w) (trace w ++ [Called_inv_kin_solver x0 target])))
    as Hsv.
  { rewrite (solve_virtual_start self target initial_tip x0 w Hx0), Hs.
    by rewrite bind_run, Hcall. }
  split; [done|].
  unfold SimpleInvKinSolver.solve_actuated. by rewrite bind_run, Hsv.
Qed.

(** X5.  A virtual state returned by solve_virtual is a good initial guess:
    when no key of the solver occurs twice and the compiled solver returns
    a vector with one value for every unknown, solve_virtual returns a
    virtual state which, given as initial_tip to a later call, starts the
    compiled solver at that very vector. *)
Theorem solve_virtual_warm_start `{C : Collaborators}
    (self : SimpleInvKinSolver.t) (solver : Nlp) (target : Target)
    (solution : list V) (w : World) :
  SimpleInvKinSolver.inv_kin_solver self = Some solver →
  NoDup (SimpleInvKinSolver._symbolic_keys self) →
  nlp_call solver
    (replicate (length (SimpleInvKinSolver._symbolic_keys self)) zero)
    target = inr solution →
  length solution = length (SimpleInvKinSolver._symbolic_keys self) →
  ∃ virtual_state,
    SimpleInvKinSolver.solve_virtual self target None w =
      (Return virtual_state,
       mkWorld (heap w)
         (trace w ++
          [Called_inv_kin_solver
             (replicate (length (SimpleInvKinSolver._symbolic_keys self)) zero)
             target]))
    ∧ ∀ target' w',
        trace (SimpleInvKinSolver.solve_virtual self target'
                 (Some virtual_state) w').2 =
        trace w' ++ [Called_inv_kin_solver solution target'].
Proof.
  intros Hs Hnd Hcall Hlen.
  exists (decode (SimpleInvKinSolver._symbolic_keys self) solution). split.
  - rewrite (solve_virtual_start self target None _ w eq_refl), Hs.
    rewrite bind_run, Hcall. simpl.
    apply solver_to_virtual_state_decode. lia.
  - intros target' w'.
    rewrite (solve_virtual_start self target' (Some _) solution w'), Hs.
    + rewrite bind_run.
      destruct (nlp_call solver solution target') as [e|x]; simpl; [done|].
      by rewrite solver_to_virtual_state_readonly.
    + apply virtual_to_solver_state_read. by apply decode_read.
Qed.

(** X6.  The two lists Robot.get_symbolic_rep returns beside the matrix run
    in parallel: the symbol at a position is named after the key at that
    position, outer key, underscore, inner key. *)
Theorem symbolic_lists_parallel `{C : Collaborators}
    (budget : nat) (robot : Robot.t) (endeffector : string) (w w' : World)
    (matrix : SX) (symbolic_state : list string)
    (symbolic_keys : list (string * string)) :
  Robot.get_symbolic_rep budget robot endeffector w =
    (Return (matrix, symbolic_state, symbolic_keys), w') →
  symbolic_state = symbol_name <$> symbolic_keys
  ∧ length symbolic_state = length symbolic_keys.
Proof.
  intros Hrun.
  assert (symbolic_state = symbol_name <$> symbolic_keys) as ->;
    [|by rewrite length_fmap].
  revert Hrun. unfold Robot.get_symbolic_rep. rewrite bind_run.
  destruct (Robot.ancestor_chain _ _ _ _ w) as [[names| |] w0]; [|done..].
  intros Hloop.
  apply (for_each_invariant (λ acc, acc.1.2 = symbol_name <$> acc.2))
    in Hloop; [done|done|].
  clear. intros acc group_key w1 acc' w2 Hacc.
  rewrite bind_run. unfold getitem at 1.
  destruct (dict_get _ group_key) as [l|]; [|done]. simpl.
  rewrite bind_run. unfold deref.
  destruct (heap w1 !! l) as [group|]; [|done].
  unfold Robot.symbolic_group.
  apply (for_each_invariant (λ acc, acc.1.2 = symbol_name <$> acc.2));
    [done|].
  clear. intros [[matrix syms] keys] virtual_key w1 acc' w2 Hacc.
  simpl in Hacc. subst syms.
  rewrite bind_run. unfold getitem at 1.
  destruct (dict_get _ virtual_key) as [trafo|]; [|done]. simpl.
  intros [= <- _]. simpl.
  rewrite fmap_app. f_equal.
  generalize (dict_keys (t_get_state trafo)). intros ks.
  induction ks as [|k ks IH]; [done|]. simpl. by f_equal.
Qed.

(** ** Resolution that meets an unregistered name *)

Section OrphanFacts.
Context `{C : Collaborators}.

Lemma orphan_registered group_dict h d n missing :
  orphan group_dict h d n missing →
  ∃ l g, dict_get group_dict n = Some l ∧ h !! l = Some g.
Proof. destruct 1; eauto. Qed.

Lemma parent_walk_orphan group_dict w d n missing :
  orphan group_dict (heap w) d n missing →
  ∀ budget acc l g,
    d ≤ budget →
    dict_get group_dict n = Some l → heap w !! l = Some g →
    Robot.parent_walk budget group_dict (g_parent g) n acc w =
    (Raise (KeyError missing), w).
Proof.
  induction 1 as [n l0 g0 Hl0 Hg0 Hne Hnone|d n l0 g0 missing Hl0 Hg0 Hne Horph IH];
    intros budget acc l g Hd Hl Hg;
    assert (g = g0) as -> by congruence;
    (destruct budget as [|b]; [lia|]); simpl;
    rewrite decide_False by done.
  - by rewrite bind_run, (getitem_None _ _ _ Hnone).
  - destruct (orphan_registered _ _ _ _ _ Horph) as (l1 & g1 & Hl1 & Hg1).
    rewrite bind_run, (getitem_Some _ _ _ _ Hl1).
    rewrite bind_run, (deref_Some _ _ _ Hg1).
    apply (IH b _ l1 g1); [lia|done|done].
Qed.

Lemma ancestor_chain_orphan (robot : Robot.t) w d n missing budget what :
  orphan (Robot._group_dict robot) (heap w) d n missing → d ≤ budget →
  Robot.ancestor_chain budget robot n what w = (Raise (KeyError missing), w).
Proof.
  intros Horph Hd.
  destruct (orphan_registered _ _ _ _ _ Horph) as (l & g & Hl & Hg).
  unfold Robot.ancestor_chain, Robot.get_groups.
  assert (dict_in n (Robot._group_dict robot) = true) as ->.
  { apply dict_in_true, dict_get_is_Some. by eexists. }
  rewrite bind_run, (getitem_Some _ _ _ _ Hl).
  rewrite bind_run, (deref_Some _ _ _ Hg).
  by rewrite bind_run, (parent_walk_orphan _ _ _ _ _ Horph _ _ l g).
Qed.
End OrphanFacts.

(** X7.  forward_kinematics and Robot.get_symbolic_rep raise a KeyError that
    lists the valid names when the endeffector is not a registered group;
    and when the parent links from the endeffector lead, through groups
    that are no roots, to a name that is not registered, they raise the
    KeyError of that name.  The world is as it was. *)
Theorem resolution_key_errors `{C : Collaborators}
    (robot : Robot.t) (endeffector : string) (w : World) :
  (endeffector ∉ dict_keys (Robot._group_dict robot) →
   ∀ budget,
     forward_kinematics budget robot endeffector w =
       (Raise (KeyError
                 ("The endeffector must be a valid group name. Valid group names for this robot are: "
                  +:+ str_dict_keys (dict_keys (Robot._group_dict robot)))),
        w)
     ∧ Robot.get_symbolic_rep budget robot endeffector w =
       (Raise (KeyError
                 ("The endeffector must be a valid group or transformation name. Valid names for this robot are: "
                  +:+ str_dict_keys (dict_keys (Robot._group_dict robot)))),
        w))
  ∧ (∀ d missing budget,
       orphan (Robot._group_dict robot) (heap w) d endeffector missing →
       d ≤ budget →
       forward_kinematics budget robot endeffector w =
         (Raise (KeyError missing), w)
       ∧ Robot.get_symbolic_rep budget robot endeffector w =
         (Raise (KeyError missing), w)).
Proof.
  split.
  - intros Hni%dict_in_false budget.
    unfold forward_kinematics, Robot.get_symbolic_rep, Robot.ancestor_chain,
      Robot.get_groups.
    by rewrite !bind_run, Hni.
  - intros d missing budget Horph Hd.
    unfold forward_kinematics, Robot.get_symbolic_rep.
    by rewrite !bind_run, !(ancestor_chain_orphan _ _ d _ missing).
Qed.

(** ** What construction establishes *)

Section InitMore.
Context `{C : Collaborators}.
Implicit Types (self : Robot.t) (w : World).

Lemma for_each_invariant_prefix {A S} (I : list A → S → World → Prop)
    (l : list A) (s : S) body w r w' :
  I [] s w →
  (∀ done x rest s w1 s' w2,
     l = done ++ x :: rest → I done s w1 →
     body s x w1 = (Return s', w2) → I (done ++ [x]) s' w2) →
  for_each l s body w = (Return r, w') → I l r w'.
Proof.
  intros Hs Hbody.
  assert (∀ done rest s w,
            l = done ++ rest → I done s w →
            for_each rest s body w = (Return r, w') → I l r w') as Hgen.
  { intros done rest. revert done.
    induction rest as [|x rest IH]; intros done s0 w0 Hl Hdone; simpl.
    - intros [= <- <-]. by rewrite Hl, app_nil_r.
    - rewrite bind_run.
      destruct (body s0 x w0) as [[s'| |] w1] eqn:Hx; [|done..].
      apply (IH (done ++ [x])).
      + by rewrite <- (assoc_L (++)).
      + by eapply Hbody. }
  by apply (Hgen [] l).
Qed.

Lemma wrap_run chain self i t w l w1 :
  Robot.wrap_transformation chain self i t w = (Return l, w1) →
  ∃ parent prev_name,
    l = length (heap w)
    ∧ w1 = mkWorld (heap w ++ [OpenKinematicGroup (t_str t) [t] parent])
             (trace w ++ [Printed (Robot.warning (t_str t) prev_name)]).
Proof.
  unfold Robot.wrap_transformation.
  destruct (Robot.previous_element chain i) as [prev|]; [|done].
  rewrite bind_run.
  assert ((Robot.str_element prev w).2 = w) as Hstr.
  { destruct prev as [t0|l0]; simpl; [done|].
    rewrite bind_run. unfold deref. by destruct (heap w !! l0). }
  destruct (Robot.str_element prev w) as [[pn| |] w0]; [|done..].
  simpl in Hstr. subst w0. rewrite bind_run, emit_run.
  case_decide.
  - rewrite bind_run. unfold getitem.
    destruct (dict_get _ pn) as [pl|]; [|done]. simpl.
    rewrite bind_run. unfold deref. simpl.
    destruct (heap w !! pl) as [parent|]; [|done].
    rewrite alloc_run. intros [= <- <-]. by eexists _, _.
  - rewrite alloc_run. intros [= <- <-]. by eexists _, _.
Qed.

Lemma init_step_run chain self i w self' w' :
  Robot.init_step chain self i w = (Return self', w') →
  ∃ e l g,
    chain !! i = Some e
    ∧ match e with
      | inr l' => l = l' ∧ w' = w
      | inl t =>
          l = length (heap w) ∧
          ∃ parent prev_name,
            g = OpenKinematicGroup (t_str t) [t] parent
            ∧ w' = mkWorld (heap w ++ [g])
                     (trace w ++ [Printed (Robot.warning (t_str t) prev_name)])
      end
    ∧ heap w' !! l = Some g
    ∧ claim_state self g l w' = (Return self', w').
Proof.
  unfold Robot.init_step. destruct (chain !! i) as [e|]; [|done].
  rewrite bind_run.
  assert (∀ l g w1,
            heap w1 !! l = Some g →
            (group ← deref l;
             let gd := dict_set (Robot._group_dict self) (g_str group) l in
             if dict_nonempty (g_get_virtual_state group)
             then
               am ← Robot.claim_keys (dict_keys (g_get_actuated_state group))
                      (Robot._actuator_group_mapping self) (g_str group)
                      Robot.actuator_conflict;
               vm ← Robot.claim_keys (dict_keys (g_get_virtual_state group))
                      (Robot._virtual_group_mapping self) (g_str group)
                      Robot.virtual_conflict;
               mret (Robot.mk gd am vm)
             else
               mret (Robot.mk gd (Robot._actuator_group_mapping self)
                       (Robot._virtual_group_mapping self))) w1 =
            (Return self', w') →
            claim_state self g l w1 = (Return self', w') ∧ w' = w1) as Hrest.
  { intros l g w1 Hg. rewrite bind_run, (deref_Some _ _ _ Hg). intros Hc.
    change (claim_state self g l w1 = (Return self', w')) in Hc.
    split; [done|].
    destruct (claim_state_cases self g l w1)
      as [(msg & Hr & _)|(s' & Hr & _)];
      rewrite Hr in Hc; by injection Hc. }
  destruct e as [t|l].
  - destruct (Robot.wrap_transformation chain self i t w)
      as [[l| |] w1] eqn:Hwrap; [|done..].
    destruct (wrap_run _ _ _ _ _ _ _ Hwrap) as (parent & pn & -> & ->).
    intros Hc.
    assert (heap (mkWorld (heap w ++ [OpenKinematicGroup (t_str t) [t] parent])
                    (trace w ++ [Printed (Robot.warning (t_str t) pn)]))
              !! length (heap w) =
            Some (OpenKinematicGroup (t_str t) [t] parent)) as Hlk.
    { simpl. by rewrite lookup_app_r, Nat.sub_diag. }
    destruct (Hrest _ _ _ Hlk Hc) as [Hclaim ->].
    eexists (inl t), _, _. split; [done|]. split; [|split; [|done]].
    + split; [done|]. by eexists _, _.
    + simpl. by rewrite lookup_app_r, Nat.sub_diag.
  - rewrite ret_run. intros Hc.
    destruct (heap w !! l) as [g|] eqn:Hg.
    + destruct (Hrest l g w Hg Hc) as [Hclaim ->].
      by eexists (inr l), l, g.
    + rewrite bind_run in Hc. unfold deref in Hc. by rewrite Hg in Hc.
Qed.

Lemma claim_keys_values keys mapping owner msg w mapping' w' :
  Robot.claim_keys keys mapping owner msg w = (Return mapping', w') →
  ∀ k o, dict_get mapping' k = Some o →
         dict_get mapping k = Some o ∨ o = owner.
Proof.
  unfold Robot.claim_keys.
  apply (for_each_invariant
           (λ m, ∀ k o, dict_get m k = Some o →
                        dict_get mapping k = Some o ∨ o = owner)); [auto|].
  intros m key w1 m' w2 Hm. destruct (dict_in key m); [done|].
  rewrite ret_run. intros [= <- _] k o.
  destruct (decide (key = k)) as [->|Hne].
  - rewrite dict_get_set_eq. intros [= <-]. by right.
  - rewrite dict_get_set_ne by done. apply Hm.
Qed.

Lemma claim_state_registered self g l w self' w' :
  claim_state self g l w = (Return self', w') →
  heap w !! l = Some g → registered (heap w) self →
  registered (heap w') self' ∧ w' = w.
Proof.
  intros Hc Hg (Hgd & Ham & Hvm).
  assert (w' = w) as ->.
  { destruct (claim_state_cases self g l w)
      as [(msg & Hr & _)|(s' & Hr & _)]; rewrite Hr in Hc; by injection Hc. }
  split; [|done]. revert Hc. unfold claim_state.
  set (gd := dict_set (Robot._group_dict self) (g_str g) l).
  assert (∀ n l0, dict_get gd n = Some l0 →
                  ∃ g0, heap w !! l0 = Some g0 ∧ g_str g0 = n) as Hgd'.
  { intros n l0. subst gd. destruct (decide (g_str g = n)) as [<-|Hne].
    - rewrite dict_get_set_eq. intros [= <-]. eauto.
    - rewrite dict_get_set_ne by done. apply Hgd. }
  assert (∀ o, o = g_str g ∨ o ∈ dict_keys (Robot._group_dict self) →
               o ∈ dict_keys gd) as Hin.
  { intros o Ho. subst gd. by apply dict_keys_set_elem. }
  destruct (dict_nonempty (g_get_virtual_state g)).
  - rewrite bind_run.
    destruct (Robot.claim_keys (dict_keys (g_get_actuated_state g)) _ _ _ w)
      as [[am| |] w1] eqn:Ha; [|done..].
    rewrite bind_run.
    destruct (Robot.claim_keys (dict_keys (g_get_virtual_state g)) _ _ _ w1)
      as [[vm| |] w2] eqn:Hv; [|done..].
    rewrite ret_run. intros [= <-]. split; [done|]. simpl. split.
    + intros k o Hk. apply Hin.
      destruct (claim_keys_values _ _ _ _ _ _ _ Ha k o Hk); eauto.
    + intros k o Hk. apply Hin.
      destruct (claim_keys_values _ _ _ _ _ _ _ Hv k o Hk); eauto.
  - rewrite ret_run. intros [= <-]. split; [done|]. simpl.
    split; intros k o Hk; apply Hin; eauto.
Qed.

Lemma registered_grow h h' self :
  h `prefix_of` h' → registered h self → registered h' self.
Proof.
  intros Hpre (Hgd & Ham & Hvm). split; [|done].
  intros n l Hl. destruct (Hgd n l Hl) as (g & Hg & Hn).
  exists g. split; [by eapply prefix_lookup_Some|done].
Qed.

Lemma init_step_grows chain self i w self' w' :
  Robot.init_step chain self i w = (Return self', w') →
  heap w `prefix_of` heap w'.
Proof.
  intros (e & l & g & _ & He & _)%init_step_run.
  destruct e as [t|l'].
  - destruct He as (_ & parent & pn & _ & ->). simpl. by apply prefix_app_r.
  - by destruct He as [_ ->].
Qed.
End InitMore.

(** X8.  A robot that Robot.__init__ returns is well formed: every name of
    its table leads to a live group object of that name, and every owner
    that its actuator map or its virtual map names is in the table.  The
    group objects that existed before construction are as they were. *)
Theorem init_establishes_registered `{C : Collaborators}
    (kinematic_chain : list element) (w w' : World) (robot : Robot.t) :
  Robot.__init__ kinematic_chain w = (Return robot, w') →
  registered (heap w') robot ∧ heap w `prefix_of` heap w'.
Proof.
  unfold Robot.__init__.
  apply (for_each_invariant_prefix
           (λ _ self w1, registered (heap w1) self ∧ heap w `prefix_of` heap w1)).
  - split; [|done]. split; [done|]. split; done.
  - intros done i rest self w1 self' w2 _ [Hreg Hpre] Hstep.
    pose proof (init_step_grows _ _ _ _ _ _ Hstep) as Hgrow.
    split; [|by etrans].
    destruct (init_step_run _ _ _ _ _ _ Hstep) as (e & l & g & _ & _ & Hg & Hc).
    apply (claim_state_registered _ _ _ _ _ _ Hc Hg).
    by eapply registered_grow.
Qed.

(** X9.  Construction makes one new group object and prints one notice for
    every bare Transformation of the list, in list order, and nothing
    else: the heap is the old heap followed by the wrapper groups, the
    trace the old trace followed by the notices. *)
Theorem init_allocates_wrappers `{C : Collaborators}
    (kinematic_chain : list element) (w w' : World) (robot : Robot.t) :
  Robot.__init__ kinematic_chain w = (Return robot, w') →
  ∃ (news : list Group) (notices : list event),
    heap w' = heap w ++ news
    ∧ trace w' = trace w ++ notices
    ∧ Forall2 (λ t g, ∃ parent, g = OpenKinematicGroup (t_str t) [t] parent)
        (bare kinematic_chain) news
    ∧ Forall2 (λ t ev, ∃ prev_name,
                 ev = Printed (Robot.warning (t_str t) prev_name))
        (bare kinematic_chain) notices.
Proof.
  unfold Robot.__init__. intros Hrun.
  apply (for_each_invariant_prefix
           (λ done _ w1,
              ∃ news notices,
                heap w1 = heap w ++ news
                ∧ trace w1 = trace w ++ notices
                ∧ Forall2 (λ t g, ∃ parent,
                             g = OpenKinematicGroup (t_str t) [t] parent)
                    (bare (take (length done) kinematic_chain)) news
                ∧ Forall2 (λ t ev, ∃ prev_name,
                             ev = Printed (Robot.warning (t_str t) prev_name))
                    (bare (take (length done) kinematic_chain)) notices))
    in Hrun.
  - rewrite length_seq, firstn_all in Hrun. done.
  - exists [], []. rewrite !app_nil_r. repeat split; constructor.
  - intros done i rest self w1 self' w2 Hseq
      (news & notices & Hh & Ht & Hnews & Hnot) Hstep.
    assert (i = length done) as ->.
    { assert (seq 0 (length kinematic_chain) !! length done = Some i) as Hi.
      { rewrite Hseq. by rewrite lookup_app_r, Nat.sub_diag. }
      apply lookup_seq in Hi. lia. }
    destruct (init_step_run _ _ _ _ _ _ Hstep)
      as (e & l & g & He & Hcase & _ & _).
    rewrite length_app. simpl. rewrite Nat.add_1_r.
    rewrite (take_S_r _ _ _ He). unfold bare. rewrite omap_app. simpl.
    destruct e as [t|l'].
    + destruct Hcase as (_ & parent & pn & -> & ->). simpl.
      exists (news ++ [OpenKinematicGroup (t_str t) [t] parent]),
        (notices ++ [Printed (Robot.warning (t_str t) pn)]).
      rewrite Hh, Ht, <- !(assoc_L (++)). split; [done|]. split; [done|].
      split; (apply Forall2_app; [done|]); repeat constructor; eauto.
    + destruct Hcase as [_ ->]. exists news, notices.
      by rewrite !app_nil_r.
Qed.

(** ** More on the setters *)

Section SetterMore.
Context `{C : Collaborators}.
Implicit Types (robot : Robot.t) (w : World).



Lemma set_actuated_state_modifies robot (state : dict V) :
  modifies_only (refers_to robot) (Robot.set_actuated_state robot state).
Proof.
  unfold Robot.set_actuated_state.
  apply modifies_only_bind.
  { apply modifies_only_readonly, group_by_owner_readonly. }
  intros grouping. apply modifies_only_for_each. intros _ key.
  unfold Robot.actuated_call.
  apply modifies_only_getitem_bind. intros l Hl.
  apply modifies_only_getitem_bind. intros part _.
  apply modifies_only_call_method. exists key. by apply dict_get_Some_elem.
Qed.

Lemma pass_group_arg_a_to_v_modifies robot (argv_dict : dict Hint_arg) :
  modifies_only (refers_to robot) (Robot.pass_group_arg_a_to_v robot argv_dict).
Proof.
  unfold Robot.pass_group_arg_a_to_v.
  apply modifies_only_for_each. intros _ key.
  destruct (dict_in key (Robot._group_dict robot));
    [|by apply modifies_only_readonly].
  apply modifies_only_getitem_bind. intros l Hl.
  apply modifies_only_getitem_bind. intros a _.
  apply modifies_only_call_method. exists key. by apply dict_get_Some_elem.
Qed.

Lemma for_each_ext {A S} (l : list A) (s : S) (body1 body2 : S → A → Py S) w :
  (∀ s x w, x ∈ l → body1 s x w = body2 s x w) →
  for_each l s body1 w = for_each l s body2 w.
Proof.
  revert s w. induction l as [|x l IH]; intros s w Hext; [done|].
  simpl. rewrite !bind_run, Hext by by left.
  destruct (body2 s x w) as [[s'| |] w1]; [|done..].
  apply IH. intros s0 y w0 Hy. apply Hext. by right.
Qed.

Lemma dict_get_app_l {A} (d1 d2 : dict A) k :
  k ∈ dict_keys d1 → dict_get (d1 ++ d2) k = dict_get d1 k.
Proof.
  unfold dict_keys. induction d1 as [|[k0 v0] d1 IH]; simpl.
  - by intros ?%elem_of_nil.
  - intros Hin. case_decide; [done|]. apply IH.
    by apply elem_of_cons in Hin as [?|?].
Qed.

Lemma dict_get_app_r {A} (d1 d2 : dict A) k :
  k ∉ dict_keys d1 → dict_get (d1 ++ d2) k = dict_get d2 k.
Proof.
  unfold dict_keys. induction d1 as [|[k0 v0] d1 IH]; simpl; [done|].
  rewrite not_elem_of_cons. intros [Hne Hni].
  rewrite decide_False by done. by apply IH.
Qed.

Lemma getitem_app_l_eq {A} (d1 d2 : dict A) k w :
  k ∈ dict_keys d1 → getitem (d1 ++ d2) k w = getitem d1 k w.
Proof. intros Hin. unfold getitem. by rewrite dict_get_app_l. Qed.

Lemma getitem_app_r_eq {A} (d1 d2 : dict A) k w :
  k ∉ dict_keys d1 → getitem (d1 ++ d2) k w = getitem d2 k w.
Proof. intros Hni. unfold getitem. by rewrite dict_get_app_r. Qed.

Lemma seq_unit (m1 : Py unit) (m2 : unit → Py unit) w :
  (m1 ≫= m2) w = (m1 ;; m2 tt) w.
Proof.
  rewrite !bind_run. by destruct (m1 w) as [[[]| |] w1].
Qed.
End SetterMore.


(** X11.  The four calls that reach into the groups, Robot.set_actuated_state,
    Robot.set_virtual_state, Robot.pass_group_arg_v_to_a and
    Robot.pass_group_arg_a_to_v, change no object but the groups of the
    robot they are called on, and make no new object, whatever their
    argument and their outcome. *)
Theorem setters_frame `{C : Collaborators} (robot : Robot.t) :
  (∀ state : dict V,
     modifies_only (refers_to robot) (Robot.set_actuated_state robot state))
  ∧ (∀ state : dict (dict V),
       modifies_only (refers_to robot) (Robot.set_virtual_state robot state))
  ∧ (∀ argv_dict : dict Hint_arg,
       modifies_only (refers_to robot)
         (Robot.pass_group_arg_v_to_a robot argv_dict))
  ∧ (∀ argv_dict : dict Hint_arg,
       modifies_only (refers_to robot)
         (Robot.pass_group_arg_a_to_v robot argv_dict)).
Proof.
  split; [intros; apply set_actuated_state_modifies|].
  split; [intros; apply set_virtual_state_modifies|].
  split; [intros; apply pass_group_arg_v_to_a_modifies|].
  intros; apply pass_group_arg_a_to_v_modifies.
Qed.

(** X12.  Robot.set_virtual_state works key by key: setting a state that is
    made of two parts with no key in common is setting the first part and
    then the second. *)
Theorem set_virtual_state_app `{C : Collaborators}
    (robot : Robot.t) (state1 state2 : dict (dict V)) (w : World) :
  (∀ k, k ∈ dict_keys state2 → k ∉ dict_keys state1) →
  Robot.set_virtual_state robot (state1 ++ state2) w =
  (Robot.set_virtual_state robot state1 ;;
   Robot.set_virtual_state robot state2) w.
Proof.
  intros Hdisj. unfold Robot.set_virtual_state at 1.
  unfold dict_keys. rewrite fmap_app, for_each_app.
  rewrite seq_unit, !bind_run.
  rewrite (for_each_ext _ _ _ (λ _ key, Robot.virtual_step robot state1 key)).
  2:{ intros _ key w0 Hkey. unfold Robot.virtual_step.
      by rewrite !bind_run, (getitem_app_l_eq state1 state2 key w0 Hkey). }
  unfold Robot.set_virtual_state at 1. unfold dict_keys.
  destruct (for_each state1.*1 () _ w) as [[[]| |] w1]; [|done..].
  unfold Robot.set_virtual_state. apply for_each_ext.
  intros _ key w0 Hkey. unfold Robot.virtual_step.
  by rewrite !bind_run, (getitem_app_r_eq state1 state2 key w0 (Hdisj _ Hkey)).
Qed.

(** X13.  Robot.pass_group_arg_v_to_a and Robot.pass_group_arg_a_to_v are
    not atomic: when a name of the argument is not a registered group, the
    groups named before it have been given their arguments by the time the
    KeyError for that name is raised. *)
Theorem pass_group_arg_stops_at_unknown `{C : Collaborators}
    (robot : Robot.t) (known rest : dict Hint_arg) (k : string)
    (a : Hint_arg) (w : World) :
  k ∉ dict_keys (Robot._group_dict robot) →
  Robot.pass_group_arg_v_to_a robot (known ++ (k, a) :: rest) w =
    (Robot.pass_group_arg_v_to_a robot known ;;
     raise (KeyError ("No group with name " +:+ k +:+ "in this robot"))) w
  ∧ Robot.pass_group_arg_a_to_v robot (known ++ (k, a) :: rest) w =
    (Robot.pass_group_arg_a_to_v robot known ;;
     raise (KeyError ("No group with name " +:+ k +:+ "in this robot"))) w.
Proof.
  intros Hni%dict_in_false. split.
  - unfold Robot.pass_group_arg_v_to_a at 1. unfold dict_keys.
    rewrite fmap_app, for_each_app, !bind_run.
    rewrite (for_each_ext _ _ _
               (λ _ key,
                  if dict_in key (Robot._group_dict robot) then
                    l ← getitem (Robot._group_dict robot) key;
                    a ← getitem known key;
                    Robot.call_method l (Called_pass_arg_v_to_a l a)
                      (λ g, inr (g_pass_arg_v_to_a g a))
                  else
                    raise (KeyError ("No group with name " +:+ key +:+
                                     "in this robot")))).
    2:{ intros _ key w0 Hkey. destruct (dict_in key _); [|done].
        rewrite !bind_run. destruct (getitem _ key w0) as [[l| |] w1]; [|done..].
        by rewrite !bind_run, (getitem_app_l_eq known _ key w1 Hkey). }
    unfold Robot.pass_group_arg_v_to_a, dict_keys.
    destruct (for_each known.*1 () _ w) as [[[]| |] w1]; [|done..].
    simpl. by rewrite bind_run, Hni.
  - unfold Robot.pass_group_arg_a_to_v at 1. unfold dict_keys.
    rewrite fmap_app, for_each_app, !bind_run.
    rewrite (for_each_ext _ _ _
               (λ _ key,
                  if dict_in key (Robot._group_dict robot) then
                    l ← getitem (Robot._group_dict robot) key;
                    a ← getitem known key;
                    Robot.call_method l (Called_pass_arg_a_to_v l a)
                      (λ g, inr (g_pass_arg_a_to_v g a))
                  else
                    raise (KeyError ("No group with name " +:+ key +:+
                                     "in this robot")))).
    2:{ intros _ key w0 Hkey. destruct (dict_in key _); [|done].
        rewrite !bind_run. destruct (getitem _ key w0) as [[l| |] w1]; [|done..].
        by rewrite !bind_run, (getitem_app_l_eq known _ key w1 Hkey). }
    unfold Robot.pass_group_arg_a_to_v, dict_keys.
    destruct (for_each known.*1 () _ w) as [[[]| |] w1]; [|done..].
    simpl. by rewrite bind_run, Hni.
Qed.

(** ** Two robots with the same groups under the same names *)

Section Alike.
Context `{C : Collaborators}.
Variables (robot robot' : Robot.t) (w w' : World).
Hypothesis Halive : alive (heap w) robot.
Hypothesis Halive' : alive (heap w') robot'.
Hypothesis Hkeys :
  dict_keys (Robot._group_dict robot) = dict_keys (Robot._group_dict robot').
Hypothesis Hat :
  ∀ n, group_at robot (heap w) n = group_at robot' (heap w') n.

Lemma fetch_run (r : Robot.t) (w0 : World) n {B} (k : Group → Py B) :
  alive (heap w0) r →
  (l ← getitem (Robot._group_dict r) n; g ← deref l; k g) w0 =
  match group_at r (heap w0) n with
  | Some g => k g w0
  | None => (Raise (KeyError n), w0)
  end.
Proof.
  intros Hal. rewrite bind_run. unfold getitem, group_at.
  destruct (dict_get (Robot._group_dict r) n) as [l|] eqn:Hl; simpl; [|done].
  destruct (lookup_lt_is_Some_2 (heap w0) l) as [g Hg].
  { apply (Hal n). by apply dict_get_Some_elem. }
  by rewrite bind_run, (deref_Some _ _ _ Hg), Hg.
Qed.

Lemma bind_alike {A B} (m m' : Py A) (f f' : A → Py B) :
  readonly m → readonly m' → (m w).1 = (m' w').1 →
  (∀ a, (f a w).1 = (f' a w').1) →
  ((m ≫= f) w).1 = ((m' ≫= f') w').1.
Proof.
  intros Hro Hro' Hm Hf. rewrite !bind_run.
  specialize (Hro w). specialize (Hro' w').
  destruct (m w) as [o w1], (m' w') as [o' w1']. simpl in *. subst.
  destruct o'; [apply Hf|done..].
Qed.

Lemma fetch_alike n {B} (k k' : Group → Py B) :
  (∀ g, (k g w).1 = (k' g w').1) →
  ((l ← getitem (Robot._group_dict robot) n; g ← deref l; k g) w).1 =
  ((l ← getitem (Robot._group_dict robot') n; g ← deref l; k' g) w').1.
Proof.
  intros Hk. rewrite !fetch_run, Hat by done.
  destruct (group_at robot' (heap w') n); [apply Hk|done].
Qed.

Lemma for_each_alike {A S} (l : list A) (s : S) (body body' : S → A → Py S) :
  (∀ s x, readonly (body s x)) → (∀ s x, readonly (body' s x)) →
  (∀ s x, (body s x w).1 = (body' s x w').1) →
  (for_each l s body w).1 = (for_each l s body' w').1.
Proof.
  intros Hro Hro' Hb. revert s. induction l as [|x l IH]; intros s; [done|].
  simpl. apply bind_alike; [apply Hro|apply Hro'|apply Hb|apply IH].
Qed.

Lemma get_actuated_state_alike :
  (Robot.get_actuated_state robot w).1 = (Robot.get_actuated_state robot' w').1.
Proof.
  unfold Robot.get_actuated_state. rewrite Hkeys.
  apply for_each_alike; [intros; solve_readonly..|].
  intros acc key. apply fetch_alike. intros g. apply merge_loop_const.
Qed.

Lemma get_virtual_state_alike :
  (Robot.get_virtual_state robot w).1 = (Robot.get_virtual_state robot' w').1.
Proof.
  unfold Robot.get_virtual_state. rewrite Hkeys.
  apply for_each_alike; [intros; solve_readonly..|].
  intros acc key. apply fetch_alike. intros g.
  destruct (dict_nonempty (g_get_virtual_state g)); [|done].
  apply merge_loop_const.
Qed.

Lemma parent_walk_alike budget p k acc :
  (Robot.parent_walk budget (Robot._group_dict robot) p k acc w).1 =
  (Robot.parent_walk budget (Robot._group_dict robot') p k acc w').1.
Proof.
  revert p k acc. induction budget as [|b IH]; intros p k acc; simpl;
    case_decide; try done.
  apply fetch_alike. intros g. apply IH.
Qed.

Lemma ancestor_chain_alike budget n what :
  (Robot.ancestor_chain budget robot n what w).1 =
  (Robot.ancestor_chain budget robot' n what w').1.
Proof.
  unfold Robot.ancestor_chain, Robot.get_groups.
  unfold dict_in. rewrite Hkeys.
  destruct (bool_decide _); [|done].
  apply fetch_alike. intros g.
  apply bind_alike; [apply parent_walk_readonly..|apply parent_walk_alike|done].
Qed.

Lemma forward_kinematics_alike budget n :
  (forward_kinematics budget robot n w).1 =
  (forward_kinematics budget robot' n w').1.
Proof.
  unfold forward_kinematics.
  apply bind_alike;
    [apply ancestor_chain_readonly..|apply ancestor_chain_alike|].
  intros names. apply for_each_alike; [intros; solve_readonly..|].
  intros m key. unfold Robot.get_groups. by apply fetch_alike.
Qed.
End Alike.

Section DeepcopyMore.
Context `{C : Collaborators}.

Lemma Forall2_fmap_fst {A B} (l : dict A) (l' : dict B)
    (m : list (A * B)) :
  Forall2 (λ e e', e.1 = e'.1 ∧ (e.2, e'.2) ∈ m) l l' → l.*1 = l'.*1.
Proof.
  induction 1 as [|e e' l l' [He _] _ IH]; [done|]. simpl. by f_equal.
Qed.

Lemma deepcopy_names (robot robot' : Robot.t) w w' :
  alive (heap w) robot →
  deepcopy robot w = (Return robot', w') →
  dict_keys (Robot._group_dict robot') = dict_keys (Robot._group_dict robot).
Proof.
  intros Halive. unfold deepcopy. rewrite bind_run.
  destruct (for_each (Robot._group_dict robot) ([], []) deepcopy_entry w)
    as [[acc| |] w1] eqn:Hloop; [|done..].
  rewrite ret_run. intros [= <- _]. simpl.
  destruct (deepcopy_loop (heap w) (Robot._group_dict robot) [] [] [] w acc w1)
    as (_ & _ & _ & Hall); [done|by exists []; rewrite app_nil_r| |
                            constructor|done|].
  { by intros old new ?%elem_of_nil. }
  simpl in Hall. unfold dict_keys. symmetry.
  eapply Forall2_fmap_fst. exact Hall.
Qed.
End DeepcopyMore.

(** X14.  A deep copy reads like the original: after copy.deepcopy of a
    robot, the virtual state and the actuated state of the copy are those
    of the original, and forward_kinematics gives for every group of the
    copy what it gives for the original. *)
Theorem deepcopy_reads_alike `{C : Collaborators}
    (robot robot' : Robot.t) (w w' : World) :
  alive (heap w) robot →
  deepcopy robot w = (Return robot', w') →
  (Robot.get_virtual_state robot' w').1 = (Robot.get_virtual_state robot w').1
  ∧ (Robot.get_actuated_state robot' w').1 =
    (Robot.get_actuated_state robot w').1
  ∧ ∀ budget endeffector,
      (forward_kinematics budget robot' endeffector w').1 =
      (forward_kinematics budget robot endeffector w').1.
Proof.
  intros Halive Hcopy.
  destruct (deepcopy_spec _ _ _ _ Halive Hcopy)
    as ([news Hh] & _ & Hnew & Hsame).
  pose proof (deepcopy_names _ _ _ _ Halive Hcopy) as Hnames.
  assert (alive (heap w') robot') as Halive'.
  { intros n l Hin. apply (Hnew l). by exists n. }
  assert (alive (heap w') robot) as Halive0.
  { intros n l Hin. rewrite Hh, length_app. specialize (Halive n l Hin). lia. }
  assert (∀ n, group_at robot' (heap w') n = group_at robot (heap w') n) as Hat.
  { intros n. unfold group_at.
    destruct (dict_get (Robot._group_dict robot') n) as [l'|] eqn:Hl'; simpl.
    - destruct (Hsame n l' Hl') as (l & Hl & ->). rewrite Hl. simpl.
      rewrite Hh. symmetry. apply lookup_app_l.
      apply (Halive n). by apply dict_get_Some_elem.
    - apply dict_get_None in Hl'. rewrite Hnames in Hl'.
      apply dict_get_None in Hl'. by rewrite Hl'. }
  split; [by apply get_virtual_state_alike|].
  split; [by apply get_actuated_state_alike|].
  intros budget n. by apply forward_kinematics_alike.
Qed.

(** ** The states a robot reports *)

Section ReportFacts.
Context `{C : Collaborators}.

Lemma merge_loop_run {X} (d acc : dict X) (ks : list string) w :
  (∀ k, k ∈ ks → k ∈ dict_keys d) →
  ∃ acc',
    for_each ks acc
      (λ acc key, v ← getitem d key; mret (dict_set acc key v)) w
    = (Return acc', w)
    ∧ ∀ k, dict_get acc' k =
           if decide (k ∈ ks) then dict_get d k else dict_get acc k.
Proof.
  revert acc. induction ks as [|k0 ks IH]; intros acc Hks; cbn [for_each].
  - exists acc. split; [done|]. intros k. rewrite decide_False; [done|].
    apply not_elem_of_nil.
  - destruct (proj2 (dict_get_is_Some d k0)) as [v Hv].
    { apply Hks. by left. }
    rewrite bind_run, bind_run, (getitem_Some _ _ _ _ Hv), ret_run.
    destruct (IH (dict_set acc k0 v)) as (acc' & Hrun & Hget).
    { intros k Hk. apply Hks. by right. }
    exists acc'. split; [done|]. intros k. rewrite Hget.
    destruct (decide (k ∈ ks)) as [Hin|Hni].
    + rewrite decide_True; [done|by right].
    + destruct (decide (k = k0)) as [->|Hne].
      * rewrite decide_True by by left. by rewrite dict_get_set_eq.
      * rewrite decide_False by (by intros [?|?]%elem_of_cons).
        by apply dict_get_set_ne.
Qed.

Lemma merge_loop_get {X} (d acc : dict X) w :
  ∃ acc',
    for_each (dict_keys d) acc
      (λ acc key, v ← getitem d key; mret (dict_set acc key v)) w
    = (Return acc', w)
    ∧ ∀ k, dict_get acc' k =
           match dict_get d k with
           | Some v => Some v
           | None => dict_get acc k
           end.
Proof.
  destruct (merge_loop_run d acc (dict_keys d) w) as (acc' & Hrun & Hget);
    [done|].
  exists acc'. split; [done|]. intros k. rewrite Hget.
  destruct (decide (k ∈ dict_keys d)) as [Hin|Hni].
  - by apply dict_get_is_Some in Hin as [v ->].
  - apply dict_get_None in Hni. by rewrite Hni.
Qed.

(** The loop of both reports, over an arbitrary reading [get] of a group. *)
Lemma collect_run {X} (get : Group → dict X) (robot : Robot.t)
    (ks : list string) (acc : dict X) w :
  alive (heap w) robot →
  (∀ n, n ∈ ks → n ∈ dict_keys (Robot._group_dict robot)) →
  ∃ acc',
    for_each ks acc
      (λ acc key,
         l ← getitem (Robot._group_dict robot) key;
         g ← deref l;
         for_each (dict_keys (get g)) acc
           (λ acc key, v ← getitem (get g) key; mret (dict_set acc key v))) w
    = (Return acc', w)
    ∧ (∀ k x, dict_get acc' k = Some x →
         dict_get acc k = Some x
         ∨ ∃ n g, n ∈ ks ∧ group_at robot (heap w) n = Some g
                  ∧ dict_get (get g) k = Some x)
    ∧ (∀ k, is_Some (dict_get acc k) → is_Some (dict_get acc' k))
    ∧ (∀ n g k, n ∈ ks → group_at robot (heap w) n = Some g →
         is_Some (dict_get (get g) k) → is_Some (dict_get acc' k)).
Proof.
  intros Halive. revert acc. induction ks as [|n0 ks IH]; intros acc Hks; simpl.
  - exists acc. split; [done|]. split; [by left|]. split; [done|].
    by intros n g k ?%elem_of_nil.
  - rewrite bind_run, (fetch_run robot w n0) by done.
    assert (is_Some (group_at robot (heap w) n0)) as [g0 Hg0].
    { unfold group_at.
      destruct (proj2 (dict_get_is_Some (Robot._group_dict robot) n0))
        as [l Hl]; [apply Hks; by left|].
      rewrite Hl. simpl. apply lookup_lt_is_Some_2, (Halive n0).
      by apply dict_get_Some_elem. }
    rewrite Hg0.
    destruct (merge_loop_get (get g0) acc w) as (acc1 & -> & Hget1).
    destruct (IH acc1) as (acc' & Hrun & Hfrom & Hkeep & Hall).
    { intros n Hn. apply Hks. by right. }
    exists acc'. split; [done|]. split; [|split].
    + intros k x Hx. destruct (Hfrom k x Hx) as [H1|(n & g & Hn & Hg & Hk)].
      * rewrite Hget1 in H1.
        destruct (dict_get (get g0) k) as [v|] eqn:Hv; [|by left].
        right. exists n0, g0. split; [by left|]. split; [done|]. congruence.
      * right. exists n, g. split; [by right|done].
    + intros k Hk. apply Hkeep. rewrite Hget1.
      by destruct (dict_get (get g0) k).
    + intros n g k [->|Hn]%elem_of_cons Hg Hk.
      * apply Hkeep. rewrite Hget1. rewrite Hg0 in Hg. injection Hg as <-.
        by destruct Hk as [v ->].
      * by apply (Hall n g k).
Qed.

Lemma nonempty_loop {X} (d acc : dict X) :
  (if dict_nonempty d then
     for_each (dict_keys d) acc
       (λ acc key, v ← getitem d key; mret (dict_set acc key v))
   else mret acc) =
  for_each (dict_keys d) acc
    (λ acc key, v ← getitem d key; mret (dict_set acc key v)).
Proof. by destruct d. Qed.
End ReportFacts.

(** X15.  On a robot whose groups exist, Robot.get_actuated_state and
    Robot.get_virtual_state return a dictionary and change nothing.  Every
    entry of the result is an entry of the state of one of the groups, and
    every key of a group's state is a key of the result. *)
Theorem get_state_collects `{C : Collaborators}
    (robot : Robot.t) (w : World) :
  alive (heap w) robot →
  (∃ a, Robot.get_actuated_state robot w = (Return a, w)
     ∧ (∀ k x, dict_get a k = Some x →
          ∃ n g, group_at robot (heap w) n = Some g
                 ∧ dict_get (g_get_actuated_state g) k = Some x)
     ∧ (∀ n g k, group_at robot (heap w) n = Some g →
          k ∈ dict_keys (g_get_actuated_state g) → k ∈ dict_keys a))
  ∧ (∃ v, Robot.get_virtual_state robot w = (Return v, w)
     ∧ (∀ k x, dict_get v k = Some x →
          ∃ n g, group_at robot (heap w) n = Some g
                 ∧ dict_get (g_get_virtual_state g) k = Some x)
     ∧ (∀ n g k, group_at robot (heap w) n = Some g →
          k ∈ dict_keys (g_get_virtual_state g) → k ∈ dict_keys v)).
Proof.
  intros Halive.
  assert (∀ n g, group_at robot (heap w) n = Some g →
            n ∈ dict_keys (Robot._group_dict robot)) as Hnamed.
  { intros n g. unfold group_at.
    destruct (dict_get (Robot._group_dict robot) n) eqn:Hn; [|done].
    intros _. apply dict_get_is_Some. by rewrite Hn. }
  split.
  - destruct (collect_run g_get_actuated_state robot
                (dict_keys (Robot._group_dict robot)) [] w)
      as (a & Hrun & Hfrom & _ & Hall); [done..|].
    exists a. split; [exact Hrun|]. split.
    + intros k x Hx. destruct (Hfrom k x Hx) as [?|(n & g & _ & ?)]; [done|].
      by exists n, g.
    + intros n g k Hg Hk. apply dict_get_is_Some.
      apply (Hall n g k); [by apply (Hnamed n g)|done|].
      by apply dict_get_is_Some.
  - destruct (collect_run g_get_virtual_state robot
                (dict_keys (Robot._group_dict robot)) [] w)
      as (v & Hrun & Hfrom & _ & Hall); [done..|].
    exists v. split.
    { rewrite <- Hrun. unfold Robot.get_virtual_state.
      apply for_each_ext. intros acc key w0 _.
      rewrite !bind_run. destruct (getitem _ key w0) as [[l| |] w1]; [|done..].
      rewrite !bind_run. destruct (deref l w1) as [[g| |] w2]; [|done..].
      by rewrite nonempty_loop. }
    split.
    + intros k x Hx. destruct (Hfrom k x Hx) as [?|(n & g & _ & ?)]; [done|].
      by exists n, g.
    + intros n g k Hg Hk. apply dict_get_is_Some.
      apply (Hall n g k); [by apply (Hnamed n g)|done|].
      by apply dict_get_is_Some.
Qed.

(** ** The mapping functions of the triped *)

Section RemoveFacts.
Context {A : Type}.
Implicit Types (d : dict A) (k : string) (v : A).

Lemma dict_get_remove_ne d k k' :
  k ≠ k' → dict_get (dict_remove d k) k' = dict_get d k'.
Proof.
  intros Hne. induction d as [|[k0 v0] d IH]; simpl; [done|].
  case_decide; subst; simpl.
  - by rewrite decide_False.
  - case_decide; done.
Qed.

Lemma dict_keys_remove_elem d k k' :
  k' ∈ dict_keys (dict_remove d k) → k' ∈ dict_keys d.
Proof.
  unfold dict_keys. induction d as [|[k0 v0] d IH]; simpl; [done|].
  case_decide; simpl; [by right|].
  intros [->|Hin]%elem_of_cons; [by left|right; auto].
Qed.

Lemma dict_keys_remove_NoDup d k :
  NoDup (dict_keys d) → NoDup (dict_keys (dict_remove d k)).
Proof.
  induction d as [|[k0 v0] d IH]; simpl; [done|].
  intros [Hni Hnd]%NoDup_cons. case_decide; [done|].
  apply NoDup_cons. split; [|by apply IH].
  intros Hin. by apply Hni, (dict_keys_remove_elem d k).
Qed.

Lemma dict_get_remove_eq d k :
  NoDup (dict_keys d) → dict_get (dict_remove d k) k = None.
Proof.
  induction d as [|[k0 v0] d IH]; simpl; [done|].
  intros [Hni Hnd]%NoDup_cons. case_decide; subst.
  - by apply dict_get_None.
  - simpl. rewrite decide_False by done. by apply IH.
Qed.

Lemma dict_keys_set_NoDup d k v :
  NoDup (dict_keys d) → NoDup (dict_keys (dict_set d k v)).
Proof.
  intros Hnd. destruct (decide (k ∈ dict_keys d)) as [Hin|Hni].
  - by rewrite dict_keys_set_in.
  - rewrite dict_keys_set_new by done. apply NoDup_app.
    split; [done|]. split; [|apply NoDup_singleton].
    by intros k' Hk' ->%list_elem_of_singleton.
Qed.

Lemma dict_del_present d k v :
  dict_get d k = Some v → dict_del d k = inr (dict_remove d k).
Proof.
  intros Hv. unfold dict_del.
  by rewrite (proj2 (dict_in_true d k))
    by (apply dict_get_is_Some; by rewrite Hv).
Qed.
End RemoveFacts.

Lemma leg_name_head (n : nat) (s : string) :
  ∃ rest, Triped.leg_name n +:+ s = "l" +:+ rest.
Proof. by eexists. Qed.

Lemma leg_name_ne (n : nat) (s s' : string) :
  (∀ rest, s' ≠ "l" +:+ rest) → Triped.leg_name n +:+ s ≠ s'.
Proof.
  intros Hs' Heq. destruct (leg_name_head n s) as [rest Hr].
  apply (Hs' rest). by rewrite <- Heq.
Qed.

Lemma append_inj (p s s' : string) : p +:+ s = p +:+ s' → s = s'.
Proof. induction p as [|a p IH]; simpl; [done|]. intros [= ?]. auto. Qed.

(** X16.  rename_swing_to_gimbal of leg_model hands the mapping function a
    state in which the two swing angles of the leg stand under the names
    swing_left and swing_right and no longer under the names with the leg's
    prefix; an exception of the mapping function passes through, a result
    without gimbal_joint is a KeyError, and otherwise the entry gimbal_joint
    of the result is returned under the name with the leg's prefix, and no
    longer under its own. *)
Theorem rename_swing_to_gimbal_renames {A B T : Type}
    (leg_number : nat) (swing : dict A) (left right : A) :
  NoDup (dict_keys swing) →
  dict_get swing (Triped.leg_name leg_number +:+ "swing_left") = Some left →
  dict_get swing (Triped.leg_name leg_number +:+ "swing_right") = Some right →
  ∃ inner : dict A,
    dict_get inner "swing_left" = Some left
    ∧ dict_get inner "swing_right" = Some right
    ∧ dict_get inner (Triped.leg_name leg_number +:+ "swing_left") = None
    ∧ dict_get inner (Triped.leg_name leg_number +:+ "swing_right") = None
    ∧ ∀ (swing_to_gimbal : dict A → option T → exn + dict B)
        (tips : option T),
        match swing_to_gimbal inner tips with
        | inl e =>
            Triped.rename_swing_to_gimbal (Triped.leg_name leg_number)
              swing_to_gimbal swing tips = inl e
        | inr gimbal =>
            match dict_get gimbal "gimbal_joint" with
            | None =>
                Triped.rename_swing_to_gimbal (Triped.leg_name leg_number)
                  swing_to_gimbal swing tips = inl (KeyError "gimbal_joint")
            | Some joint =>
                NoDup (dict_keys gimbal) →
                ∃ out,
                  Triped.rename_swing_to_gimbal (Triped.leg_name leg_number)
                    swing_to_gimbal swing tips = inr out
                  ∧ dict_get out
                      (Triped.leg_name leg_number +:+ "gimbal_joint")
                    = Some joint
                  ∧ dict_get out "gimbal_joint" = None
            end
        end.
Proof.
  intros Hnd Hl Hr.
  set (ln := Triped.leg_name leg_number) in *.
  assert (ln +:+ "swing_left" ≠ "swing_left") as H1 by by apply leg_name_ne.
  assert (ln +:+ "swing_left" ≠ "swing_right") as H2 by by apply leg_name_ne.
  assert (ln +:+ "swing_right" ≠ "swing_left") as H3 by by apply leg_name_ne.
  assert (ln +:+ "swing_right" ≠ "swing_right") as H4 by by apply leg_name_ne.
  assert (ln +:+ "swing_left" ≠ ln +:+ "swing_right") as H5
    by by intros ?%append_inj.
  assert (ln +:+ "gimbal_joint" ≠ "gimbal_joint") as H6 by by apply leg_name_ne.
  set (s1 := dict_set swing "swing_left" left).
  set (s2 := dict_set s1 "swing_right" right).
  set (s3 := dict_remove s2 (ln +:+ "swing_left")).
  set (s4 := dict_remove s3 (ln +:+ "swing_right")).
  assert (NoDup (dict_keys s2)) as Hnd2 by by do 2 apply dict_keys_set_NoDup.
  assert (NoDup (dict_keys s3)) as Hnd3 by by apply dict_keys_remove_NoDup.
  assert (dict_get s1 (ln +:+ "swing_right") = Some right) as Hr1.
  { unfold s1. by rewrite dict_get_set_ne. }
  assert (dict_get s2 (ln +:+ "swing_left") = Some left) as Hl2.
  { unfold s2, s1. by rewrite !dict_get_set_ne. }
  assert (dict_get s3 (ln +:+ "swing_right") = Some right) as Hr3.
  { unfold s3, s2. by rewrite dict_get_remove_ne, dict_get_set_ne. }
  exists s4. split; [|split; [|split; [|split]]].
  - unfold s4, s3, s2. rewrite !dict_get_remove_ne by done.
    rewrite dict_get_set_ne by done. apply dict_get_set_eq.
  - unfold s4, s3, s2. rewrite !dict_get_remove_ne by done.
    apply dict_get_set_eq.
  - unfold s4. rewrite dict_get_remove_ne by done. by apply dict_get_remove_eq.
  - by apply dict_get_remove_eq.
  - intros f tips. unfold Triped.rename_swing_to_gimbal, lookup_key.
    rewrite Hl. cbn [try]. fold s1. rewrite Hr1. cbn [try]. fold s2.
    rewrite (dict_del_present _ _ _ Hl2). cbn [try]. fold s3.
    rewrite (dict_del_present _ _ _ Hr3). cbn [try]. fold s4.
    destruct (f s4 tips) as [e|gimbal]; cbn [try]; [done|].
    destruct (dict_get gimbal "gimbal_joint") as [joint|] eqn:Hj;
      cbn [try]; [|done].
    intros Hndg.
    rewrite (dict_del_present _ "gimbal_joint" joint)
      by by rewrite dict_get_set_ne.
    eexists. split; [done|]. split.
    + rewrite dict_get_remove_ne by done. apply dict_get_set_eq.
    + by apply dict_get_remove_eq, dict_keys_set_NoDup.
Qed.

(** X17.  rename_gimbal_to_swing of leg_model hands the mapping function a
    state in which the gimbal joint of the leg stands under the name
    gimbal_joint and no longer under the name with the leg's prefix; an
    exception of the mapping function passes through, a result without
    swing_left or swing_right is a KeyError, and otherwise the two swing
    angles of the result are returned under the names with the leg's
    prefix, and no longer under their own. *)
Theorem rename_gimbal_to_swing_renames {A B T : Type}
    (leg_number : nat) (gimbal : dict B) (joint : B) :
  NoDup (dict_keys gimbal) →
  dict_get gimbal (Triped.leg_name leg_number +:+ "gimbal_joint")
    = Some joint →
  ∃ inner : dict B,
    dict_get inner "gimbal_joint" = Some joint
    ∧ dict_get inner (Triped.leg_name leg_number +:+ "gimbal_joint") = None
    ∧ ∀ (gimbal_to_swing : dict B → option T → exn + dict A)
        (tips : option T),
        match gimbal_to_swing inner tips with
        | inl e =>
            Triped.rename_gimbal_to_swing (Triped.leg_name leg_number)
              gimbal_to_swing gimbal tips = inl e
        | inr swing =>
            match dict_get swing "swing_left", dict_get swing "swing_right"
            with
            | None, _ =>
                Triped.rename_gimbal_to_swing (Triped.leg_name leg_number)
                  gimbal_to_swing gimbal tips = inl (KeyError "swing_left")
            | Some _, None =>
                Triped.rename_gimbal_to_swing (Triped.leg_name leg_number)
                  gimbal_to_swing gimbal tips = inl (KeyError "swing_right")
            | Some swing_left, Some swing_right =>
                NoDup (dict_keys swing) →
                ∃ out,
                  Triped.rename_gimbal_to_swing (Triped.leg_name leg_number)
                    gimbal_to_swing gimbal tips = inr out
                  ∧ dict_get out (Triped.leg_name leg_number +:+ "swing_left")
                    = Some swing_left
                  ∧ dict_get out (Triped.leg_name leg_number +:+ "swing_right")
                    = Some swing_right
                  ∧ dict_get out "swing_left" = None
                  ∧ dict_get out "swing_right" = None
            end
        end.
Proof.
  intros Hnd Hj.
  set (ln := Triped.leg_name leg_number) in *.
  assert (ln +:+ "swing_left" ≠ "swing_left") as H1 by by apply leg_name_ne.
  assert (ln +:+ "swing_left" ≠ "swing_right") as H2 by by apply leg_name_ne.
  assert (ln +:+ "swing_right" ≠ "swing_left") as H3 by by apply leg_name_ne.
  assert (ln +:+ "swing_right" ≠ "swing_right") as H4 by by apply leg_name_ne.
  assert (ln +:+ "swing_left" ≠ ln +:+ "swing_right") as H5
    by by intros ?%append_inj.
  assert (ln +:+ "gimbal_joint" ≠ "gimbal_joint") as H6 by by apply leg_name_ne.
  set (g1 := dict_set gimbal "gimbal_joint" joint).
  set (g2 := dict_remove g1 (ln +:+ "gimbal_joint")).
  assert (dict_get g1 (ln +:+ "gimbal_joint") = Some joint) as Hj1.
  { unfold g1. by rewrite dict_get_set_ne. }
  exists g2. split; [|split].
  - unfold g2, g1. rewrite dict_get_remove_ne by done. apply dict_get_set_eq.
  - by apply dict_get_remove_eq, dict_keys_set_NoDup.
  - intros f tips. unfold Triped.rename_gimbal_to_swing, lookup_key.
    rewrite Hj. cbn [try]. fold g1.
    rewrite (dict_del_present _ _ _ Hj1). cbn [try]. fold g2.
    destruct (f g2 tips) as [e|swing]; cbn [try]; [done|].
    destruct (dict_get swing "swing_left") as [left|] eqn:Hl;
      cbn [try]; [|done].
    rewrite dict_get_set_ne by done.
    destruct (dict_get swing "swing_right") as [right|] eqn:Hr;
      cbn [try]; [|done].
    intros Hnds.
    set (s1 := dict_set swing (ln +:+ "swing_left") left).
    set (s2 := dict_set s1 (ln +:+ "swing_right") right).
    assert (NoDup (dict_keys s2)) as Hnd2
      by by do 2 apply dict_keys_set_NoDup.
    assert (dict_get s2 "swing_left" = Some left) as Hl2.
    { unfold s2, s1. by rewrite !dict_get_set_ne. }
    rewrite (dict_del_present _ _ _ Hl2). cbn [try].
    set (s3 := dict_remove s2 "swing_left").
    assert (dict_get s3 "swing_right" = Some right) as Hr3.
    { unfold s3, s2, s1. rewrite dict_get_remove_ne by done.
      by rewrite !dict_get_set_ne. }
    rewrite (dict_del_present _ _ _ Hr3).
    eexists. split; [done|]. split; [|split; [|split]].
    + unfold s3, s2, s1. rewrite !dict_get_remove_ne by done.
      rewrite dict_get_set_ne by done. apply dict_get_set_eq.
    + unfold s3, s2. rewrite !dict_get_remove_ne by done.
      apply dict_get_set_eq.
    + rewrite dict_get_remove_ne by done. by apply dict_get_remove_eq.
    + by apply dict_get_remove_eq, dict_keys_remove_NoDup.
Qed.

(** X18.  gimbal_to_swing of the example reads the tips and then leaves
    them out: whenever the tips are None, empty, or hold both swing_left
    and swing_right, the result is the one without tips, the solver being
    started from zeros in either case. *)
Theorem gimbal_to_swing_ignores_tips `{C : Collaborators}
    (run_solver : string → list V → list V → exn + list V)
    (state : dict (dict V)) (tips : option (dict V)) :
  (∀ t, tips = Some t → t ≠ [] →
     is_Some (dict_get t "swing_left") ∧ is_Some (dict_get t "swing_right")) →
  TripedExample.gimbal_to_swing run_solver state tips =
  TripedExample.gimbal_to_swing run_solver state None.
Proof.
  intros Htips. unfold TripedExample.gimbal_to_swing.
  destruct (lookup_key state "gimbal_joint") as [e|joint]; [done|]. cbn [try].
  destruct (lookup_key joint "rx") as [e|rx]; [done|]. cbn [try].
  destruct (lookup_key joint "ry") as [e|ry]; [done|]. cbn [try].
  destruct (lookup_key joint "rz") as [e|rz]; [done|]. cbn [try].
  destruct tips as [[|kv t]|]; [done| |done].
  destruct (Htips (kv :: t)) as [[l Hl] [r Hr]]; [done..|].
  cbv [truthy from_option id lookup_key]. by rewrite Hl, Hr.
Qed.

(** ** The further properties on concrete robots *)

Section MoreConcrete.
Import Model Examples MoreExamples.

Lemma NoDup_keys_abc :
  NoDup (SimpleInvKinSolver._symbolic_keys solver_abc).
Proof.
  apply NoDup_ListNoDup. repeat constructor; simpl; intuition discriminate.
Defined.



(** X1, witness: the three unknowns of the solver for C. *)
Lemma solver_state_round_trip_witness :
  ∃ virtual_state,
    SimpleInvKinSolver._solver_to_virtual_state solver_abc [1%Z; 2%Z; 3%Z]
      world_abc_copied = (Return virtual_state, world_abc_copied)
    ∧ SimpleInvKinSolver._virtual_to_solver_state solver_abc virtual_state
        world_abc_copied = (Return [1%Z; 2%Z; 3%Z], world_abc_copied).
Proof.
  exact (solver_state_round_trip (C:=collaborators) solver_abc
           [1%Z; 2%Z; 3%Z] world_abc_copied NoDup_keys_abc eq_refl).
Defined.

(** X2, witness: two values for the one unknown of [solver_j]. *)
Lemma solver_to_virtual_state_too_long_witness :
  SimpleInvKinSolver._solver_to_virtual_state solver_j [1%Z; 2%Z] empty_world =
  (Raise (IndexError "list index out of range"), empty_world).
Proof.
  apply (solver_to_virtual_state_too_long (C:=collaborators) solver_j
           [1%Z; 2%Z] empty_world).
  simpl. lia.
Defined.

(** X3, witness: the solver for C with orientation=True. *)
Lemma solve_without_compiled_solver_witness :
  ∃ e,
    SimpleInvKinSolver.solve_virtual solver_oriented 7%Z None world_abc =
      (Raise e, world_abc)
    ∧ SimpleInvKinSolver.solve_actuated solver_oriented 7%Z None None
        world_abc = (Raise e, world_abc)
    ∧ (@None (dict (dict Z)) = None →
       e = AttributeError
             "'SimpleInvKinSolver' object has no attribute 'inv_kin_solver'").
Proof.
  exact (solve_without_compiled_solver (C:=collaborators) 5 robot_abc "C"
           true world_abc world_abc solver_oriented eq_refl
           7%Z None None world_abc).
Defined.

(** X4, witness: a compiled solver that reports an infeasible problem. *)
Lemma solver_exception_propagates_witness :
  SimpleInvKinSolver.solve_virtual solver_j_failing 5%Z None world_failing =
    (Raise (RuntimeError ["Infeasible_Problem_Detected"]),
     @mkWorld failing_collaborators []
       [@Called_inv_kin_solver failing_collaborators [0%Z] 5%Z])
  ∧ SimpleInvKinSolver.solve_actuated solver_j_failing 5%Z None None
      world_failing =
    (Raise (RuntimeError ["Infeasible_Problem_Detected"]),
     @mkWorld failing_collaborators []
       [@Called_inv_kin_solver failing_collaborators [0%Z] 5%Z]).
Proof.
  exact (solver_exception_propagates (C:=failing_collaborators)
           solver_j_failing ["j_ry"] 5%Z None None [0%Z]
           (RuntimeError ["Infeasible_Problem_Detected"]) world_failing
           eq_refl eq_refl eq_refl).
Defined.

(** X5, witness: the solver for C, whose compiled solver answers with the
    vector it was started from. *)
Lemma solve_virtual_warm_start_witness :
  ∃ virtual_state,
    SimpleInvKinSolver.solve_virtual solver_abc 7%Z None world_abc_copied =
      (Return virtual_state,
       mkWorld (heap world_abc_copied)
         [Called_inv_kin_solver [0%Z; 0%Z; 0%Z] 7%Z])
    ∧ ∀ target' w',
        trace (SimpleInvKinSolver.solve_virtual solver_abc target'
                 (Some virtual_state) w').2 =
        trace w' ++ [Called_inv_kin_solver [0%Z; 0%Z; 0%Z] target'].
Proof.
  exact (solve_virtual_warm_start (C:=collaborators) solver_abc
           ["B_ry"; "C_rz"; "C_rx"] 7%Z [0%Z; 0%Z; 0%Z] world_abc_copied
           eq_refl NoDup_keys_abc eq_refl eq_refl).
Defined.

(** X6, witness: the symbolic representation of C. *)
Lemma symbolic_lists_parallel_witness :
  ["B_ry"; "C_rz"; "C_rx"] =
    symbol_name <$> [("B", "ry"); ("C", "rz"); ("C", "rx")]
  ∧ length ["B_ry"; "C_rz"; "C_rx"] =
    length [("B", "ry"); ("C", "rz"); ("C", "rx")].
Proof.
  exact (symbolic_lists_parallel (C:=collaborators) 5 robot_abc "C"
           world_abc world_abc
           [("A", []); ("B", [("ry", "B_ry")]);
            ("C", [("rz", "C_rz"); ("rx", "C_rx")])]
           ["B_ry"; "C_rz"; "C_rx"] [("B", "ry"); ("C", "rz"); ("C", "rx")]
           eq_refl).
Defined.

Lemma orphan_B :
  orphan (Robot._group_dict robot_orphan) (heap world_orphan) 1 "B" "A".
Proof.
  by apply (orphan_parent (C:=collaborators) _ _ "B" 0 group_B).
Defined.

(** X7, witness: the name Z on the robot of A, B and C, and the group B
    whose parent A is not in the table. *)
Lemma resolution_key_errors_witness :
  (forward_kinematics 3 robot_abc "Z" world_abc =
     (Raise (KeyError
               ("The endeffector must be a valid group name. Valid group names for this robot are: "
                +:+ str_dict_keys ["A"; "B"; "C"])),
      world_abc)
   ∧ Robot.get_symbolic_rep 3 robot_abc "Z" world_abc =
     (Raise (KeyError
               ("The endeffector must be a valid group or transformation name. Valid names for this robot are: "
                +:+ str_dict_keys ["A"; "B"; "C"])),
      world_abc))
  ∧ (forward_kinematics 3 robot_orphan "B" world_orphan =
       (Raise (KeyError "A"), world_orphan)
     ∧ Robot.get_symbolic_rep 3 robot_orphan "B" world_orphan =
       (Raise (KeyError "A"), world_orphan)).
Proof.
  split.
  - apply (proj1 (resolution_key_errors (C:=collaborators) robot_abc "Z"
                    world_abc)).
    simpl. intros Hin.
    repeat (apply elem_of_cons in Hin as [[=]|Hin]).
    by apply elem_of_nil in Hin.
  - apply (proj2 (resolution_key_errors (C:=collaborators) robot_orphan "B"
                    world_orphan) 1 "A" 3 orphan_B).
    lia.
Defined.

(** X8, witness: the robot made of the transformations A, B and C. *)
Lemma init_establishes_registered_witness :
  registered
    [group_A; group_B; group_C] robot_abc
  ∧ heap empty_world `prefix_of` [group_A; group_B; group_C].
Proof.
  exact (init_establishes_registered (C:=collaborators) chain_abc empty_world
           (mkWorld [group_A; group_B; group_C]
              [Printed (Robot.warning "A" "C");
               Printed (Robot.warning "B" "A");
               Printed (Robot.warning "C" "B")])
           robot_abc eq_refl).
Defined.

(** X9, witness: three wrappers and three notices for A, B and C. *)
Lemma init_allocates_wrappers_witness :
  ∃ (news : list group) (notices : list event),
    [group_A; group_B; group_C] = heap empty_world ++ news
    ∧ [Printed (Robot.warning "A" "C"); Printed (Robot.warning "B" "A");
       Printed (Robot.warning "C" "B")] = trace empty_world ++ notices
    ∧ Forall2 (λ t g, ∃ parent, g = open_group (t_name t) [t] parent)
        (bare chain_abc) news
    ∧ Forall2 (λ t ev, ∃ prev_name,
                 ev = Printed (Robot.warning (t_name t) prev_name))
        (bare chain_abc) notices.
Proof.
  exact (init_allocates_wrappers (C:=collaborators) chain_abc empty_world
           (mkWorld [group_A; group_B; group_C]
              [Printed (Robot.warning "A" "C");
               Printed (Robot.warning "B" "A");
               Printed (Robot.warning "C" "B")])
           robot_abc eq_refl).
Defined.



(** X12, witness: the state of B, then the state of C. *)
Lemma set_virtual_state_app_witness :
  Robot.set_virtual_state robot_abc
    ([("B", [("ry", 5%Z)])] ++ [("C", [("rz", 6%Z)])]) world_abc =
  (Robot.set_virtual_state robot_abc [("B", [("ry", 5%Z)])] ;;
   Robot.set_virtual_state robot_abc [("C", [("rz", 6%Z)])]) world_abc.
Proof.
  apply (set_virtual_state_app (C:=collaborators) robot_abc
           [("B", [("ry", 5%Z)])] [("C", [("rz", 6%Z)])] world_abc).
  intros k Hk Hk'. simpl in *.
  apply list_elem_of_singleton in Hk, Hk'. congruence.
Defined.

(** X13, witness: an argument for B, then one for the unknown name Z. *)
Lemma pass_group_arg_stops_at_unknown_witness :
  Robot.pass_group_arg_v_to_a robot_abc
    ([("B", 1%Z)] ++ ("Z", 2%Z) :: [("C", 3%Z)]) world_abc =
    (Robot.pass_group_arg_v_to_a robot_abc [("B", 1%Z)] ;;
     raise (KeyError ("No group with name " +:+ "Z" +:+ "in this robot")))
      world_abc
  ∧ Robot.pass_group_arg_a_to_v robot_abc
      ([("B", 1%Z)] ++ ("Z", 2%Z) :: [("C", 3%Z)]) world_abc =
    (Robot.pass_group_arg_a_to_v robot_abc [("B", 1%Z)] ;;
     raise (KeyError ("No group with name " +:+ "Z" +:+ "in this robot")))
      world_abc.
Proof.
  apply (pass_group_arg_stops_at_unknown (C:=collaborators) robot_abc
           [("B", 1%Z)] [("C", 3%Z)] "Z" 2%Z world_abc).
  simpl. intros Hin.
  repeat (apply elem_of_cons in Hin as [[=]|Hin]).
  by apply elem_of_nil in Hin.
Defined.

(** X14, witness: the copy of the robot of A, B and C. *)
Lemma deepcopy_reads_alike_witness :
  (Robot.get_virtual_state (SimpleInvKinSolver._robot solver_abc)
     world_abc_copied).1 =
  (Robot.get_virtual_state robot_abc world_abc_copied).1
  ∧ (Robot.get_actuated_state (SimpleInvKinSolver._robot solver_abc)
       world_abc_copied).1 =
    (Robot.get_actuated_state robot_abc world_abc_copied).1
  ∧ ∀ budget endeffector,
      (forward_kinematics budget (SimpleInvKinSolver._robot solver_abc)
         endeffector world_abc_copied).1 =
      (forward_kinematics budget robot_abc endeffector world_abc_copied).1.
Proof.
  exact (deepcopy_reads_alike (C:=collaborators) robot_abc
           (SimpleInvKinSolver._robot solver_abc) world_abc world_abc_copied
           alive_abc eq_refl).
Defined.

(** X15, witness: the robot of A, B and C. *)
Lemma get_state_collects_witness :
  (∃ a, Robot.get_actuated_state robot_abc world_abc = (Return a, world_abc)
     ∧ (∀ k x, dict_get a k = Some x →
          ∃ n g, group_at robot_abc (heap world_abc) n = Some g
                 ∧ dict_get (get_actuated_state g) k = Some x)
     ∧ (∀ n g k, group_at robot_abc (heap world_abc) n = Some g →
          k ∈ dict_keys (get_actuated_state g) → k ∈ dict_keys a))
  ∧ (∃ v, Robot.get_virtual_state robot_abc world_abc = (Return v, world_abc)
     ∧ (∀ k x, dict_get v k = Some x →
          ∃ n g, group_at robot_abc (heap world_abc) n = Some g
                 ∧ dict_get (get_virtual_state g) k = Some x)
     ∧ (∀ n g k, group_at robot_abc (heap world_abc) n = Some g →
          k ∈ dict_keys (get_virtual_state g) → k ∈ dict_keys v)).
Proof.
  exact (get_state_collects (C:=collaborators) robot_abc world_abc alive_abc).
Defined.

Lemma NoDup_swing_leg0 : NoDup (dict_keys swing_leg0).
Proof.
  apply NoDup_ListNoDup. repeat constructor; simpl; intuition discriminate.
Defined.

Lemma NoDup_gimbal_leg0 : NoDup (dict_keys gimbal_leg0).
Proof.
  apply NoDup_ListNoDup. repeat constructor; simpl; intuition discriminate.
Defined.

(** X16, witness: the swing angles 1 and 2 of leg 0. *)
Lemma rename_swing_to_gimbal_renames_witness :
  ∃ inner : dict Z,
    dict_get inner "swing_left" = Some 1%Z
    ∧ dict_get inner "swing_right" = Some 2%Z
    ∧ dict_get inner (Triped.leg_name 0 +:+ "swing_left") = None
    ∧ dict_get inner (Triped.leg_name 0 +:+ "swing_right") = None
    ∧ ∀ (swing_to_gimbal : dict Z → option (dict Z) → exn + dict (dict Z))
        (tips : option (dict Z)),
        match swing_to_gimbal inner tips with
        | inl e =>
            Triped.rename_swing_to_gimbal (Triped.leg_name 0)
              swing_to_gimbal swing_leg0 tips = inl e
        | inr gimbal =>
            match dict_get gimbal "gimbal_joint" with
            | None =>
                Triped.rename_swing_to_gimbal (Triped.leg_name 0)
                  swing_to_gimbal swing_leg0 tips
                = inl (KeyError "gimbal_joint")
            | Some joint =>
                NoDup (dict_keys gimbal) →
                ∃ out,
                  Triped.rename_swing_to_gimbal (Triped.leg_name 0)
                    swing_to_gimbal swing_leg0 tips = inr out
                  ∧ dict_get out (Triped.leg_name 0 +:+ "gimbal_joint")
                    = Some joint
                  ∧ dict_get out "gimbal_joint" = None
            end
        end.
Proof.
  exact (rename_swing_to_gimbal_renames (A:=Z) (B:=dict Z) (T:=dict Z) 0
           swing_leg0 1%Z 2%Z NoDup_swing_leg0 eq_refl eq_refl).
Defined.

(** X17, witness: the gimbal joint of leg 0. *)
Lemma rename_gimbal_to_swing_renames_witness :
  ∃ inner : dict (dict Z),
    dict_get inner "gimbal_joint"
      = Some [("rx", 4%Z); ("ry", 5%Z); ("rz", 6%Z)]
    ∧ dict_get inner (Triped.leg_name 0 +:+ "gimbal_joint") = None
    ∧ ∀ (gimbal_to_swing : dict (dict Z) → option (dict Z) → exn + dict Z)
        (tips : option (dict Z)),
        match gimbal_to_swing inner tips with
        | inl e =>
            Triped.rename_gimbal_to_swing (Triped.leg_name 0)
              gimbal_to_swing gimbal_leg0 tips = inl e
        | inr swing =>
            match dict_get swing "swing_left", dict_get swing "swing_right"
            with
            | None, _ =>
                Triped.rename_gimbal_to_swing (Triped.leg_name 0)
                  gimbal_to_swing gimbal_leg0 tips
                = inl (KeyError "swing_left")
            | Some _, None =>
                Triped.rename_gimbal_to_swing (Triped.leg_name 0)
                  gimbal_to_swing gimbal_leg0 tips
                = inl (KeyError "swing_right")
            | Some swing_left, Some swing_right =>
                NoDup (dict_keys swing) →
                ∃ out,
                  Triped.rename_gimbal_to_swing (Triped.leg_name 0)
                    gimbal_to_swing gimbal_leg0 tips = inr out
                  ∧ dict_get out (Triped.leg_name 0 +:+ "swing_left")
                    = Some swing_left
                  ∧ dict_get out (Triped.leg_name 0 +:+ "swing_right")
                    = Some swing_right
                  ∧ dict_get out "swing_left" = None
                  ∧ dict_get out "swing_right" = None
            end
        end.
Proof.
  exact (rename_gimbal_to_swing_renames (A:=Z) (B:=dict Z) (T:=dict Z) 0
           gimbal_leg0 [("rx", 4%Z); ("ry", 5%Z); ("rz", 6%Z)]
           NoDup_gimbal_leg0 eq_refl).
Defined.

(** X18, witness: tips that hold both swing angles. *)
Lemma gimbal_to_swing_ignores_tips_witness :
  TripedExample.gimbal_to_swing echo_solver gimbal_state
    (Some [("swing_left", 8%Z); ("swing_right", 9%Z)]) =
  TripedExample.gimbal_to_swing echo_solver gimbal_state None.
Proof.
  apply (gimbal_to_swing_ignores_tips (C:=collaborators) echo_solver
           gimbal_state (Some [("swing_left", 8%Z); ("swing_right", 9%Z)])).
  intros t [= <-] _. split; by eexists.
Defined.
End MoreConcrete.
